(** * Symbolic decomposition (drake/common/symbolic/decompose.cc)

    A shallow embedding of the decomposition routines of
    [common/symbolic/decompose.cc]: the variable indexer, the affine
    predicate, the linear and quadratic coefficient extractors, the
    L2-norm recogniser and the lumped-parameter factoriser.

    Numbers: a C++ [double] that the program only stores, copies or
    compares with zero is the rational it holds ([Q]).  Where the
    program computes with doubles (the quadratic decomposition and the
    L2-norm recogniser) they are values of [double], finite or not,
    and every operation rounds.  Numeric identities are stated with
    [Qeq] ([==]), structural ones with [=]. *)

From Stdlib Require Import QArith Qabs Lia List Bool Permutation Sorted.
From stdpp Require Import base option list numbers countable gmap.

Set Warnings "-register-all".

(** ** Variables and sets of variables *)

(** [symbolic::Variable]: an identity with a numeric id ([get_id()]). *)
Record variable := mkVariable { get_id : N }.

Global Instance variable_eq_dec : EqDecision variable.
Proof. solve_decision. Defined.

(** Modelled from the spec: [symbolic::Variables], the set of variables
    ("membership, subset, intersection, union").  Its declaration is not
    part of this file; the loops below walk such a set from its least id
    upwards ("sorted order for deterministic outputs"), so a set is kept
    as the list of its members in strictly increasing id order. *)
Definition variables := list variable.

Fixpoint vars_insert (v : variable) (s : variables) : variables :=
  match s with
  | [] => [v]
  | w :: r =>
      if (get_id v <? get_id w)%N then v :: s
      else if (get_id v =? get_id w)%N then s
      else w :: vars_insert v r
  end.

Definition vars_union (s t : variables) : variables :=
  fold_right vars_insert t s.

(** [Variables{vars}]: the set of the members of a vector. *)
Definition make_variables (l : list variable) : variables :=
  fold_right vars_insert [] l.

Definition include (s : variables) (v : variable) : bool :=
  existsb (fun w => (get_id w =? get_id v)%N) s.

Definition IsSubsetOf (s t : variables) : bool := forallb (include t) s.

Definition intersect (s t : variables) : variables :=
  List.filter (include t) s.

Definition vars_empty (s : variables) : bool :=
  match s with [] => true | _ => false end.

(** ** Expressions *)

(** The operator kinds that [DecomposeLumpedParametersVisitor] sends to
    [VisitNonPolynomialTerm]. *)
Inductive Operator :=
| Div | Abs | Log | Exp | Sqrt | Sin | Cos | Tan | Asin | Acos | Atan
| Atan2 | Sinh | Cosh | Tanh | Min | Max | Ceil | Floor | IfThenElse
| UninterpretedFunction.

(** [ExpressionKind], one value per [Visit...] case of the visitor. *)
Inductive ExpressionKind :=
| Constant | Var | Add | Mul | Pow | Op (k : Operator).

(** Modelled from the spec: the expression tree ("an immutable symbolic
    tree node tagged with an operator kind and its operand
    sub-expressions").  A sum keeps its constant and its map from term
    to coefficient ([c0 + sum c_i * e_i]); a product keeps its constant
    and its map from base to exponent ([c * prod b_i ^ x_i]), both maps
    in key order.  The operands of a conditional include the expressions
    of its condition. *)
Inductive Expression : Type :=
| EConstant (c : Q)
| EVar (v : variable)
| EAdd (c0 : Q) (terms : list (Expression * Q))
| EMul (c : Q) (factors : list (Expression * Expression))
| EPow (b x : Expression)
| EOp (k : Operator) (args : list Expression).

Definition get_kind (e : Expression) : ExpressionKind :=
  match e with
  | EConstant _ => Constant
  | EVar _ => Var
  | EAdd _ _ => Add
  | EMul _ _ => Mul
  | EPow _ _ => Pow
  | EOp k _ => Op k
  end.

Definition is_constant (e : Expression) : bool :=
  match e with EConstant _ => true | _ => false end.

Definition is_zero (e : Expression) : bool :=
  match e with EConstant c => Qeq_bool c 0 | _ => false end.

Definition is_one (e : Expression) : bool :=
  match e with EConstant c => Qeq_bool c 1 | _ => false end.

(** [get_argument(e)] of a unary node; the first operand. *)
Definition get_argument (e : Expression) : Expression :=
  match e with
  | EOp _ (a :: _) => a
  | _ => EConstant 0
  end.

(** [pow(base, exponent)], called by [VisitMultiplication] on a factor
    whose exponent is not one: the power node of the two. *)
Definition pow (b x : Expression) : Expression := EPow b x.

(** Modelled from the spec: [Expression::GetVariables()], the "free-variable-set
    query". *)
Fixpoint GetVariables (e : Expression) : variables :=
  match e with
  | EConstant _ => []
  | EVar v => [v]
  | EAdd _ ts =>
      fold_right (fun p acc => vars_union (GetVariables (fst p)) acc) [] ts
  | EMul _ fs =>
      fold_right
        (fun p acc =>
           vars_union (vars_union (GetVariables (fst p)) (GetVariables (snd p))) acc)
        [] fs
  | EPow b x => vars_union (GetVariables b) (GetVariables x)
  | EOp _ args => fold_right (fun a acc => vars_union (GetVariables a) acc) [] args
  end.

Definition get_variable (e : Expression) : variable :=
  match e with EVar v => v | _ => mkVariable 0 end.

Definition get_constant_value (e : Expression) : Q :=
  match e with EConstant c => c | _ => 0%Q end.

(** [get_second_argument(e)] of a binary node. *)
Definition get_second_argument (e : Expression) : Expression :=
  match e with
  | EPow _ x => x
  | EOp _ (_ :: x :: _) => x
  | _ => EConstant 0
  end.

(** ** Values of expressions *)

(** What a power and the operators of [Operator] compute is left open:
    the factoriser never looks inside them.  The only law is that of the
    exponent one, which [VisitMultiplication] uses when it visits the
    base of a factor directly. *)
Class Interpretation := {
  pow_sem : Q -> Q -> Q;
  op_sem : Operator -> list Q -> Q;
  pow_sem_one : forall x c, (c == 1)%Q -> (pow_sem x c == x)%Q
}.

(** [Expression::Evaluate(env)]. *)
Fixpoint Evaluate `{Interpretation} (env : variable -> Q) (e : Expression) : Q :=
  match e with
  | EConstant c => c
  | EVar v => env v
  | EAdd c0 ts =>
      c0 + fold_right (fun p acc => snd p * Evaluate env (fst p) + acc) 0 ts
  | EMul c fs =>
      c * fold_right
            (fun p acc =>
               pow_sem (Evaluate env (fst p)) (Evaluate env (snd p)) * acc)
            1 fs
  | EPow b x => pow_sem (Evaluate env b) (Evaluate env x)
  | EOp k args => op_sem k (map (Evaluate env) args)
  end%Q.

(** ** The algebra of expressions *)

(** The operators of [Expression] that this file calls but does not
    define: [operator+], [operator*], [Expand()] and the order
    [std::less<Expression>] of the ordered maps.  They may simplify as
    they like as long as values are kept, and the order is a strict
    total order on trees. *)
Class Algebra `{Interpretation} := {
  eadd : Expression -> Expression -> Expression;
  emul : Expression -> Expression -> Expression;
  Expand : Expression -> Expression;
  Less : Expression -> Expression -> bool;
  Evaluate_eadd : forall env a b,
    (Evaluate env (eadd a b) == Evaluate env a + Evaluate env b)%Q;
  Evaluate_emul : forall env a b,
    (Evaluate env (emul a b) == Evaluate env a * Evaluate env b)%Q;
  Evaluate_Expand : forall env e,
    (Evaluate env (Expand e) == Evaluate env e)%Q;
  Less_irrefl : forall a, Less a a = false;
  Less_trans : forall a b c,
    Less a b = true -> Less b c = true -> Less a c = true;
  Less_total : forall a b, Less a b = false -> Less b a = false -> a = b
}.

(** The simplifications of units that the operators perform on the
    spot: [0 + e], [e + 0], [1 * e], [e * 1], [0 * e] and [e * 0]. *)
Class UnitSimplification `{Algebra} := {
  eadd_zero_l : forall a b, is_zero a = true -> eadd a b = b;
  eadd_zero_r : forall a b, is_zero a = false -> is_zero b = true -> eadd a b = a;
  emul_one_l : forall a b, is_one a = true -> emul a b = b;
  emul_one_r : forall a b, is_one a = false -> is_one b = true -> emul a b = a;
  emul_zero_l : forall a b,
    is_zero a = true -> is_one b = false -> emul a b = EConstant 0;
  emul_zero_r : forall a b,
    is_one a = false -> is_zero b = true -> emul a b = EConstant 0
}.

(** ** Polynomials *)

(** [Monomial::get_powers()]: variable to exponent, in id order. *)
Definition Monomial := list (variable * nat).

Definition total_degree (m : Monomial) : nat :=
  fold_right (fun p acc => (snd p + acc)%nat) 0%nat m.

(** [Polynomial::monomial_to_coefficient_map()], in key order. *)
Definition Polynomial := list (Monomial * Expression).

(** ** Failures *)

(** The exceptions and aborts of the file, under the names the spec
    gives them. *)
Inductive Error :=
| InputNotPolynomial (e : Expression)
| DegreeExceeded (e : Expression)
| UnexpectedConstantTerm (e : Expression)
| NonConstantCoefficient (c : Expression)
| MonomialDegreeExceeded (m : Monomial)
| UnsupportedMixedPower (e : Expression)
| NonSeparablePower (e : Expression)
| NonSeparableNonlinearTerm (e : Expression)
| PreconditionFailure
| OutOfRange.

Inductive result (A : Type) : Type :=
| Ok (a : A)
| Err (err : Error).
Arguments Ok {A} a.
Arguments Err {A} err.

Global Instance result_bind : MBind result := fun A B f r =>
  match r with
  | Ok a => f a
  | Err err => Err err
  end.

Definition is_Err {A : Type} (r : result A) : Prop :=
  match r with Ok _ => False | Err _ => True end.

Section loops.
Context {A B : Type}.

(** A loop whose body may throw: the first failure ends it. *)
Fixpoint foldM (f : B -> A -> result B) (l : list A) (acc : B) : result B :=
  match l with
  | [] => Ok acc
  | x :: r => acc' ← f acc x; foldM f r acc'
  end.

Fixpoint mapM (f : A -> result B) (l : list A) : result (list B) :=
  match l with
  | [] => Ok []
  | x :: r => y ← f x; ys ← mapM f r; Ok (y :: ys)
  end.
End loops.

(** ** Ordered maps *)

Section ordered_map.
Context {K V : Type} (less : K -> K -> bool).

(** [it = m.emplace(k, v0).first; it->second = f(it->second)] on a
    [std::map] kept as its entries in key order. *)
Fixpoint emplace_then (k : K) (v0 : V) (f : V -> V) (m : list (K * V))
  : list (K * V) :=
  match m with
  | [] => [(k, f v0)]
  | (k', v') :: r =>
      if less k k' then (k, f v0) :: m
      else if less k' k then (k', v') :: emplace_then k v0 f r
      else (k', f v') :: r
  end.
End ordered_map.

(** [DRAKE_DEMAND], [DRAKE_ASSERT] and [DRAKE_THROW_UNLESS]. *)
Definition demand (c : bool) : result unit :=
  if c then Ok tt else Err PreconditionFailure.

(** ** Polynomials of expressions *)

Definition is_non_negative_integer (x : Expression) : bool :=
  match x with
  | EConstant c => (Zpos (Qden (Qred c)) =? 1)%Z && (0 <=? Qnum (Qred c))%Z
  | _ => false
  end.

(** Modelled from the spec: [Expression::is_polynomial()], "a polynomial
    (finite sum of monomials with constant coefficients)" in all the
    variables of the expression. *)
Fixpoint is_polynomial (e : Expression) : bool :=
  match e with
  | EConstant _ => true
  | EVar _ => true
  | EAdd _ ts => forallb (fun p => is_polynomial (fst p)) ts
  | EMul _ fs =>
      forallb (fun p => is_polynomial (fst p) && is_non_negative_integer (snd p)) fs
  | EPow b x => is_polynomial b && is_non_negative_integer x
  | EOp Div [a; b] => is_polynomial a && is_constant b
  | EOp _ _ => false
  end.

(** Modelled from the spec: [Polynomial::TotalDegree()], the "max
    monomial degree present". *)
Definition TotalDegree (p : Polynomial) : nat :=
  fold_right (fun t acc => Nat.max (total_degree (fst t)) acc) 0%nat p.

(** The constructors [Polynomial{e}] ([None]) and
    [Polynomial{e, indeterminates}] ([Some indeterminates]), which this
    file calls but does not define. *)
Class PolynomialOps := {
  MakePolynomial : Expression -> option variables -> Polynomial
}.

Definition variable_eqb (v w : variable) : bool := (get_id v =? get_id w)%N.

Fixpoint Monomial_eqb (m1 m2 : Monomial) : bool :=
  match m1, m2 with
  | [], [] => true
  | (v1, k1) :: r1, (v2, k2) :: r2 =>
      variable_eqb v1 v2 && (k1 =? k2)%nat && Monomial_eqb r1 r2
  | _, _ => false
  end.

(** [map.find(m)]. *)
Fixpoint find (map : Polynomial) (m : Monomial) : option Expression :=
  match map with
  | [] => None
  | (m', c) :: r => if Monomial_eqb m' m then Some c else find r m
  end.

(** [map.contains(m)]. *)
Definition contains (map : Polynomial) (m : Monomial) : bool :=
  match find map m with Some _ => true | None => false end.

(** ** IsAffine *)

Section IsAffine.
Context `{PolynomialOps}.

(** [IsAffineVisitor::IsNotAffine]; [variables_] is null or a set. *)
Definition IsNotAffine (variables_ : option variables) (e : Expression) : bool :=
  if negb (is_polynomial e) then true
  else
    let p := MakePolynomial e variables_ in
    (1 <? TotalDegree p)%nat.

(** [IsAffineVisitor::operator()] on the flag
    [found_non_affine_element_]. *)
Definition IsAffineVisitor_call (variables_ : option variables)
    (found_non_affine_element_ : bool) (e : Expression) : bool :=
  found_non_affine_element_ || IsNotAffine variables_ e.

(** [m.visit(visitor)] then [visitor.result()], over the entries of
    the matrix [m] (a list of rows). *)
Definition IsAffineVisitor_result (variables_ : option variables)
    (m : list (list Expression)) : bool :=
  negb (fold_left (IsAffineVisitor_call variables_) (concat m) false).

(** [IsAffine(m, vars)]. *)
Definition IsAffine_in (m : list (list Expression)) (vars : variables) : bool :=
  if (length (concat m) =? 0)%nat then true
  else IsAffineVisitor_result (Some vars) m.

(** [IsAffine(m)]. *)
Definition IsAffine (m : list (list Expression)) : bool :=
  if (length (concat m) =? 0)%nat then true
  else IsAffineVisitor_result None m.
End IsAffine.

(** ** DecomposeLinearExpressions *)

Section Linear.
Context `{PolynomialOps}.

(** [FindCoefficientAndFill]: the value stored in [M(i)]. *)
Definition FindCoefficientAndFill (map : Polynomial) (m : Monomial) : result Q :=
  match find map m with
  | Some c =>
      if negb (is_constant c) then Err (NonConstantCoefficient c)
      else Ok (get_constant_value c)
  | None => Ok 0%Q
  end.

(** One turn of the loop of [DecomposeLinearExpressions]: row [i] of [M]. *)
Definition DecomposeLinearExpressions_row (vars : list variable) (e : Expression)
  : result (list Q) :=
  if negb (is_polynomial e) then Err (InputNotPolynomial e)
  else
    let p := MakePolynomial e (Some (make_variables vars)) in
    if (1 <? TotalDegree p)%nat then Err (DegreeExceeded e)
    else
      let map := p in
      if contains map [] then Err (UnexpectedConstantTerm e)
      else mapM (fun v => FindCoefficientAndFill map [(v, 1%nat)]) vars.

(** [DecomposeLinearExpressions(expressions, vars, M)].  [M] enters
    through its dimensions, every entry of it being overwritten; the
    result is [M] on return. *)
Definition DecomposeLinearExpressions (expressions : list Expression)
    (vars : list variable) (M_rows M_cols : nat) : result (list (list Q)) :=
  _ ← demand ((M_rows =? length expressions)%nat && (M_cols =? length vars)%nat);
  mapM (DecomposeLinearExpressions_row vars) expressions.
End Linear.

(** ** The variable indexer *)

(** [map.try_emplace(k, v)]: the map and whether the entry is new. *)
Definition try_emplace (k : N) (v : nat) (m : gmap N nat) : gmap N nat * bool :=
  match m !! k with
  | Some _ => (m, false)
  | None => (<[k := v]> m, true)
  end.

(** [map.emplace(k, v)]. *)
Definition emplace (k : N) (v : nat) (m : gmap N nat) : gmap N nat :=
  fst (try_emplace k v m).

(** The body of the loop of [ExtractAndAppendVariablesFromExpression],
    the overload that appends to a [std::vector<Variable>]
    ([try_emplace], then [push_back] when the entry is new). *)
Definition ExtractAndAppend_step (st : list variable * gmap N nat) (var : variable)
  : list variable * gmap N nat :=
  let '(vars, map_var_to_index) := st in
  let '(map', emplace_success) :=
    try_emplace (get_id var) (length vars) map_var_to_index in
  if emplace_success then (vars ++ [var], map') else (vars, map').

(** [ExtractAndAppendVariablesFromExpression(e, vars, map_var_to_index)]
    on a [std::vector<Variable>]. *)
Definition ExtractAndAppendVariablesFromExpression (e : Expression)
    (vars : list variable) (map_var_to_index : gmap N nat)
  : result (list variable * gmap N nat) :=
  _ ← demand (size map_var_to_index =? length vars)%nat;
  Ok (fold_left ExtractAndAppend_step (GetVariables e) (vars, map_var_to_index)).

(** The body of the loop of the overload that appends to a
    [VectorX<Variable>] ([find], [emplace], [conservativeResize], then
    the assignment of the last entry). *)
Definition ExtractAndAppend_VectorX_step (st : list variable * gmap N nat)
    (var : variable) : list variable * gmap N nat :=
  let '(vars, map_var_to_index) := st in
  match map_var_to_index !! get_id var with
  | None =>
      let map' := emplace (get_id var) (length vars) map_var_to_index in
      let vars_size := length vars in
      let resized := vars ++ [mkVariable 0] in
      (<[vars_size := var]> resized, map')
  | Some _ => (vars, map_var_to_index)
  end.

(** [ExtractAndAppendVariablesFromExpression(e, vars, map_var_to_index)]
    on a [VectorX<Variable>]. *)
Definition ExtractAndAppendVariablesFromExpression_VectorX (e : Expression)
    (vars : list variable) (map_var_to_index : gmap N nat)
  : result (list variable * gmap N nat) :=
  _ ← demand (size map_var_to_index =? length vars)%nat;
  Ok (fold_left ExtractAndAppend_VectorX_step (GetVariables e)
        (vars, map_var_to_index)).

(** The body of the loop of [ExtractVariablesFromExpression(e)]; the
    state is [(vars, map_var_to_index, var_count)]. *)
Definition ExtractVariables_step (st : list variable * gmap N nat * nat)
    (var : variable) : list variable * gmap N nat * nat :=
  let '(vars, map_var_to_index, var_count) := st in
  (<[var_count := var]> vars,
   emplace (get_id var) var_count map_var_to_index,
   S var_count).

(** [ExtractVariablesFromExpression(e)]: the vector is allocated at the
    size of the set and filled at [var_count]. *)
Definition ExtractVariablesFromExpression (e : Expression)
  : list variable * gmap N nat :=
  let var_set := GetVariables e in
  let '(vars, map_var_to_index, _) :=
    fold_left ExtractVariables_step var_set
      (repeat (mkVariable 0) (length var_set), ∅, 0%nat) in
  (vars, map_var_to_index).

(** The body of the inner loop of
    [ExtractVariablesFromExpression(expressions)] ([contains], then
    [emplace] and [push_back]). *)
Definition ExtractVariables_push (st : list variable * gmap N nat) (var : variable)
  : list variable * gmap N nat :=
  let '(var_vec, map_var_to_index) := st in
  if negb (bool_decide (is_Some (map_var_to_index !! get_id var))) then
    (var_vec ++ [var], emplace (get_id var) (length var_vec) map_var_to_index)
  else st.

(** [ExtractVariablesFromExpression(expressions)]. *)
Definition ExtractVariablesFromExpressions (expressions : list Expression)
  : list variable * gmap N nat :=
  fold_left (fun st e_i => fold_left ExtractVariables_push (GetVariables e_i) st)
    expressions ([], ∅).

(** ** Dense vectors and matrices of numbers *)

(** An [Eigen::VectorXd] is the list of its entries, an
    [Eigen::MatrixXd] the list of its rows. *)
Definition Zero_vector (n : nat) : list Q := repeat 0%Q n.
Definition Zero_matrix (r c : nat) : list (list Q) := repeat (Zero_vector c) r.

Definition vcoeff (v : list Q) (i : nat) : Q := nth i v 0%Q.
Definition coeff (M : list (list Q)) (i j : nat) : Q := vcoeff (nth i M []) j.

Definition set_coeff (M : list (list Q)) (i j : nat) (x : Q) : list (list Q) :=
  <[i := <[j := x]> (nth i M [])]> M.

(** ** Doubles *)

(** A [double] on which the program does arithmetic: a finite value,
    an infinity or a NaN; the two zeros are one value.  Elsewhere in
    this file a double that is only stored, copied or compared with
    zero is kept as the rational that it holds. *)
Inductive double : Type :=
| Finite (q : Q)
| PlusInfinity
| MinusInfinity
| NaN.

(** The rounding of the exact result of an operation on finite doubles
    to a double, or to an infinity when it overflows.  It depends on
    the value of that result only. *)
Class Rounding := {
  round : Q -> double;
  round_compat : forall a b : Q, (a == b)%Q -> round a = round b
}.

(** [-x] and [std::abs(x)]. *)
Definition dneg (x : double) : double :=
  match x with
  | Finite a => Finite (- a)
  | PlusInfinity => MinusInfinity
  | MinusInfinity => PlusInfinity
  | NaN => NaN
  end.

Definition dabs (x : double) : double :=
  match x with
  | Finite a => Finite (Qabs a)
  | PlusInfinity | MinusInfinity => PlusInfinity
  | NaN => NaN
  end.

(** An infinity times the finite [a]: [positive] tells the sign of the
    infinity. *)
Definition scale_infinity (positive : bool) (a : Q) : double :=
  match (a ?= 0)%Q with
  | Eq => NaN
  | Gt => if positive then PlusInfinity else MinusInfinity
  | Lt => if positive then MinusInfinity else PlusInfinity
  end.

Section double_arithmetic.
Context `{Rounding}.

(** [x + y]. *)
Definition dadd (x y : double) : double :=
  match x, y with
  | NaN, _ | _, NaN => NaN
  | Finite a, Finite b => round (a + b)
  | PlusInfinity, MinusInfinity | MinusInfinity, PlusInfinity => NaN
  | PlusInfinity, _ | _, PlusInfinity => PlusInfinity
  | MinusInfinity, _ | _, MinusInfinity => MinusInfinity
  end.

(** [x - y]. *)
Definition dsub (x y : double) : double := dadd x (dneg y).

(** [x * y]. *)
Definition dmul (x y : double) : double :=
  match x, y with
  | NaN, _ | _, NaN => NaN
  | Finite a, Finite b => round (a * b)
  | Finite a, PlusInfinity | PlusInfinity, Finite a => scale_infinity true a
  | Finite a, MinusInfinity | MinusInfinity, Finite a => scale_infinity false a
  | PlusInfinity, PlusInfinity | MinusInfinity, MinusInfinity => PlusInfinity
  | PlusInfinity, MinusInfinity | MinusInfinity, PlusInfinity => MinusInfinity
  end.
End double_arithmetic.

(** [x <= y], [x >= y] and [x > y]: each is false when an operand is
    a NaN. *)
Definition dle (x y : double) : bool :=
  match x, y with
  | NaN, _ | _, NaN => false
  | MinusInfinity, _ | _, PlusInfinity => true
  | Finite a, Finite b => Qle_bool a b
  | _, _ => false
  end.

Definition dge (x y : double) : bool := dle y x.

Definition dgt (x y : double) : bool :=
  match x, y with
  | NaN, _ | _, NaN => false
  | _, _ => negb (dle x y)
  end.

(** Vectors and matrices of doubles, as above. *)
Definition dZero_vector (n : nat) : list double := repeat (Finite 0) n.
Definition dZero_matrix (r c : nat) : list (list double) := repeat (dZero_vector c) r.

Definition dvcoeff (v : list double) (i : nat) : double := nth i v (Finite 0).
Definition dcoeff (M : list (list double)) (i j : nat) : double :=
  dvcoeff (nth i M []) j.

Definition dset_coeff (M : list (list double)) (i j : nat) (x : double)
  : list (list double) :=
  <[i := <[j := x]> (nth i M [])]> M.

(** ** DecomposeQuadraticPolynomial *)

(** [map_var_to_index.at(id)]. *)
Definition at_index (map_var_to_index : gmap N nat) (v : variable) : result nat :=
  match map_var_to_index !! get_id v with
  | Some i => Ok i
  | None => Err OutOfRange
  end.

(** An index into an [n]-vector or an [n] by [n] matrix ([Eigen]'s own
    range assertion). *)
Definition in_range (n i : nat) : result unit :=
  if (i <? n)%nat then Ok tt else Err OutOfRange.

(** The body of the loop of [DecomposeQuadraticPolynomial] on one entry
    [p] of the monomial map; the state is [(Q, b, c)]. *)
Definition DecomposeQuadraticPolynomial_step `{Rounding}
    (map_var_to_index : gmap N nat) (num_variables : nat)
    (st : list (list double) * list double * double)
    (p : Monomial * Expression)
  : result (list (list double) * list double * double) :=
  let '(Q, b, c) := st in
  _ ← demand (is_constant (snd p));
  _ ← demand (negb (is_zero (snd p)));
  let coefficient := Finite (get_constant_value (snd p)) in
  let p_monomial := fst p in
  if (2 <? total_degree p_monomial)%nat then Err (MonomialDegreeExceeded p_monomial)
  else
    match p_monomial with
    | [(v1, k1); (v2, k2)] =>
        x1_index ← at_index map_var_to_index v1;
        _ ← demand (k1 =? 1)%nat;
        x2_index ← at_index map_var_to_index v2;
        _ ← demand (k2 =? 1)%nat;
        _ ← in_range num_variables x1_index;
        _ ← in_range num_variables x2_index;
        let Q1 := dset_coeff Q x1_index x2_index
                    (dadd (dcoeff Q x1_index x2_index) coefficient) in
        Ok (dset_coeff Q1 x2_index x1_index (dcoeff Q1 x1_index x2_index), b, c)
    | [(v, k)] =>
        _ ← demand ((k =? 2)%nat || (k =? 1)%nat);
        x_index ← at_index map_var_to_index v;
        _ ← in_range num_variables x_index;
        if (k =? 2)%nat then
          Ok (dset_coeff Q x_index x_index
                (dadd (dcoeff Q x_index x_index) (dmul (Finite 2) coefficient)), b, c)
        else
          Ok (Q, <[x_index := dadd (dvcoeff b x_index) coefficient]> b, c)
    | _ => Ok (Q, b, dadd c coefficient)
    end.

(** [DecomposeQuadraticPolynomial(poly, map_var_to_index, Q, b, c)].
    [Q] and [b] enter through their dimensions (they are set to zero
    first); the result is [(Q, b, c)] on return. *)
Definition DecomposeQuadraticPolynomial `{Rounding} (poly : Polynomial)
    (map_var_to_index : gmap N nat) (Q_rows Q_cols b_rows : nat)
  : result (list (list double) * list double * double) :=
  let num_variables := size map_var_to_index in
  _ ← demand (Q_rows =? num_variables)%nat;
  _ ← demand (Q_cols =? num_variables)%nat;
  _ ← demand (b_rows =? num_variables)%nat;
  foldM (DecomposeQuadraticPolynomial_step map_var_to_index num_variables) poly
    (dZero_matrix num_variables num_variables, dZero_vector num_variables, Finite 0).

(** ** DecomposeAffineExpressions *)

Section Affine.
Context `{PolynomialOps}.

(** One turn of the loop of
    [DecomposeAffineExpressions(expressions, vars, M, v)]: row [i] of
    [M] and entry [i] of [v]. *)
Definition DecomposeAffineExpressions_row (vars : list variable) (e : Expression)
  : result (list Q * Q) :=
  if negb (is_polynomial e) then Err (InputNotPolynomial e)
  else
    let p := MakePolynomial e (Some (make_variables vars)) in
    if (1 <? TotalDegree p)%nat then Err (DegreeExceeded e)
    else
      let map := p in
      M_i ← mapM (fun v => FindCoefficientAndFill map [(v, 1%nat)]) vars;
      v_i ← FindCoefficientAndFill map [];
      Ok (M_i, v_i).

(** [DecomposeAffineExpressions(expressions, vars, M, v)].  [M] and [v]
    enter through their dimensions, every entry of them being
    overwritten; the result is [(M, v)] on return. *)
Definition DecomposeAffineExpressions (expressions : list Expression)
    (vars : list variable) (M_rows M_cols v_rows : nat)
  : result (list (list Q) * list Q) :=
  _ ← demand ((M_rows =? length expressions)%nat && (M_cols =? length vars)%nat);
  _ ← demand (v_rows =? length expressions)%nat;
  rows ← mapM (DecomposeAffineExpressions_row vars) expressions;
  Ok (map fst rows, map snd rows).

(** The body of the loop of [DecomposeAffineExpression] on one entry
    [p] of the monomial map; the state is
    [(coeffs, constant_term, num_variable)]. *)
Definition DecomposeAffineExpression_step (e : Expression)
    (map_var_to_index : gmap N nat) (coeffs_cols : nat)
    (st : list Q * Q * nat) (p : Monomial * Expression)
  : result (list Q * Q * nat) :=
  let '(coeffs, constant_term, num_variable) := st in
  let p_monomial := fst p in
  _ ← demand (is_constant (snd p));
  let p_coeff := get_constant_value (snd p) in
  if (1 <? total_degree p_monomial)%nat then Err (DegreeExceeded e)
  else if (total_degree p_monomial =? 1)%nat then
    _ ← demand (length p_monomial =? 1)%nat;
    match p_monomial with
    | (v, _) :: _ =>
        index ← at_index map_var_to_index v;
        _ ← in_range coeffs_cols index;
        Ok (<[index := p_coeff]> coeffs, constant_term,
            if negb (Qeq_bool p_coeff 0) then S num_variable else num_variable)
    | [] => Err PreconditionFailure
    end
  else Ok (coeffs, p_coeff, num_variable).

(** [DecomposeAffineExpression(e, map_var_to_index, coeffs,
    constant_term)].  [coeffs] enters through its number of columns (it
    is set to zero first); the result is
    [(coeffs, constant_term, num_variable)], the last being the value
    returned. *)
Definition DecomposeAffineExpression (e : Expression)
    (map_var_to_index : gmap N nat) (coeffs_cols : nat)
  : result (list Q * Q * nat) :=
  _ ← demand (coeffs_cols =? size map_var_to_index)%nat;
  if negb (is_polynomial e) then Err (InputNotPolynomial e)
  else
    let poly := MakePolynomial e None in
    foldM (DecomposeAffineExpression_step e map_var_to_index coeffs_cols) poly
      (Zero_vector coeffs_cols, 0%Q, 0%nat).

(** [DecomposeAffineExpressions(v, A, b, vars)]: the variables are
    those of [v], indexed by [ExtractVariablesFromExpression(v)]; the
    result is [(A, b, vars)] on return. *)
Definition DecomposeAffineExpressions_A_b_vars (v : list Expression)
  : result (list (list Q) * list Q * list variable) :=
  let '(vars, map_var_to_index) := ExtractVariablesFromExpressions v in
  rows ← mapM (fun e_i => DecomposeAffineExpression e_i map_var_to_index (length vars)) v;
  Ok (map (fun r => r.1.1) rows, map (fun r => r.1.2) rows, vars).
End Affine.

(** ** DecomposeL2NormExpression *)

(** The numerical kernels that this file calls but does not define:
    [math::DecomposePSDmatrixIntoXtransposeTimesX(Q, tol, true)], which
    is empty when [Q] is not positive semidefinite,
    [M.colPivHouseholderQr().solve(rhs)], and [Eigen]'s product of a
    matrix and a vector [M * v], dot product [u.dot(v)] and
    [v.maxCoeff()]. *)
Class LinearAlgebra := {
  DecomposePSDmatrixIntoXtransposeTimesX :
    list (list double) -> double -> bool -> list (list double);
  colPivHouseholderQr_solve : list (list double) -> list double -> list double;
  matrix_times_vector : list (list double) -> list double -> list double;
  dot_product : list double -> list double -> double;
  maxCoeff : list double -> double
}.

(** [A.transpose()] of a matrix with [n] columns. *)
Definition dtranspose (n : nat) (A : list (list double)) : list (list double) :=
  map (fun j => map (fun row => dvcoeff row j) A) (seq 0 n).

Global Instance Operator_eq_dec : EqDecision Operator.
Proof. solve_decision. Defined.

Global Instance ExpressionKind_eq_dec : EqDecision ExpressionKind.
Proof. solve_decision. Defined.

Section L2Norm.
Context `{Rounding} `{PolynomialOps} `{LinearAlgebra}.

(** [DecomposeL2NormExpression(e, psd_tol, coefficient_tol)]. *)
Definition DecomposeL2NormExpression (e : Expression) (psd_tol coefficient_tol : double)
  : result (bool * list (list double) * list double * list variable) :=
  _ ← demand (dge psd_tol (Finite 0));
  _ ← demand (dge coefficient_tol (Finite 0));
  let A : list (list double) := [] in
  let b : list double := [] in
  let vars : list variable := [] in
  if negb (bool_decide (get_kind e = Op Sqrt)) then Ok (false, A, b, vars)
  else
    let arg := get_argument e in
    if negb (is_polynomial arg) then Ok (false, A, b, vars)
    else
      let poly := MakePolynomial arg None in
      let total_degree := TotalDegree poly in
      if negb (total_degree =? 2)%nat then Ok (false, A, b, vars)
      else
        let e_extracted := ExtractVariablesFromExpression e in
        let vars := fst e_extracted in
        let map_var_to_index := snd e_extracted in
        let n := length vars in
        '(Q, r, s) ← DecomposeQuadraticPolynomial poly map_var_to_index n n n;
        let Q := map (map (fun q => dmul q (Finite (1 # 2)))) Q in
        let A := DecomposePSDmatrixIntoXtransposeTimesX Q psd_tol true in
        if (length A =? 0)%nat then Ok (false, A, b, vars)
        else
          let half_r := map (dmul (Finite (1 # 2))) r in
          let b := colPivHouseholderQr_solve (dtranspose n A) half_r in
          let residual :=
            zip_with dsub (matrix_times_vector (dtranspose n A) b) half_r in
          if dgt (maxCoeff (map dabs residual)) coefficient_tol
          then Ok (false, A, b, vars)
          else if dgt (dabs (dsub s (dot_product b b))) coefficient_tol
          then Ok (false, A, b, vars)
          else Ok (true, A, b, vars).
End L2Norm.

(** ** DecomposeLumpedParameters *)

(** [std::tuple<VectorX<Expression>, VectorX<Expression>, Expression>]:
    the weights [w], the parameter terms [alpha] and the remainder [w0]. *)
Definition LumpedFactorization : Type :=
  list Expression * list Expression * Expression.

(** [w.head(n) << u * v.transpose()]: the entries [f u_i v_j] of the
    outer product, written into the column [w.head(n)].  The block has
    as many columns as [v] has entries, so it fits the column only
    when [v] has at most one entry, and the result is then
    [f u_i v_0] in the order of [u]; so it is in every product that
    the visitor multiplies out of an expanded expression.  For a
    longer [v] the program leaves its defined behaviour ([Eigen]'s
    assertion on the size of the block); the function below then
    lists the pairing
    [sum_ij (wa_i * wb_j) * (alpha_a_i * alpha_b_j)] of the source's
    comment, column after column, and no property of the program is
    read off it there. *)
Definition outer_product (f : Expression -> Expression -> Expression)
    (u v : list Expression) : list Expression :=
  flat_map (fun y => map (fun x => f x y) u) v.

Section Lumped.
Context `{Algebra}.

Definition VisitVariable (e : Expression) (parameters : variables)
  : result LumpedFactorization :=
  let var := get_variable e in
  if include parameters var then Ok ([EConstant 1], [e], EConstant 0)
  else Ok ([], [], e).

Definition VisitConstant (e : Expression) : result LumpedFactorization :=
  Ok ([], [], e).

(** The body of the loop of [VisitAddition] on one entry
    [(e_i, c_i)] of the sum; the state is [(w_map, w0)]. *)
Definition VisitAddition_step (Visit : Expression -> result LumpedFactorization)
    (st : list (Expression * Expression) * Expression) (p : Expression * Q)
  : result (list (Expression * Expression) * Expression) :=
  let '(w_map, w0) := st in
  let '(e_i, c_i) := p in
  '(w_i, alpha_i, w0_i) ← Visit e_i;
  let w0 := eadd w0 (emul (EConstant c_i) w0_i) in
  Ok (fold_left
        (fun w_map wa =>
           emplace_then Less (emul (EConstant c_i) (fst wa)) (EConstant 0)
             (fun second => eadd second (snd wa)) w_map)
        (combine w_i alpha_i) w_map,
      w0).

(** [VisitAddition] on the sum with constant [c0] and term map
    [terms]. *)
Definition VisitAddition (Visit : Expression -> result LumpedFactorization)
    (c0 : Q) (terms : list (Expression * Q)) : result LumpedFactorization :=
  '(w_map, w0) ← foldM (VisitAddition_step Visit) terms ([], EConstant c0);
  Ok (map fst w_map, map snd w_map, w0).

Definition SimpleMultiplication (a b : LumpedFactorization) : LumpedFactorization :=
  let '(w_a, alpha_a, w0_a) := a in
  let '(w_b, alpha_b, w0_b) := b in
  let nonzero_w0a := negb (is_zero w0_a) in
  let nonzero_w0b := negb (is_zero w0_b) in
  let w0 := emul w0_a w0_b in
  let w :=
    outer_product emul w_a w_b
    ++ (if nonzero_w0a then map (emul w0_a) w_b else [])
    ++ (if nonzero_w0b then map (emul w0_b) w_a else []) in
  let alpha :=
    outer_product emul alpha_a alpha_b
    ++ (if nonzero_w0a then alpha_b else [])
    ++ (if nonzero_w0b then alpha_a else []) in
  (w, alpha, w0).

Definition VisitPow (e : Expression) (parameters : variables)
  : result LumpedFactorization :=
  let exponent := get_second_argument e in
  let vars := GetVariables e in
  if IsSubsetOf vars parameters then Ok ([EConstant 1], [e], EConstant 0)
  else if vars_empty (intersect vars parameters) then Ok ([], [], e)
  else if is_constant exponent then Err (UnsupportedMixedPower e)
  else Err (NonSeparablePower e).

Definition VisitNonPolynomialTerm (e : Expression) (parameters : variables)
  : result LumpedFactorization :=
  let vars := GetVariables e in
  if IsSubsetOf vars parameters then Ok ([EConstant 1], [e], EConstant 0)
  else if vars_empty (intersect vars parameters) then Ok ([], [], e)
  else Err (NonSeparableNonlinearTerm e).

(** The body of the loop of [VisitMultiplication] on one entry
    [(base_i, exponent_i)] of the product; the state is [f]. *)
Definition VisitMultiplication_step (Visit : Expression -> result LumpedFactorization)
    (parameters : variables) (f : LumpedFactorization)
    (p : Expression * Expression) : result LumpedFactorization :=
  let '(base_i, exponent_i) := p in
  t ← (if is_one exponent_i then Visit base_i
       else VisitPow (pow base_i exponent_i) parameters);
  Ok (SimpleMultiplication f t).

(** [VisitMultiplication] on the product with constant [c] and
    base-to-exponent map [factors]. *)
Definition VisitMultiplication (Visit : Expression -> result LumpedFactorization)
    (parameters : variables) (c : Q) (factors : list (Expression * Expression))
  : result LumpedFactorization :=
  foldM (VisitMultiplication_step Visit parameters) factors ([], [], EConstant c).

(** [Visit], the dispatch of [VisitExpression] on the kind of [e]. *)
Fixpoint Visit (parameters : variables) (e : Expression)
  : result LumpedFactorization :=
  match e with
  | EConstant _ => VisitConstant e
  | EVar _ => VisitVariable e parameters
  | EAdd c0 terms => VisitAddition (Visit parameters) c0 terms
  | EMul c factors => VisitMultiplication (Visit parameters) parameters c factors
  | EPow _ _ => VisitPow e parameters
  | EOp _ _ => VisitNonPolynomialTerm e parameters
  end.

(** [DecomposeLumpedParametersVisitor::Decompose]. *)
Definition Decompose (e : Expression) (parameters : variables)
  : result LumpedFactorization :=
  Visit parameters (Expand e).

(** [(it->second)[i] += w_j] on a column of [W]. *)
Definition add_at (i : nat) (w_j : Expression) (col : list Expression)
  : list Expression :=
  <[i := eadd (nth i col (EConstant 0)) w_j]> col.

(** The body of the outer loop of [DecomposeLumpedParameters] on row
    [i]; the state is [(i, alpha_map, w0)]. *)
Definition DecomposeLumpedParameters_step (parameters : variables) (n : nat)
    (st : nat * list (Expression * list Expression) * list Expression)
    (f_i : Expression)
  : result (nat * list (Expression * list Expression) * list Expression) :=
  let '(i, alpha_map, w0) := st in
  '(w, alpha, this_w0) ← Decompose f_i parameters;
  Ok (S i,
      fold_left
        (fun alpha_map wa =>
           emplace_then Less (snd wa) (repeat (EConstant 0) n)
             (add_at i (fst wa)) alpha_map)
        (combine w alpha) alpha_map,
      <[i := this_w0]> w0).

(** [DecomposeLumpedParameters(f, parameters)]: [(W, alpha, w0)], [W]
    as the list of its rows. *)
Definition DecomposeLumpedParameters (f : list Expression)
    (parameters : list variable)
  : result (list (list Expression) * list Expression * list Expression) :=
  let n := length f in
  '(_, alpha_map, w0) ←
    foldM (DecomposeLumpedParameters_step (make_variables parameters) n) f
      (0%nat, [], repeat (EConstant 0) n);
  let W :=
    map (fun i => map (fun kv => nth i (snd kv) (EConstant 0)) alpha_map)
        (seq 0 n) in
  Ok (W, map fst alpha_map, w0).

(** [sum_i W_i * alpha_i + w0], built with the operators of the
    algebra. *)
Definition recompose (W alpha : list Expression) (w0 : Expression) : Expression :=
  fold_right (fun wa acc => eadd (emul (fst wa) (snd wa)) acc) w0
    (combine W alpha).
End Lumped.

(** * The vocabulary of the properties *)

(** ** Induction on expressions

    The induction principle of the tree, with the hypotheses on the
    operands of sums, products and operators that the generated
    principle leaves out. *)

Section Expression_nested_ind.
Variable P : Expression -> Prop.
Hypothesis HConstant : forall c, P (EConstant c).
Hypothesis HVar : forall v, P (EVar v).
Hypothesis HAdd : forall c0 ts, Forall (fun p => P (fst p)) ts -> P (EAdd c0 ts).
Hypothesis HMul :
  forall c fs, Forall (fun p => P (fst p) /\ P (snd p)) fs -> P (EMul c fs).
Hypothesis HPow : forall b x, P b -> P x -> P (EPow b x).
Hypothesis HOp : forall k args, Forall P args -> P (EOp k args).

Fixpoint Expression_nested_ind (e : Expression) : P e :=
  match e with
  | EConstant c => HConstant c
  | EVar v => HVar v
  | EAdd c0 ts =>
      HAdd c0 ts
        ((fix go (ts : list (Expression * Q)) : Forall (fun p => P (fst p)) ts :=
            match ts with
            | [] => List.Forall_nil _
            | p :: r => List.Forall_cons _ p r (Expression_nested_ind (fst p)) (go r)
            end) ts)
  | EMul c fs =>
      HMul c fs
        ((fix go (fs : list (Expression * Expression))
            : Forall (fun p => P (fst p) /\ P (snd p)) fs :=
            match fs with
            | [] => List.Forall_nil _
            | p :: r =>
                List.Forall_cons _ p r
                  (conj (Expression_nested_ind (fst p)) (Expression_nested_ind (snd p)))
                  (go r)
            end) fs)
  | EPow b x => HPow b x (Expression_nested_ind b) (Expression_nested_ind x)
  | EOp k args =>
      HOp k args
        ((fix go (args : list Expression) : Forall P args :=
            match args with
            | [] => List.Forall_nil _
            | a :: r => List.Forall_cons _ a r (Expression_nested_ind a) (go r)
            end) args)
  end.
End Expression_nested_ind.

(** ** Orders of variables *)

Definition increasing_ids (s : list variable) : Prop :=
  StronglySorted (fun v w => (get_id v < get_id w)%N) s.

(** [m] sends the id of each variable of [vars] to its position, and
    nothing else to anything. *)
Definition index_of (vars : list variable) (m : gmap N nat) : Prop :=
  forall id i, m !! id = Some i <-> exists v, vars !! i = Some v /\ get_id v = id.

(** The members of a list in the order of their first occurrence. *)
Definition first_occurrences (l : list variable) : list variable :=
  fold_left (fun acc v => if include acc v then acc else acc ++ [v]) l [].

(** The variables of an expression in the order a depth-first scan
    meets them, repeats included. *)
Fixpoint scan (e : Expression) : list variable :=
  match e with
  | EConstant _ => []
  | EVar v => [v]
  | EAdd _ ts => flat_map (fun p => scan (fst p)) ts
  | EMul _ fs => flat_map (fun p => scan (fst p) ++ scan (snd p)) fs
  | EPow b x => scan b ++ scan x
  | EOp _ args => flat_map scan args
  end.

Definition depth_first_order (e : Expression) : list variable :=
  first_occurrences (scan e).

(** The order of the indexer as the spec words it, for one expression:
    "first-occurrence order, depth-first scan order". *)
Definition in_depth_first_order (e : Expression) : Prop :=
  fst (ExtractVariablesFromExpression e) = depth_first_order e.

(** ** Affine expressions and their coefficients *)

Section Linear_vocabulary.
Context `{PolynomialOps}.

(** The polynomial [p] is the normal form of the affine expression
    [sum_j c_j * x_j + c0] over the variables [vars = x_0, x_1, ...]:
    degree at most one, the constant monomial present when [c0] is
    not zero, the monomial [x_j] present with coefficient [c_j] when
    [c_j] is not zero. *)
Definition affine_normal_form (p : Polynomial) (vars : list variable)
    (cs : list Q) (c0 : Q) : Prop :=
  (TotalDegree p <= 1)%nat /\
  contains p [] = negb (Qeq_bool c0 0) /\
  length cs = length vars /\
  forall j v c, vars !! j = Some v -> cs !! j = Some c ->
    find p [(v, 1%nat)] = if Qeq_bool c 0 then None else Some (EConstant c).

(** A row of the input: an expression with its affine reading
    [(e, cs, c0)]. *)
Definition affine_row (vars : list variable) (r : Expression * list Q * Q) : Prop :=
  is_polynomial r.1.1 = true /\
  affine_normal_form (MakePolynomial r.1.1 (Some (make_variables vars))) vars r.1.2 r.2.

(** The coefficients read back: a missing monomial gives [0.0]. *)
Definition read_back (cs : list Q) : list Q :=
  map (fun c => if Qeq_bool c 0 then 0%Q else c) cs.

(** The first clause of the statement on [DecomposeLinearExpressions] as
    the spec words it: a constant term in any input is reported as
    [UnexpectedConstantTerm]. *)
Definition constant_term_is_reported (expressions : list Expression)
    (vars : list variable) : Prop :=
  (exists e, e ∈ expressions /\
             contains (MakePolynomial e (Some (make_variables vars))) [] = true) ->
  exists e, DecomposeLinearExpressions expressions vars
              (length expressions) (length vars) = Err (UnexpectedConstantTerm e).
End Linear_vocabulary.

(** ** Quadratic forms *)

Definition dot (u v : list Q) : Q :=
  fold_right Qplus 0%Q (zip_with Qmult u v).

(** [M * v]. *)
Definition mat_vec (M : list (list Q)) (v : list Q) : list Q :=
  map (fun row => dot row v) M.

(** [x' * M * x]. *)
Definition bilinear (M : list (list Q)) (x : list Q) : Q := dot x (mat_vec M x).

Definition Monomial_value (env : variable -> Q) (m : Monomial) : Q :=
  fold_right (fun p acc => (env (fst p) ^ Z.of_nat (snd p) * acc)%Q) 1%Q m.

(** [Polynomial::Evaluate(env)]. *)
Definition Polynomial_value `{Interpretation} (env : variable -> Q) (p : Polynomial) : Q :=
  fold_right
    (fun t acc => (Evaluate env (snd t) * Monomial_value env (fst t) + acc)%Q) 0%Q p.

(** [0.5 * x' * M * x + b' * x + c]. *)
Definition quadratic_value (M : list (list Q)) (b : list Q) (c : Q) (x : list Q) : Q :=
  ((1 # 2) * bilinear M x + dot b x + c)%Q.

(** A monomial as the polynomial type keeps it: its variables in
    increasing id order, each with a positive exponent. *)
Definition Monomial_ok (m : Monomial) : Prop :=
  increasing_ids (map fst m) /\ Forall (fun p => (1 <= snd p)%nat) m.

(** An entry of a normalised monomial map over the variables [vars]: a
    numeric, nonzero coefficient on a monomial of [vars]. *)
Definition term_ok (vars : list variable) (t : Monomial * Expression) : Prop :=
  is_constant (snd t) = true /\ is_zero (snd t) = false /\
  Monomial_ok (fst t) /\ Forall (fun p => fst p ∈ vars) (fst t).

Definition square (n : nat) (M : list (list Q)) : Prop :=
  length M = n /\ Forall (fun row => length row = n) M.

Definition symmetric (M : list (list Q)) : Prop :=
  forall i j, coeff M i j = coeff M j i.

(** The state [(Q, b, c)] of the loop of [DecomposeQuadraticPolynomial]
    over the variables [vars]. *)
Definition quad_state (vars : list variable) (st : list (list Q) * list Q * Q) : Prop :=
  square (length vars) st.1.1 /\ length st.1.2 = length vars /\ symmetric st.1.1.

(** *** The loop in exact arithmetic

    The loop of [DecomposeQuadraticPolynomial] with every sum and
    product taken exactly, on rationals: what the program computes as
    long as no operation rounds or overflows. *)
Definition DecomposeQuadraticPolynomial_step_in_Q (map_var_to_index : gmap N nat)
    (num_variables : nat) (st : list (list Q) * list Q * Q)
    (p : Monomial * Expression) : result (list (list Q) * list Q * Q) :=
  let '(Q, b, c) := st in
  _ ← demand (is_constant (snd p));
  _ ← demand (negb (is_zero (snd p)));
  let coefficient := get_constant_value (snd p) in
  let p_monomial := fst p in
  if (2 <? total_degree p_monomial)%nat then Err (MonomialDegreeExceeded p_monomial)
  else
    match p_monomial with
    | [(v1, k1); (v2, k2)] =>
        x1_index ← at_index map_var_to_index v1;
        _ ← demand (k1 =? 1)%nat;
        x2_index ← at_index map_var_to_index v2;
        _ ← demand (k2 =? 1)%nat;
        _ ← in_range num_variables x1_index;
        _ ← in_range num_variables x2_index;
        let Q1 := set_coeff Q x1_index x2_index
                    (coeff Q x1_index x2_index + coefficient)%Q in
        Ok (set_coeff Q1 x2_index x1_index (coeff Q1 x1_index x2_index), b, c)
    | [(v, k)] =>
        _ ← demand ((k =? 2)%nat || (k =? 1)%nat);
        x_index ← at_index map_var_to_index v;
        _ ← in_range num_variables x_index;
        if (k =? 2)%nat then
          Ok (set_coeff Q x_index x_index
                (coeff Q x_index x_index + 2 * coefficient)%Q, b, c)
        else
          Ok (Q, <[x_index := (vcoeff b x_index + coefficient)%Q]> b, c)
    | _ => Ok (Q, b, (c + coefficient)%Q)
    end.

Definition DecomposeQuadraticPolynomial_in_Q (poly : Polynomial)
    (map_var_to_index : gmap N nat) (Q_rows Q_cols b_rows : nat)
  : result (list (list Q) * list Q * Q) :=
  let num_variables := size map_var_to_index in
  _ ← demand (Q_rows =? num_variables)%nat;
  _ ← demand (Q_cols =? num_variables)%nat;
  _ ← demand (b_rows =? num_variables)%nat;
  foldM (DecomposeQuadraticPolynomial_step_in_Q map_var_to_index num_variables) poly
    (Zero_matrix num_variables num_variables, Zero_vector num_variables, 0%Q).

(** *** Doubles and the rationals they hold *)

(** The double [d] is finite and holds the value [q]. *)
Definition finite_as (d : double) (q : Q) : Prop :=
  match d with
  | Finite q' => (q' == q)%Q
  | _ => False
  end.

Definition exactly (d : double) (q : Q) : bool :=
  match d with
  | Finite q' => Qeq_bool q' q
  | _ => false
  end.

(** Every entry of the state [(Q, b, c)] of doubles is finite and holds
    the entry of the state of rationals at the same place. *)
Definition represents (std : list (list double) * list double * double)
    (st : list (list Q) * list Q * Q) : Prop :=
  Forall2 (Forall2 finite_as) std.1.1 st.1.1 /\
  Forall2 finite_as std.1.2 st.1.2 /\
  finite_as std.2 st.2.

(** The loop adds the entry [t] of a monomial map to a zero without
    rounding or overflow; the coefficient of a square is doubled
    first, and the doubling is exact too. *)
Definition exact_term `{Rounding} (t : Monomial * Expression) : bool :=
  let c := get_constant_value t.2 in
  match t.1 with
  | [(_, k)] =>
      if (k =? 2)%nat
      then exactly (dadd (Finite 0) (dmul (Finite 2) (Finite c))) (2 * c)
      else exactly (dadd (Finite 0) (Finite c)) c
  | _ => exactly (dadd (Finite 0) (Finite c)) c
  end.

(** The entry of [(Q, b, c)] that the loop writes for the monomial
    [mono] is zero in [st]. *)
Definition unwritten (vars : list variable) (st : list (list Q) * list Q * Q)
    (mono : Monomial) : Prop :=
  (mono = [] -> st.2 == 0)%Q /\
  (forall i v, vars !! i = Some v ->
     (mono = [(v, 1%nat)] -> vcoeff st.1.2 i == 0)%Q /\
     (mono = [(v, 2%nat)] -> coeff st.1.1 i i == 0)%Q) /\
  (forall i j vi vj, vars !! i = Some vi -> vars !! j = Some vj ->
     (get_id vi < get_id vj)%N ->
     (mono = [(vi, 1%nat); (vj, 1%nat)] -> coeff st.1.1 i j == 0)%Q).

(** Two runs end alike: both return, or both fail with the same
    error. *)
Definition same_outcome {A B : Type} (x : result A) (y : result B) : Prop :=
  match x, y with
  | Ok _, Ok _ => True
  | Err e, Err e' => e = e'
  | _, _ => False
  end.

Section Quadratic_vocabulary.
Context `{Interpretation} `{Rounding}.

(** [DecomposeQuadraticPolynomial] returns finite [Q], [b] and [c],
    with [Q] symmetric, and [0.5 * x' Q x + b' x + c] is the value of
    [poly] under every assignment of the variables [vars]. *)
Definition reproduces_polynomial (poly : Polynomial) (vars : list variable)
    (m : gmap N nat) : Prop :=
  exists (Md : list (list double)) (bd : list double) (cd : double)
         (M : list (list Q)) (b : list Q) (c : Q),
    DecomposeQuadraticPolynomial poly m (length vars) (length vars) (length vars)
      = Ok (Md, bd, cd) /\
    represents (Md, bd, cd) (M, b, c) /\
    square (length vars) M /\ length b = length vars /\ symmetric M /\
    forall env,
      (quadratic_value M b c (map env vars) == Polynomial_value env poly)%Q.
End Quadratic_vocabulary.

(** ** The L2-norm recogniser *)

(** A tolerance below zero, and one that does not pass the test
    [tol >= 0]. *)
Definition negative (x : double) : Prop :=
  match x with
  | Finite q => (q < 0)%Q
  | MinusInfinity => True
  | _ => False
  end.

Definition negative_or_NaN (x : double) : Prop := negative x \/ x = NaN.

Section L2Norm_vocabulary.
Context `{Rounding} `{PolynomialOps} `{LinearAlgebra}.

(** Every check of [DecomposeL2NormExpression] passes on [e], and
    [A] and [b] are the matrix and the vector it computes. *)
Definition l2_matched (e : Expression) (psd_tol coefficient_tol : double)
    (A : list (list double)) (b : list double) : Prop :=
  let poly := MakePolynomial (get_argument e) None in
  let n := length (GetVariables e) in
  get_kind e = Op Sqrt /\
  is_polynomial (get_argument e) = true /\
  TotalDegree poly = 2%nat /\
  exists (M : list (list double)) (r : list double) (s : double),
    DecomposeQuadraticPolynomial poly (snd (ExtractVariablesFromExpression e)) n n n
      = Ok (M, r, s) /\
    A = DecomposePSDmatrixIntoXtransposeTimesX
          (map (map (fun q => dmul q (Finite (1 # 2)))) M) psd_tol true /\
    length A <> 0%nat /\
    b = colPivHouseholderQr_solve (dtranspose n A) (map (dmul (Finite (1 # 2))) r) /\
    dgt (maxCoeff
           (map dabs
              (zip_with dsub (matrix_times_vector (dtranspose n A) b)
                 (map (dmul (Finite (1 # 2))) r))))
        coefficient_tol = false /\
    dgt (dabs (dsub s (dot_product b b))) coefficient_tol = false.

(** The failures of [DecomposeL2NormExpression] are those of a
    negative tolerance. *)
Definition fails_on_negative_tolerance_only (e : Expression)
    (psd_tol coefficient_tol : double) : Prop :=
  is_Err (DecomposeL2NormExpression e psd_tol coefficient_tol) <->
  negative psd_tol \/ negative coefficient_tol.
End L2Norm_vocabulary.

(** ** Lumped factorisations *)

Section Lumped_vocabulary.
Context `{Algebra}.

(** [sum_j W_j * alpha_j] under [env]. *)
Definition weighted_sum (env : variable -> Q) (W alpha : list Expression) : Q :=
  dot (map (Evaluate env) W) (map (Evaluate env) alpha).

(** [sum_j W_j * alpha_j + w0] under [env]. *)
Definition factorization_value (env : variable -> Q) (f : LumpedFactorization) : Q :=
  (weighted_sum env f.1.1 f.1.2 + Evaluate env f.2)%Q.

(** The sum of [key * value] over the entries of a map. *)
Definition map_value (env : variable -> Q) (m : list (Expression * Expression)) : Q :=
  fold_right (fun kv acc => (Evaluate env kv.1 * Evaluate env kv.2 + acc)%Q) 0%Q m.

(** A factorisation whose weights and parameter terms pair up. *)
Definition paired (f : LumpedFactorization) : Prop :=
  length f.1.1 = length f.1.2.

(** The factorisation [f] pairs up and has the value of [e]. *)
Definition factorizes (e : Expression) (f : LumpedFactorization) : Prop :=
  paired f /\ forall env, (factorization_value env f == Evaluate env e)%Q.

(** [sum_i c_i * e_i] of the term map of a sum. *)
Definition terms_value (env : variable -> Q) (ts : list (Expression * Q)) : Q :=
  fold_right (fun p acc => (snd p * Evaluate env (fst p) + acc)%Q) 0%Q ts.

(** [prod_i b_i ^ x_i] of the factor map of a product. *)
Definition factors_value (env : variable -> Q) (fs : list (Expression * Expression)) : Q :=
  fold_right
    (fun p acc => (pow_sem (Evaluate env (fst p)) (Evaluate env (snd p)) * acc)%Q)
    1%Q fs.

(** What [VisitMultiplication] runs on one factor. *)
Definition visit_factor (Visit : Expression -> result LumpedFactorization)
    (parameters : variables) (p : Expression * Expression)
  : result LumpedFactorization :=
  if is_one p.2 then Visit p.1 else VisitPow (pow p.1 p.2) parameters.

(** Row [r] of [W * alpha], read off the columns of [alpha_map]. *)
Definition row_value (env : variable -> Q)
    (alpha_map : list (Expression * list Expression)) (r : nat) : Q :=
  fold_right
    (fun kv acc =>
       (Evaluate env (nth r kv.2 (EConstant 0)) * Evaluate env kv.1 + acc)%Q)
    0%Q alpha_map.

Definition columns (n : nat) (alpha_map : list (Expression * list Expression)) : Prop :=
  Forall (fun kv => length kv.2 = n) alpha_map.

(** The state of the outer loop of [DecomposeLumpedParameters] once
    the rows [done] are through: each of them is reproduced, and the
    rows to come are still zero. *)
Definition rows_done (done : list Expression) (n : nat)
    (st : nat * list (Expression * list Expression) * list Expression) : Prop :=
  st.1.1 = length done /\
  columns n st.1.2 /\
  length st.2 = n /\
  (forall r f_r env, done !! r = Some f_r ->
     (row_value env st.1.2 r + Evaluate env (nth r st.2 (EConstant 0)) ==
      Evaluate env f_r)%Q) /\
  (forall r env, (length done <= r)%nat -> (row_value env st.1.2 r == 0)%Q).

(** The keys of [alpha_map] once the rows [done] are through: in
    order, and those of the parameter terms of these rows. *)
Definition keys_done (parameters : variables) (done : list Expression)
    (st : nat * list (Expression * list Expression) * list Expression) : Prop :=
  StronglySorted (fun a b => Less a b = true) (map fst st.1.2) /\
  forall a, In a (map fst st.1.2) <->
    exists f_i w alpha_i w0_i,
      In f_i done /\ Decompose f_i parameters = Ok (w, alpha_i, w0_i) /\ In a alpha_i.

(** A state-only term that the visitor returns as it stands. *)
Definition state_atom (parameters : variables) (a : Expression) : Prop :=
  Visit parameters a = Ok ([], [], a) /\ is_zero a = false /\ is_one a = false.

(** The mechanism of the merge of [a*p1 + b*p1] as the spec words it:
    the addition step of the visitor, keyed by weight, merges the
    terms into one weight paired with [p1]. *)
Definition addition_merges (e : Expression) (p1 : variable) : Prop :=
  exists w w0, Decompose e (make_variables [p1]) = Ok ([w], [EVar p1], w0).
End Lumped_vocabulary.

(** ** Failures of the factoriser *)

(** The variables of [e] are neither all parameters nor all states. *)
Definition mixed (parameters : variables) (e : Expression) : bool :=
  negb (IsSubsetOf (GetVariables e) parameters)
  && negb (vars_empty (intersect (GetVariables e) parameters)).

(** A power or an operator of [Operator]: a node the visitor does not
    open. *)
Definition is_opaque (n : Expression) : bool :=
  match n with
  | EPow _ _ | EOp _ _ => true
  | _ => false
  end.

(** [visits e n]: the visitor started on [e] dispatches on the node
    [n].  It walks through the terms of a sum and the bases of a
    product whose exponent is one, and takes a factor with any other
    exponent as a power. *)
Inductive visits : Expression -> Expression -> Prop :=
| visits_here (e : Expression) : visits e e
| visits_term (c0 : Q) (ts : list (Expression * Q)) (t : Expression) (c : Q)
    (n : Expression) :
    In (t, c) ts -> visits t n -> visits (EAdd c0 ts) n
| visits_base (c : Q) (fs : list (Expression * Expression)) (b x n : Expression) :
    In (b, x) fs -> is_one x = true -> visits b n -> visits (EMul c fs) n
| visits_power (c : Q) (fs : list (Expression * Expression)) (b x : Expression) :
    In (b, x) fs -> is_one x = false -> visits (EMul c fs) (pow b x).

(** The failure raised on a mixed node. *)
Definition blame (n : Expression) : Error :=
  match n with
  | EPow _ x =>
      if is_constant x then UnsupportedMixedPower n else NonSeparablePower n
  | _ => NonSeparableNonlinearTerm n
  end.

(** * The vocabulary of the further properties *)

(** ** Affine expressions with their constant term *)

Section Affine_vocabulary.
Context `{PolynomialOps}.

(** The normal form of [sum_j c_j * x_j + c0] with its constant term:
    as [affine_normal_form], and the constant monomial carries [c0]
    when [c0] is not zero. *)
Definition affine_normal_form_with_constant (p : Polynomial) (vars : list variable)
    (cs : list Q) (c0 : Q) : Prop :=
  (TotalDegree p <= 1)%nat /\
  find p [] = (if Qeq_bool c0 0 then None else Some (EConstant c0)) /\
  length cs = length vars /\
  forall j v c, vars !! j = Some v -> cs !! j = Some c ->
    find p [(v, 1%nat)] = if Qeq_bool c 0 then None else Some (EConstant c).

Definition affine_row_with_constant (vars : list variable)
    (r : Expression * list Q * Q) : Prop :=
  is_polynomial r.1.1 = true /\
  affine_normal_form_with_constant
    (MakePolynomial r.1.1 (Some (make_variables vars))) vars r.1.2 r.2.
End Affine_vocabulary.

(** A polynomial as the constructor leaves it on an affine expression:
    nonzero numeric coefficients on pairwise distinct monomials over the
    variables [vars], of degree at most one. *)
Definition affine_polynomial (vars : list variable) (p : Polynomial) : Prop :=
  Forall (term_ok vars) p /\ (TotalDegree p <= 1)%nat /\ NoDup (map fst p).

(** The number of entries of a vector that are not zero. *)
Definition count_nonzero (coeffs : list Q) : nat :=
  length (List.filter (fun c => negb (Qeq_bool c 0)) coeffs).

(** The state [(coeffs, constant_term, num_variable)] of the loop of
    [DecomposeAffineExpression] is still zero where the entries of
    [poly] will write. *)
Definition untouched (vars : list variable) (st : list Q * Q * nat)
    (poly : Polynomial) : Prop :=
  (forall v i, [(v, 1%nat)] ∈ map fst poly -> vars !! i = Some v ->
     (vcoeff st.1.1 i == 0)%Q) /\
  ([] ∈ map fst poly -> (st.1.2 == 0)%Q).

(** ** Coefficients of a monomial map *)

(** The coefficient of the monomial [mono] in the map [poly], zero when
    the monomial is missing. *)
Definition coefficient (poly : Polynomial) (mono : Monomial) : Q :=
  match find poly mono with
  | Some c => get_constant_value c
  | None => 0%Q
  end.

(** What the entry [t] of a monomial map adds to the coefficient of
    [mono]. *)
Definition share (t : Monomial * Expression) (mono : Monomial) : Q :=
  if Monomial_eqb t.1 mono then get_constant_value t.2 else 0%Q.

(** What the entries of [poly] add, all together. *)
Definition share_sum (poly : Polynomial) (mono : Monomial) : Q :=
  fold_right (fun t acc => (share t mono + acc)%Q) 0%Q poly.

(** The entries of [(Q, b, c)] as they stand in [st'] are those of
    [st] with [add mono] added at the place of each monomial [mono]:
    the constant, the linear terms, the squares, and the products of
    two variables. *)
Definition entries_step (vars : list variable) (add : Monomial -> Q)
    (st st' : list (list Q) * list Q * Q) : Prop :=
  (st'.2 == st.2 + add [])%Q /\
  (forall i v, vars !! i = Some v ->
     (vcoeff st'.1.2 i == vcoeff st.1.2 i + add [(v, 1%nat)])%Q /\
     (coeff st'.1.1 i i == coeff st.1.1 i i + 2 * add [(v, 2%nat)])%Q) /\
  (forall i j vi vj, vars !! i = Some vi -> vars !! j = Some vj ->
     (get_id vi < get_id vj)%N ->
     (coeff st'.1.1 i j == coeff st.1.1 i j + add [(vi, 1%nat); (vj, 1%nat)])%Q).

(** ** Expressions without parameters *)

(** Every power and operator node that the visitor dispatches on has a
    variable.  (A node without any is taken for a term in the
    parameters, its empty set of variables being a subset of them.) *)
Fixpoint opaque_nodes_have_variables (e : Expression) : bool :=
  match e with
  | EConstant _ | EVar _ => true
  | EAdd _ ts => forallb (fun p => opaque_nodes_have_variables (fst p)) ts
  | EMul _ fs =>
      forallb
        (fun p =>
           if is_one (snd p) then opaque_nodes_have_variables (fst p)
           else negb (vars_empty (GetVariables (pow (fst p) (snd p)))))
        fs
  | EPow _ _ | EOp _ _ => negb (vars_empty (GetVariables e))
  end.

(** No variable of [e] is a parameter. *)
Definition without_parameters (parameters : variables) (e : Expression) : bool :=
  vars_empty (intersect (GetVariables e) parameters).

(** * Reference collaborators

    Small instances of what this file takes as given (the algebra, the
    polynomial constructor, the numerical kernels), on which the
    examples run. *)

(** Integer powers; any other exponent is given the value zero. *)
Definition reference_pow (x y : Q) : Q :=
  if (Zpos (Qden (Qred y)) =? 1)%Z then (x ^ Qnum (Qred y))%Q else 0%Q.

(** Multiplication of a monomial by the power [v ^ k]. *)
Fixpoint Monomial_times_power (v : variable) (k : nat) (m : Monomial) : Monomial :=
  match m with
  | [] => [(v, k)]
  | (w, j) :: r =>
      if (get_id v <? get_id w)%N then (v, k) :: m
      else if (get_id v =? get_id w)%N then (w, (j + k)%nat) :: r
      else (w, j) :: Monomial_times_power v k r
  end.

Definition Monomial_mul (m1 m2 : Monomial) : Monomial :=
  fold_right (fun p acc => Monomial_times_power (fst p) (snd p) acc) m2 m1.

(** [p + c * m], zero coefficients dropped. *)
Fixpoint add_term (m : Monomial) (c : Q) (p : Polynomial) : Polynomial :=
  match p with
  | [] => if Qeq_bool c 0 then [] else [(m, EConstant c)]
  | (m', c') :: r =>
      if Monomial_eqb m' m then
        let s := Qred (get_constant_value c' + c) in
        if Qeq_bool s 0 then r else (m', EConstant s) :: r
      else (m', c') :: add_term m c r
  end.

Definition poly_scale (k : Q) (p : Polynomial) : Polynomial :=
  fold_right (fun t acc => add_term (fst t) (k * get_constant_value (snd t)) acc) [] p.

Definition poly_add (p q : Polynomial) : Polynomial :=
  fold_right (fun t acc => add_term (fst t) (get_constant_value (snd t)) acc) q p.

Definition poly_mul (p q : Polynomial) : Polynomial :=
  fold_right
    (fun t acc =>
       fold_right
         (fun u acc =>
            add_term (Monomial_mul (fst t) (fst u))
              (get_constant_value (snd t) * get_constant_value (snd u)) acc)
         acc q)
    [] p.

Definition poly_pow (p : Polynomial) (n : nat) : Polynomial :=
  Nat.iter n (poly_mul p) [([], EConstant 1)].

Definition exponent_value (x : Expression) : nat :=
  Z.to_nat (Qnum (Qred (get_constant_value x))).

(** Modelled from the spec: the polynomial of a polynomial expression
    with numeric coefficients, all of its variables being
    indeterminates ("a mapping from Monomial to a coefficient",
    "zero-coefficient entries must not appear in the normalized map"). *)
Fixpoint reference_polynomial (e : Expression) : Polynomial :=
  match e with
  | EConstant c => add_term [] c []
  | EVar v => [([(v, 1%nat)], EConstant 1)]
  | EAdd c0 ts =>
      fold_right
        (fun t acc => poly_add (poly_scale (snd t) (reference_polynomial (fst t))) acc)
        (add_term [] c0 []) ts
  | EMul c fs =>
      poly_scale c
        (fold_right
           (fun f acc =>
              poly_mul (poly_pow (reference_polynomial (fst f)) (exponent_value (snd f)))
                acc)
           [([], EConstant 1)] fs)
  | EPow b x => poly_pow (reference_polynomial b) (exponent_value x)
  | EOp _ _ => []
  end.

Definition reference_PolynomialOps : PolynomialOps :=
  {| MakePolynomial e _ := reference_polynomial e |}.

Definition Operator_index (k : Operator) : nat :=
  match k with
  | Div => 0 | Abs => 1 | Log => 2 | Exp => 3 | Sqrt => 4 | Sin => 5 | Cos => 6
  | Tan => 7 | Asin => 8 | Acos => 9 | Atan => 10 | Atan2 => 11 | Sinh => 12
  | Cosh => 13 | Tanh => 14 | Min => 15 | Max => 16 | Ceil => 17 | Floor => 18
  | IfThenElse => 19 | UninterpretedFunction => 20
  end.

Definition Q_leaf (c : Q) : gen_tree (Z * positive + N) :=
  GenLeaf (inl (Qnum c, Qden c)).

(** A serialisation of the tree ("any canonical serialization of the
    tree suffices" for the order of the maps). *)
Fixpoint to_tree (e : Expression) : gen_tree (Z * positive + N) :=
  match e with
  | EConstant c => Q_leaf c
  | EVar v => GenLeaf (inr (get_id v))
  | EAdd c0 ts =>
      GenNode 0 (Q_leaf c0 :: map (fun p => GenNode 0 [to_tree (fst p); Q_leaf (snd p)]) ts)
  | EMul c fs =>
      GenNode 1 (Q_leaf c :: map (fun p => GenNode 0 [to_tree (fst p); to_tree (snd p)]) fs)
  | EPow b x => GenNode 2 [to_tree b; to_tree x]
  | EOp k args => GenNode (3 + Operator_index k) (map to_tree args)
  end.

Definition reference_Less (a b : Expression) : bool :=
  (encode (to_tree a) <? encode (to_tree b))%positive.

Definition reference_eadd (a b : Expression) : Expression :=
  if is_zero a then b
  else if is_zero b then a
  else
    match a, b with
    | EConstant x, EConstant y => EConstant (x + y)
    | _, _ => EAdd 0 [(a, 1%Q); (b, 1%Q)]
    end.

Definition reference_emul (a b : Expression) : Expression :=
  if is_one a then b
  else if is_one b then a
  else if is_zero a || is_zero b then EConstant 0
  else
    match a, b with
    | EConstant x, EConstant y => EConstant (x * y)
    | _, _ => EMul 1 [(a, EConstant 1); (b, EConstant 1)]
    end.

(** The rounding of IEEE 754 binary64, to the nearest double and to the
    even one of two nearest: [n / d] for [d > 0], rounded to an
    integer. *)
Definition div_nearest_even (n d : Z) : Z :=
  let q := (n / d)%Z in
  match (2 * (n mod d) ?= d)%Z with
  | Lt => q
  | Gt => (q + 1)%Z
  | Eq => if Z.even q then q else (q + 1)%Z
  end.

(** The double nearest to the reduced fraction [q]: a significand of at
    most 53 bits times a power of two between [2^-1074] and [2^971],
    or an infinity beyond the largest double. *)
Definition binary64_of_reduced (q : Q) : double :=
  let n := Z.abs (Qnum q) in
  let d := Z.pos (Qden q) in
  if (n =? 0)%Z then Finite 0
  else
    let k := (Z.log2 n - Z.log2 d)%Z in
    let l := if (d * 2 ^ Z.max 0 k <=? n * 2 ^ Z.max 0 (- k))%Z then k else (k - 1)%Z in
    let e := Z.max (l - 52) (-1074) in
    let m := div_nearest_even (n * 2 ^ Z.max 0 (- e)) (d * 2 ^ Z.max 0 e) in
    let e' := if (m =? 2 ^ 53)%Z then (e + 1)%Z else e in
    let m' := if (m =? 2 ^ 53)%Z then (2 ^ 52)%Z else m in
    if (971 <? e')%Z
    then (if (Qnum q <? 0)%Z then MinusInfinity else PlusInfinity)
    else
      Finite (Qred (Qmake ((if (Qnum q <? 0)%Z then - m' else m') * 2 ^ Z.max 0 e')
                      (Z.to_pos (2 ^ Z.max 0 (- e'))))).

Definition binary64_round (q : Q) : double := binary64_of_reduced (Qred q).

(** A stand-in for the numerical kernels: the identity matrix is its
    own factor, no other matrix is factored, the solver returns its
    right-hand side, and sums run from the last term to the first. *)
Definition is_one_or_zero (one : bool) (x : double) : bool :=
  match x with
  | Finite q => Qeq_bool q (if one then 1 else 0)
  | _ => false
  end.

Definition is_identity (M : list (list double)) : bool :=
  forallb
    (fun i =>
       (length (nth i M []) =? length M)%nat &&
       forallb
         (fun j => is_one_or_zero (i =? j)%nat (dcoeff M i j))
         (seq 0 (length M)))
    (seq 0 (length M)).

Definition reference_dot `{Rounding} (u v : list double) : double :=
  fold_right dadd (Finite 0) (zip_with dmul u v).

Definition reference_LinearAlgebra `{Rounding} : LinearAlgebra :=
  {| DecomposePSDmatrixIntoXtransposeTimesX M _ _ := if is_identity M then M else [];
     colPivHouseholderQr_solve _ rhs := rhs;
     matrix_times_vector M v := map (fun row => reference_dot row v) M;
     dot_product := reference_dot;
     maxCoeff v := fold_right (fun x acc => if dgt x acc then x else acc)
                     MinusInfinity v |}.

(** * Properties *)

(** ** Sets of variables *)

Lemma get_id_inj (v w : variable) : get_id v = get_id w -> v = w.
Proof. destruct v, w; simpl; congruence. Qed.

Lemma vars_insert_elem (x v : variable) (s : variables) :
  In x (vars_insert v s) <-> x = v \/ In x s.
Proof.
  induction s as [|w r IH]; simpl.
  - intuition congruence.
  - destruct (N.ltb_spec (get_id v) (get_id w)); simpl; [intuition congruence|].
    destruct (N.eqb_spec (get_id v) (get_id w)) as [E|E]; simpl.
    + apply get_id_inj in E. subst. intuition congruence.
    + rewrite IH. intuition congruence.
Qed.

Lemma vars_insert_increasing (v : variable) (s : variables) :
  increasing_ids s -> increasing_ids (vars_insert v s).
Proof.
  unfold increasing_ids.
  induction s as [|w r IH]; simpl; intros Hs.
  - repeat constructor.
  - inversion Hs as [|? ? Hr Hw]; subst.
    destruct (N.ltb_spec (get_id v) (get_id w)).
    + constructor; [assumption|]. constructor; [assumption|].
      eapply Forall_impl; [exact Hw|]. simpl. intros; lia.
    + destruct (N.eqb_spec (get_id v) (get_id w)) as [E|E]; [assumption|].
      constructor; [auto|].
      apply Forall_forall. intros x Hx. apply list_elem_of_In, vars_insert_elem in Hx.
      destruct Hx as [->|Hx]; [lia|].
      rewrite Forall_forall in Hw. apply Hw. now apply list_elem_of_In.
Qed.

Lemma vars_union_increasing (s t : variables) :
  increasing_ids t -> increasing_ids (vars_union s t).
Proof.
  intros Ht. induction s as [|v r IH]; simpl; [assumption|].
  now apply vars_insert_increasing.
Qed.

Lemma GetVariables_increasing (e : Expression) : increasing_ids (GetVariables e).
Proof.
  assert (Hnil : increasing_ids []) by constructor.
  assert (Hfold : forall (A : Type) (f : A -> variables) (l : list A),
             increasing_ids (fold_right (fun a acc => vars_union (f a) acc) [] l)).
  { intros A f l. induction l; simpl; [assumption|]. now apply vars_union_increasing. }
  induction e; simpl.
  - assumption.
  - repeat constructor.
  - apply (Hfold _ (fun p => GetVariables (fst p))).
  - apply (Hfold _ (fun p => vars_union (GetVariables (fst p)) (GetVariables (snd p)))).
  - now apply vars_union_increasing.
  - apply (Hfold _ GetVariables).
Qed.

Lemma increasing_ids_NoDup (s : list variable) : increasing_ids s -> NoDup s.
Proof.
  induction 1 as [|v r Hr IH Hv]; constructor; [|assumption].
  intros Hin.
  rewrite Forall_forall in Hv. specialize (Hv _ Hin). lia.
Qed.


Lemma VectorX_step_eq (st : list variable * gmap N nat) (var : variable) :
  ExtractAndAppend_VectorX_step st var = ExtractAndAppend_step st var.
Proof.
  destruct st as [vars m].
  unfold ExtractAndAppend_VectorX_step, ExtractAndAppend_step, emplace, try_emplace.
  destruct (m !! get_id var) eqn:E; simpl; [reflexivity|].
  f_equal.
  rewrite insert_app_r_alt by lia. now rewrite Nat.sub_diag.
Qed.

Lemma push_step_eq (st : list variable * gmap N nat) (var : variable) :
  ExtractVariables_push st var = ExtractAndAppend_step st var.
Proof.
  destruct st as [vars m].
  unfold ExtractVariables_push, ExtractAndAppend_step, emplace, try_emplace.
  case_bool_decide as Hs; simpl.
  - destruct Hs as [i Hi]. now rewrite Hi.
  - destruct (m !! get_id var) eqn:E; [|reflexivity].
    exfalso. apply Hs. eauto.
Qed.

Lemma fold_left_ext_eq {A B : Type} (f g : B -> A -> B) (l : list A) (b : B) :
  (forall b a, f b a = g b a) -> fold_left f l b = fold_left g l b.
Proof.
  intros Hfg. revert b. induction l as [|a l IH]; simpl; intros b; [reflexivity|].
  now rewrite Hfg, IH.
Qed.

Lemma filter_ext_elem {A : Type} (P1 P2 : A -> Prop)
    `{!forall x, Decision (P1 x)} `{!forall x, Decision (P2 x)} (l : list A) :
  (forall x, x ∈ l -> P1 x <-> P2 x) -> filter P1 l = filter P2 l.
Proof.
  induction l as [|a l IH]; intros Hl; [reflexivity|].
  rewrite !filter_cons.
  rewrite IH by (intros x Hx; apply Hl; now right).
  destruct (decide (P1 a)) as [H1|H1], (decide (P2 a)) as [H2|H2];
    try reflexivity; exfalso; apply (Hl a) in H1 || apply (Hl a) in H2;
    try contradiction; left.
Qed.

Lemma ExtractAndAppend_fold (l : list variable) :
  NoDup l -> forall (vars : list variable) (m : gmap N nat),
  size m = length vars ->
  exists m',
    let new := filter (fun v => m !! get_id v = None) l in
    fold_left ExtractAndAppend_step l (vars, m) = (vars ++ new, m') /\
    size m' = length (vars ++ new) /\
    (forall id i, m !! id = Some i -> m' !! id = Some i) /\
    (forall k v, new !! k = Some v -> m' !! get_id v = Some (length vars + k)%nat) /\
    (forall id, is_Some (m' !! id) ->
                is_Some (m !! id) \/ exists v, v ∈ new /\ get_id v = id) /\
    (new = [] -> m' = m).
Proof.
  induction 1 as [|v r Hv Hr IH]; intros vars m Hsize; simpl.
  - exists m. rewrite app_nil_r. repeat split; auto.
    intros k v Hk. discriminate.
  - unfold try_emplace. destruct (m !! get_id v) eqn:E.
    + destruct (IH vars m Hsize) as (m' & Hfold & Hsz & Hold & Hnew & Hdom & Hnil).
      exists m'. rewrite filter_cons_False by congruence. auto 10.
    + destruct (IH (vars ++ [v]) (<[get_id v := length vars]> m)) as
        (m' & Hfold & Hsz & Hold & Hnew & Hdom & Hnil).
      { rewrite map_size_insert_None by assumption. rewrite length_app. simpl. lia. }
      assert (Hfilter :
        filter (fun w => <[get_id v := length vars]> m !! get_id w = None) r =
        filter (fun w => m !! get_id w = None) r).
      { apply filter_ext_elem. intros w Hw.
        rewrite lookup_insert_ne; [reflexivity|].
        intros Heq. apply get_id_inj in Heq. subst. contradiction. }
      rewrite Hfilter in *.
      exists m'. rewrite filter_cons_True by assumption.
      rewrite <- app_assoc in Hfold, Hsz. simpl in Hfold, Hsz.
      split; [exact Hfold|]. split; [exact Hsz|].
      split; [|split; [|split]].
      * intros id i Hi. apply Hold. rewrite lookup_insert_ne; [assumption|].
        intros <-. congruence.
      * intros [|k] w Hk; simpl in Hk.
        -- injection Hk as <-. rewrite Nat.add_0_r. apply Hold. apply lookup_insert_eq.
        -- apply Hnew in Hk. rewrite Hk. f_equal. rewrite length_app. simpl. lia.
      * intros id Hid. destruct (Hdom id Hid) as [Hm|(w & Hw & Hwid)].
        -- destruct (decide (get_id v = id)) as [<-|Hne].
           ++ right. exists v. split; [left|reflexivity].
           ++ left. now rewrite lookup_insert_ne in Hm.
        -- right. exists w. split; [now right|assumption].
      * discriminate.
Qed.

Lemma include_spec (s : list variable) (v : variable) :
  include s v = true <-> v ∈ s.
Proof.
  unfold include. rewrite existsb_exists. split.
  - intros (w & Hw & E). apply N.eqb_eq, get_id_inj in E. subst.
    now apply list_elem_of_In.
  - intros Hv. exists v. split; [now apply list_elem_of_In|apply N.eqb_refl].
Qed.

Lemma index_of_lookup_None (vars : list variable) (m : gmap N nat) (v : variable) :
  index_of vars m -> (m !! get_id v = None <-> v ∉ vars).
Proof.
  intros Hidx. split.
  - intros Hm Hv. apply list_elem_of_lookup in Hv as [i Hi].
    assert (m !! get_id v = Some i) as Hs by (apply Hidx; eauto).
    congruence.
  - intros Hv. destruct (m !! get_id v) as [i|] eqn:E; [|reflexivity].
    apply Hidx in E as (w & Hw & Hid). apply get_id_inj in Hid. subst.
    exfalso. apply Hv. eapply list_elem_of_lookup_2; eauto.
Qed.

Lemma index_of_append (vars : list variable) (m : gmap N nat) (v : variable) :
  index_of vars m -> m !! get_id v = None ->
  index_of (vars ++ [v]) (<[get_id v := length vars]> m).
Proof.
  intros Hidx Hv id i. split.
  - destruct (decide (get_id v = id)) as [<-|Hne].
    + rewrite lookup_insert_eq. intros [= <-]. exists v.
      split; [|reflexivity]. rewrite lookup_app_r by lia.
      now rewrite Nat.sub_diag.
    + rewrite lookup_insert_ne by assumption. intros Hi.
      apply Hidx in Hi as (w & Hw & Hid). exists w. split; [|assumption].
      now apply lookup_app_l_Some.
  - intros (w & Hw & Hid). apply lookup_app_Some in Hw as [Hw|[Hlen Hw]].
    + assert (m !! id = Some i) as Hm by (apply Hidx; eauto).
      rewrite lookup_insert_ne; [assumption|]. intros <-. congruence.
    + apply list_lookup_singleton_Some in Hw as [Hi ->]. subst id.
      replace i with (length vars) by lia. apply lookup_insert_eq.
Qed.

Lemma index_of_empty : index_of [] ∅.
Proof.
  intros id i. rewrite lookup_empty. split; [discriminate|].
  intros (v & Hv & _). discriminate.
Qed.

Lemma ExtractAndAppend_fold_index (l vars : list variable) (m : gmap N nat) :
  index_of vars m -> size m = length vars ->
  exists m',
    fold_left ExtractAndAppend_step l (vars, m) =
      (fold_left (fun acc v => if include acc v then acc else acc ++ [v]) l vars, m') /\
    index_of (fold_left (fun acc v => if include acc v then acc else acc ++ [v]) l vars) m' /\
    size m' =
      length (fold_left (fun acc v => if include acc v then acc else acc ++ [v]) l vars).
Proof.
  revert vars m. induction l as [|v r IH]; intros vars m Hidx Hsize; simpl.
  - eauto.
  - unfold try_emplace.
    pose proof (index_of_lookup_None vars m v Hidx) as Hnone.
    destruct (m !! get_id v) eqn:E.
    + assert (include vars v = true) as ->.
      { apply include_spec. destruct (decide (v ∈ vars)); [assumption|].
        apply Hnone in n0. discriminate. }
      now apply IH.
    + assert (include vars v = false) as ->.
      { apply not_true_is_false. rewrite include_spec. now apply Hnone. }
      apply IH.
      * now apply index_of_append.
      * rewrite map_size_insert_None by assumption. rewrite length_app. simpl. lia.
Qed.

Lemma first_occurrences_NoDup (l : list variable) :
  NoDup l -> forall acc, (forall v, v ∈ l -> v ∉ acc) ->
  fold_left (fun acc v => if include acc v then acc else acc ++ [v]) l acc = acc ++ l.
Proof.
  induction 1 as [|v r Hv Hr IH]; intros acc Hacc; simpl.
  - now rewrite app_nil_r.
  - assert (include acc v = false) as ->.
    { apply not_true_is_false. rewrite include_spec. apply Hacc. left. }
    rewrite IH.
    + now rewrite <- app_assoc.
    + intros w Hw Hin. apply elem_of_app in Hin as [Hin|Hin].
      * apply (Hacc w); [now right|assumption].
      * apply list_elem_of_singleton in Hin. subst. contradiction.
Qed.

Lemma ExtractVariables_step_fold (l : list variable) :
  NoDup l -> forall (vars0 : list variable) (m : gmap N nat),
  (forall v, v ∈ l -> m !! get_id v = None) ->
  fold_left ExtractVariables_step l
    (vars0 ++ repeat (mkVariable 0) (length l), m, length vars0) =
  (fst (fold_left ExtractAndAppend_step l (vars0, m)),
   snd (fold_left ExtractAndAppend_step l (vars0, m)),
   (length vars0 + length l)%nat).
Proof.
  induction 1 as [|v r Hv Hr IH]; intros vars0 m Hfresh; simpl.
  - now rewrite app_nil_r, Nat.add_0_r.
  - unfold emplace, try_emplace. rewrite (Hfresh v) by left. simpl.
    rewrite insert_app_r_alt by lia. rewrite Nat.sub_diag. simpl.
    replace (vars0 ++ v :: repeat (mkVariable 0) (length r))
      with ((vars0 ++ [v]) ++ repeat (mkVariable 0) (length r))
      by now rewrite <- app_assoc.
    replace (S (length vars0)) with (length (vars0 ++ [v]))
      by (rewrite length_app; simpl; lia).
    rewrite IH.
    + rewrite length_app. simpl. f_equal. lia.
    + intros w Hw. rewrite lookup_insert_ne; [apply Hfresh; now right|].
      intros Heq. apply get_id_inj in Heq. subst. contradiction.
Qed.

(** ** The variables of an expression *)

Lemma vars_union_elem (x : variable) (s t : variables) :
  x ∈ vars_union s t <-> x ∈ s \/ x ∈ t.
Proof.
  unfold vars_union. induction s as [|v r IH]; simpl.
  - rewrite elem_of_nil. tauto.
  - rewrite elem_of_cons. split.
    + intros Hx. apply list_elem_of_In, vars_insert_elem in Hx.
      destruct Hx as [->|Hx]; [now left; left|].
      apply list_elem_of_In, IH in Hx. tauto.
    + intros Hx. apply list_elem_of_In, vars_insert_elem.
      destruct Hx as [[->|Hx]|Hx]; [now left| |];
        right; apply list_elem_of_In, IH; tauto.
Qed.

Lemma GetVariables_scan (e : Expression) (x : variable) :
  x ∈ GetVariables e <-> x ∈ scan e.
Proof.
  induction e as [c|v|c0 ts IH|c fs IH|b y IHb IHy|k args IH]
    using Expression_nested_ind; simpl.
  - reflexivity.
  - reflexivity.
  - induction IH as [|p r Hp Hr IHr]; simpl; [reflexivity|].
    rewrite vars_union_elem, elem_of_app, Hp, IHr. reflexivity.
  - induction IH as [|p r [Hp1 Hp2] Hr IHr]; simpl; [reflexivity|].
    rewrite !vars_union_elem, !elem_of_app, Hp1, Hp2, IHr. reflexivity.
  - rewrite vars_union_elem, elem_of_app, IHb, IHy. reflexivity.
  - induction IH as [|p r Hp Hr IHr]; simpl; [reflexivity|].
    rewrite vars_union_elem, elem_of_app, Hp, IHr. reflexivity.
Qed.

(** ** The variable indexer *)

(** C10.  [ExtractAndAppendVariablesFromExpression], in both of its
    overloads, called on a sequence and an index map of the same size,
    returns the sequence extended by the variables of the expression
    that the map did not hold, in increasing id order, and a map of
    the size of the new sequence.  Every entry of the old map is kept
    as it was, the [k]-th new variable is given the position
    [length vars + k], which is the length of the sequence when it is
    appended, and when every variable of the expression was already
    indexed the sequence and the map come back unchanged. *)
Theorem ExtractAndAppend_keeps_index (e : Expression) (vars : list variable)
    (m : gmap N nat) :
  size m = length vars ->
  exists (new : list variable) (m' : gmap N nat),
    ExtractAndAppendVariablesFromExpression e vars m = Ok (vars ++ new, m') /\
    ExtractAndAppendVariablesFromExpression_VectorX e vars m = Ok (vars ++ new, m') /\
    size m' = length (vars ++ new) /\
    (forall id i, m !! id = Some i -> m' !! id = Some i) /\
    new = filter (fun v => m !! get_id v = None) (GetVariables e) /\
    (forall k v, new !! k = Some v ->
       m' !! get_id v = Some (length vars + k)%nat) /\
    ((forall v, v ∈ GetVariables e -> is_Some (m !! get_id v)) ->
       new = [] /\ m' = m).
Proof.
  intros Hsize.
  destruct (ExtractAndAppend_fold (GetVariables e)
              (increasing_ids_NoDup _ (GetVariables_increasing e)) vars m Hsize)
    as (m' & Hfold & Hsz & Hold & Hnew & Hdom & Hnil).
  exists (filter (fun v => m !! get_id v = None) (GetVariables e)), m'.
  unfold ExtractAndAppendVariablesFromExpression,
    ExtractAndAppendVariablesFromExpression_VectorX.
  rewrite Hsize, Nat.eqb_refl. simpl.
  rewrite (fold_left_ext_eq _ _ _ _ VectorX_step_eq), Hfold.
  do 6 (split; [first [reflexivity | assumption]|]).
  intros Hall.
  assert (filter (fun v => m !! get_id v = None) (GetVariables e) = []) as Hempty.
  { apply elem_of_nil_inv. intros v Hv.
    apply list_elem_of_filter in Hv as [Hnone Hv].
    destruct (Hall v Hv) as [i Hi]. congruence. }
  split; [assumption|]. now apply Hnil.
Qed.

Lemma ExtractAndAppend_keeps_index_witness :
  let vars := [mkVariable 1] in
  let e := EAdd 0 [(EVar (mkVariable 3), 1%Q); (EVar (mkVariable 1), 1%Q)] in
  let m : gmap N nat := {[ 1%N := 0%nat ]} in
  size m = length vars /\
  exists (new : list variable) (m' : gmap N nat),
    ExtractAndAppendVariablesFromExpression e vars m = Ok (vars ++ new, m') /\
    ExtractAndAppendVariablesFromExpression_VectorX e vars m = Ok (vars ++ new, m') /\
    size m' = length (vars ++ new) /\
    (forall id i, m !! id = Some i -> m' !! id = Some i) /\
    new = filter (fun v => m !! get_id v = None) (GetVariables e) /\
    (forall k v, new !! k = Some v ->
       m' !! get_id v = Some (length vars + k)%nat) /\
    ((forall v, v ∈ GetVariables e -> is_Some (m !! get_id v)) ->
       new = [] /\ m' = m).
Proof.
  intros vars e m. split; [reflexivity|].
  apply (ExtractAndAppend_keeps_index e vars m). reflexivity.
Defined.

Lemma fold_left_concat {A B : Type} (f : B -> A -> B) (ls : list (list A)) (b : B) :
  fold_left (fun st l => fold_left f l st) ls b = fold_left f (concat ls) b.
Proof.
  revert b. induction ls as [|l ls IH]; intros b; simpl; [reflexivity|].
  now rewrite fold_left_app, IH.
Qed.

Lemma fold_left_map {A B C : Type} (f : C -> B -> C) (g : A -> B) (l : list A) (c : C) :
  fold_left (fun st a => f st (g a)) l c = fold_left f (map g l) c.
Proof.
  revert c. induction l as [|a l IH]; intros c; simpl; [reflexivity|]. apply IH.
Qed.

Lemma ExtractVariablesFromExpression_indexes (e : Expression) :
  exists m : gmap N nat,
    ExtractVariablesFromExpression e = (GetVariables e, m) /\
    index_of (GetVariables e) m /\ size m = length (GetVariables e).
Proof.
  pose proof (increasing_ids_NoDup _ (GetVariables_increasing e)) as Hnd.
  destruct (ExtractAndAppend_fold_index (GetVariables e) [] ∅ index_of_empty)
    as (m & Hfold & Hidx & Hsize); [reflexivity|].
  rewrite (first_occurrences_NoDup _ Hnd []) in Hfold, Hidx, Hsize
    by (intros v _; apply not_elem_of_nil).
  simpl in Hfold, Hidx, Hsize.
  exists m. unfold ExtractVariablesFromExpression.
  rewrite (ExtractVariables_step_fold _ Hnd [] ∅)
    by (intros v _; apply lookup_empty).
  rewrite Hfold. auto.
Qed.

(** C9, as amended.  For a single expression [e] the indexer returns
    the variables of [e] in increasing order of their ids, which is
    the order in which [GetVariables] hands them over: they are the
    variables a depth-first scan of [e] meets, but not in the order of
    the scan.  For a sequence of expressions it returns the variables
    in the order of their first occurrence in the concatenation of the
    sets [GetVariables e_i], each set in increasing id order.  In both
    cases the map sends the id of each variable to its position in the
    returned sequence, and holds nothing else. *)
Theorem ExtractVariables_in_id_order :
  (forall e : Expression,
     exists m : gmap N nat,
       ExtractVariablesFromExpression e = (GetVariables e, m) /\
       increasing_ids (GetVariables e) /\
       (forall v, v ∈ GetVariables e <-> v ∈ scan e) /\
       index_of (GetVariables e) m /\
       size m = length (GetVariables e)) /\
  (forall es : list Expression,
     exists m : gmap N nat,
       let vars := first_occurrences (concat (map GetVariables es)) in
       ExtractVariablesFromExpressions es = (vars, m) /\
       index_of vars m /\
       size m = length vars).
Proof.
  split.
  - intros e.
    destruct (ExtractVariablesFromExpression_indexes e) as (m & Hextract & Hidx & Hsize).
    exists m. split; [exact Hextract|].
    split; [apply GetVariables_increasing|].
    split; [intros v; apply GetVariables_scan|].
    split; assumption.
  - intros es.
    destruct (ExtractAndAppend_fold_index (concat (map GetVariables es)) [] ∅
                index_of_empty) as (m & Hfold & Hidx & Hsize); [reflexivity|].
    exists m. unfold ExtractVariablesFromExpressions. simpl.
    rewrite (fold_left_map (fun st l => fold_left ExtractVariables_push l st)
               GetVariables es).
    rewrite fold_left_concat.
    rewrite (fold_left_ext_eq _ _ _ _ push_step_eq).
    auto.
Qed.

(** The power [v2 ^ v1]: a depth-first scan meets [v2] first, the
    indexer returns [v1] first. *)
Lemma ExtractVariables_not_depth_first :
  ~ in_depth_first_order (EPow (EVar (mkVariable 2)) (EVar (mkVariable 1))).
Proof. unfold in_depth_first_order. vm_compute. discriminate. Qed.

(** ** A reference interpretation *)

Lemma reference_pow_one (x c : Q) : (c == 1)%Q -> (reference_pow x c == x)%Q.
Proof.
  intros Hc. unfold reference_pow.
  rewrite (Qred_complete c 1 Hc). reflexivity.
Qed.

(** A stand-in for the operators of [Operator], whose true values are
    not rational: the sum of the operands. *)
Definition reference_Interpretation : Interpretation :=
  {| pow_sem := reference_pow;
     op_sem := fun _ args => fold_right Qplus 0%Q args;
     pow_sem_one := reference_pow_one |}.

(** ** IsAffine *)

(** C7.  The matrix with the single entry [x + sin(y)], restricted to
    the variables [{x}], is classified as not affine, although as a
    function of [x] alone the entry is [1 * x + sin(y)]: the visitor
    asks whether the entry is a polynomial in all of its variables
    before it builds the polynomial over the restricting set, and a
    sine is not. *)
Theorem IsAffine_in_rejects_sine_of_other_variable `{Interpretation} `{PolynomialOps} :
  let x := mkVariable 1 in
  let y := mkVariable 2 in
  let e := EAdd 0 [(EVar x, 1%Q); (EOp Sin [EVar y], 1%Q)] in
  IsAffine_in [[e]] [x] = false /\
  forall env, (Evaluate env e == 1 * env x + op_sem Sin [env y])%Q.
Proof.
  split; [reflexivity|].
  intros env. simpl. ring.
Qed.

(** ** DecomposeLinearExpressions *)

Section Linear_facts.
Context `{PolynomialOps}.

Lemma mapM_FindCoefficientAndFill (p : Polynomial) (vars : list variable) :
  forall cs : list Q,
  length cs = length vars ->
  (forall j v c, vars !! j = Some v -> cs !! j = Some c ->
     find p [(v, 1%nat)] = if Qeq_bool c 0 then None else Some (EConstant c)) ->
  mapM (fun v => FindCoefficientAndFill p [(v, 1%nat)]) vars = Ok (read_back cs).
Proof.
  induction vars as [|v vars IH]; intros [|c cs] Hlen Hfind; simpl in *;
    try discriminate; [reflexivity|].
  assert (FindCoefficientAndFill p [(v, 1%nat)] =
          Ok (if Qeq_bool c 0 then 0%Q else c)) as ->.
  { unfold FindCoefficientAndFill.
    rewrite (Hfind 0%nat v c eq_refl eq_refl).
    destruct (Qeq_bool c 0); reflexivity. }
  rewrite (IH cs); [|lia|intros j w d Hw Hd; apply (Hfind (S j)); assumption].
  reflexivity.
Qed.

Lemma DecomposeLinearExpressions_row_affine (vars : list variable)
    (r : Expression * list Q * Q) :
  affine_row vars r ->
  DecomposeLinearExpressions_row vars r.1.1 =
    if Qeq_bool r.2 0 then Ok (read_back r.1.2)
    else Err (UnexpectedConstantTerm r.1.1).
Proof.
  intros (Hpoly & Hdeg & Hconst & Hlen & Hfind).
  unfold DecomposeLinearExpressions_row. rewrite Hpoly. simpl.
  destruct (Nat.ltb_spec 1 (TotalDegree (MakePolynomial r.1.1 (Some (make_variables vars)))));
    [lia|].
  rewrite Hconst. destruct (Qeq_bool r.2 0); simpl; [|reflexivity].
  now apply mapM_FindCoefficientAndFill.
Qed.

(** C6, as amended.  On inputs that are all affine,
    [e_i = sum_j c_ij * x_j + c_i0] with numeric coefficients,
    [DecomposeLinearExpressions] fails with [UnexpectedConstantTerm],
    naming the first row whose constant term [c_i0] is not zero, when
    there is such a row; otherwise it returns the matrix whose row [i]
    holds the exact coefficients [c_ij], with [0.0] where the monomial
    [x_j] is missing.  (A row that is not a polynomial, or of degree
    above one, is reported as such before its constant term is looked
    at.) *)
Theorem DecomposeLinearExpressions_affine (vars : list variable)
    (rows : list (Expression * list Q * Q)) :
  Forall (affine_row vars) rows ->
  DecomposeLinearExpressions (map (fun r => r.1.1) rows) vars
    (length rows) (length vars) =
  match List.find (fun r => negb (Qeq_bool r.2 0)) rows with
  | Some r => Err (UnexpectedConstantTerm r.1.1)
  | None => Ok (map (fun r => read_back r.1.2) rows)
  end.
Proof.
  intros Hrows. unfold DecomposeLinearExpressions.
  rewrite length_map, !Nat.eqb_refl. simpl.
  induction Hrows as [|r rows Hr Hrows IH]; simpl; [reflexivity|].
  rewrite (DecomposeLinearExpressions_row_affine vars r Hr).
  destruct (Qeq_bool r.2 0); simpl; [|reflexivity].
  rewrite IH. destruct (List.find _ rows); reflexivity.
Qed.

End Linear_facts.

(** The rows [2 x + 3 y] and [5 y] over [x, y]. *)
Lemma DecomposeLinearExpressions_affine_witness :
  let x := mkVariable 1 in
  let y := mkVariable 2 in
  let rows :=
    [(EAdd 0 [(EVar x, 2%Q); (EVar y, 3%Q)], [2%Q; 3%Q], 0%Q);
     (EAdd 0 [(EVar y, 5%Q)], [0%Q; 5%Q], 0%Q)] in
  Forall (@affine_row reference_PolynomialOps [x; y]) rows /\
  @DecomposeLinearExpressions reference_PolynomialOps
    (map (fun r => r.1.1) rows) [x; y] (length rows) (length [x; y]) =
  match List.find (fun r => negb (Qeq_bool r.2 0)) rows with
  | Some r => Err (UnexpectedConstantTerm r.1.1)
  | None => Ok (map (fun r => read_back r.1.2) rows)
  end.
Proof.
  intros x y rows.
  assert (Hrows : Forall (@affine_row reference_PolynomialOps [x; y]) rows).
  { repeat constructor; simpl;
      try (intros [|[|j]] v c Hv Hc; simpl in *; try discriminate;
           injection Hv as <-; injection Hc as <-; reflexivity). }
  split; [exact Hrows|].
  exact (@DecomposeLinearExpressions_affine reference_PolynomialOps [x; y] rows Hrows).
Defined.

(** The row [x * x + 1] over [{x}] carries the constant term [1], and
    is rejected for its degree. *)
Lemma DecomposeLinearExpressions_degree_first :
  let x := mkVariable 1 in
  ~ @constant_term_is_reported reference_PolynomialOps
      [EAdd 1 [(EPow (EVar x) (EConstant 2), 1%Q)]] [x].
Proof.
  intros x Hreported.
  destruct Hreported as [e He].
  - exists (EAdd 1 [(EPow (EVar x) (EConstant 2), 1%Q)]).
    split; [left|reflexivity].
  - vm_compute in He. discriminate.
Qed.

(** ** Vectors and matrices *)

Lemma dot_nil_r (u : list Q) : dot u [] = 0%Q.
Proof. destruct u; reflexivity. Qed.

Lemma dot_cons (a b : Q) (u v : list Q) :
  dot (a :: u) (b :: v) = (a * b + dot u v)%Q.
Proof. reflexivity. Qed.

Lemma dot_insert_l (u v : list Q) (i : nat) (a : Q) :
  (i < length u)%nat ->
  (dot (<[i := a]> u) v == dot u v + (a - vcoeff u i) * vcoeff v i)%Q.
Proof.
  revert v i. induction u as [|x u IH]; intros v i Hi; simpl in Hi; [lia|].
  destruct v as [|y v].
  - rewrite !dot_nil_r. unfold vcoeff. destruct i; simpl; ring.
  - destruct i as [|i]; simpl.
    + rewrite !dot_cons. unfold vcoeff. simpl. ring.
    + rewrite !dot_cons, IH by lia. unfold vcoeff. simpl. ring.
Qed.

Lemma dot_comm (u v : list Q) : (dot u v == dot v u)%Q.
Proof.
  revert v. induction u as [|x u IH]; intros [|y v]; try reflexivity.
  rewrite !dot_cons, IH. ring.
Qed.

Lemma dot_insert_r (u v : list Q) (i : nat) (a : Q) :
  (i < length v)%nat ->
  (dot u (<[i := a]> v) == dot u v + vcoeff u i * (a - vcoeff v i))%Q.
Proof.
  intros Hi. rewrite dot_comm, dot_insert_l, (dot_comm v u) by assumption. ring.
Qed.

Lemma mat_vec_insert (M : list (list Q)) (x row : list Q) (i : nat) :
  mat_vec (<[i := row]> M) x = <[i := dot row x]> (mat_vec M x).
Proof. unfold mat_vec. apply (list_fmap_insert (fun r => dot r x)). Qed.

Lemma vcoeff_mat_vec (M : list (list Q)) (x : list Q) (i : nat) :
  (i < length M)%nat -> vcoeff (mat_vec M x) i = dot (nth i M []) x.
Proof.
  intros Hi. unfold vcoeff, mat_vec.
  change 0%Q with ((fun row => dot row x) []) at 1.
  rewrite map_nth. reflexivity.
Qed.

Lemma bilinear_set_coeff (M : list (list Q)) (x : list Q) (i j : nat) (a : Q) :
  (i < length M)%nat -> (j < length (nth i M []))%nat ->
  (bilinear (set_coeff M i j a) x ==
   bilinear M x + (a - coeff M i j) * vcoeff x i * vcoeff x j)%Q.
Proof.
  intros Hi Hj. unfold bilinear, set_coeff, coeff.
  rewrite mat_vec_insert.
  rewrite dot_insert_r by (unfold mat_vec; rewrite length_map; assumption).
  rewrite vcoeff_mat_vec by assumption.
  rewrite dot_insert_l by assumption. ring.
Qed.

Lemma nth_insert {A : Type} (l : list A) (i i' : nat) (a d : A) :
  (i < length l)%nat ->
  nth i' (<[i := a]> l) d = if decide (i = i') then a else nth i' l d.
Proof.
  intros Hi. rewrite !nth_lookup.
  destruct (decide (i = i')) as [<-|Hne].
  - now rewrite list_lookup_insert_eq.
  - now rewrite list_lookup_insert_ne.
Qed.

Lemma coeff_set_coeff (M : list (list Q)) (i j i' j' : nat) (a : Q) :
  (i < length M)%nat -> (j < length (nth i M []))%nat ->
  coeff (set_coeff M i j a) i' j' =
    if decide (i = i' /\ j = j') then a else coeff M i' j'.
Proof.
  intros Hi Hj. unfold coeff, set_coeff, vcoeff.
  rewrite (nth_insert M) by assumption.
  destruct (decide (i = i')) as [<-|Hne].
  - rewrite nth_insert by assumption.
    destruct (decide (j = j')) as [<-|Hnej].
    + now rewrite decide_True by auto.
    + now rewrite decide_False by tauto.
  - now rewrite decide_False by tauto.
Qed.

(** ** DecomposeQuadraticPolynomial in exact arithmetic *)

Lemma square_row (n : nat) (M : list (list Q)) (i : nat) :
  square n M -> (i < n)%nat -> length (nth i M []) = n.
Proof.
  intros [Hlen Hrows] Hi. rewrite Forall_forall in Hrows. apply Hrows.
  apply list_elem_of_In, nth_In. lia.
Qed.

Lemma square_set_coeff (n : nat) (M : list (list Q)) (i j : nat) (a : Q) :
  square n M -> square n (set_coeff M i j a).
Proof.
  intros [Hlen Hrows]. unfold set_coeff. split.
  - now rewrite length_insert.
  - destruct (decide (i < length M)%nat) as [Hi|Hi].
    + apply Forall_insert; [assumption|]. rewrite length_insert.
      apply (square_row n M i); [split; assumption|lia].
    + rewrite list_insert_ge by lia. assumption.
Qed.

Lemma Zero_matrix_square (n : nat) : square n (Zero_matrix n n).
Proof.
  unfold Zero_matrix, Zero_vector. split.
  - apply repeat_length.
  - apply Forall_forall. intros row Hrow.
    apply list_elem_of_In, repeat_spec in Hrow. subst. apply repeat_length.
Qed.

Lemma Zero_matrix_symmetric (n : nat) : symmetric (Zero_matrix n n).
Proof.
  assert (Hz : forall i j, coeff (Zero_matrix n n) i j = 0%Q).
  { intros i j. unfold coeff, vcoeff, Zero_matrix, Zero_vector.
    destruct (nth_in_or_default i (repeat (repeat 0%Q n) n) []) as [Hin | ->].
    - apply repeat_spec in Hin. rewrite Hin.
      destruct (nth_in_or_default j (repeat 0%Q n) 0%Q) as [Hin' | ->]; [|reflexivity].
      now apply repeat_spec in Hin'.
    - now destruct j. }
  intros i j. now rewrite !Hz.
Qed.

Lemma index_of_elem (vars : list variable) (m : gmap N nat) (v : variable) :
  index_of vars m -> v ∈ vars ->
  exists i, m !! get_id v = Some i /\ vars !! i = Some v /\ (i < length vars)%nat.
Proof.
  intros Hidx Hv. apply list_elem_of_lookup in Hv as [i Hi].
  exists i. split; [apply Hidx; eauto|]. split; [assumption|].
  now apply lookup_lt_Some in Hi.
Qed.

Lemma vcoeff_map_env (env : variable -> Q) (vars : list variable) (i : nat) (v : variable) :
  vars !! i = Some v -> vcoeff (map env vars) i = env v.
Proof.
  intros Hi. unfold vcoeff. rewrite nth_lookup, list_lookup_fmap, Hi. reflexivity.
Qed.

Section Quadratic_facts.
Context `{Interpretation}.
Variables (vars : list variable) (m : gmap N nat).
Hypothesis Hidx : index_of vars m.

Lemma at_index_elem (v : variable) :
  v ∈ vars ->
  exists i, at_index m v = Ok i /\ vars !! i = Some v /\ (i < length vars)%nat.
Proof.
  intros Hv. destruct (index_of_elem vars m v Hidx Hv) as (i & Hm & Hi & Hlt).
  exists i. unfold at_index. rewrite Hm. auto.
Qed.

Lemma DecomposeQuadraticPolynomial_step_in_Q_correct
    (st : list (list Q) * list Q * Q) (t : Monomial * Expression) :
  quad_state vars st -> term_ok vars t -> (total_degree t.1 <= 2)%nat ->
  exists st',
    DecomposeQuadraticPolynomial_step_in_Q m (length vars) st t = Ok st' /\
    quad_state vars st' /\
    forall env,
      (quadratic_value st'.1.1 st'.1.2 st'.2 (map env vars) ==
       quadratic_value st.1.1 st.1.2 st.2 (map env vars) +
       Evaluate env t.2 * Monomial_value env t.1)%Q.
Proof.
  destruct st as [[M b] c], t as [mono ce].
  intros (Hsq & Hb & Hsym) (Hconst & Hnz & [Hinc Hpos] & Hin) Hdeg. simpl in *.
  destruct ce as [k| | | | |]; try discriminate.
  unfold DecomposeQuadraticPolynomial_step_in_Q. cbn [fst snd is_constant demand mbind result_bind].
  rewrite Hnz. cbn [negb demand mbind result_bind get_constant_value].
  destruct (Nat.ltb_spec 2 (total_degree mono)); [lia|].
  destruct mono as [|[v1 k1] [|[v2 k2] [|p3 rest]]].
  - (* constant term *)
    eexists. split; [reflexivity|]. split; [exact (conj Hsq (conj Hb Hsym))|].
    intros env. unfold quadratic_value. simpl. ring.
  - (* one variable *)
    inversion Hpos as [|? ? Hk1 _]; subst. inversion Hin as [|? ? Hv1 _]; subst.
    simpl in Hk1, Hv1, Hdeg.
    destruct (at_index_elem v1 Hv1) as (i & Hat & Hi & Hlt).
    rewrite Hat.
    assert (k1 = 1 \/ k1 = 2)%nat as [-> | ->] by lia.
    + cbn. unfold in_range. destruct (Nat.ltb_spec i (length vars)); [|lia]. cbn.
      eexists. split; [reflexivity|]. split.
      * split; [assumption|]. split; [|assumption].
        simpl. now rewrite length_insert.
      * intros env. unfold quadratic_value. simpl.
        rewrite dot_insert_l by lia.
        rewrite (vcoeff_map_env env vars i v1 Hi). ring.
    + cbn. unfold in_range. destruct (Nat.ltb_spec i (length vars)); [|lia]. cbn.
      pose proof (square_row _ M i Hsq Hlt) as Hrow.
      destruct Hsq as [HlenM Hrows].
      eexists. split; [reflexivity|]. split.
      * split; [now apply square_set_coeff|]. split; [assumption|].
        intros a a'. simpl. rewrite !coeff_set_coeff by lia.
        repeat case_decide; try reflexivity; try apply Hsym; lia.
      * intros env. unfold quadratic_value. simpl.
        rewrite bilinear_set_coeff by lia.
        rewrite (vcoeff_map_env env vars i v1 Hi). ring.
  - (* two variables *)
    inversion Hpos as [|? ? Hk1 Hpos']; subst. inversion Hpos' as [|? ? Hk2 _]; subst.
    inversion Hin as [|? ? Hv1 Hin']; subst. inversion Hin' as [|? ? Hv2 _]; subst.
    simpl in Hk1, Hk2, Hv1, Hv2, Hdeg.
    assert (k1 = 1)%nat as -> by lia. assert (k2 = 1)%nat as -> by lia.
    destruct (at_index_elem v1 Hv1) as (i1 & Hat1 & Hi1 & Hlt1).
    destruct (at_index_elem v2 Hv2) as (i2 & Hat2 & Hi2 & Hlt2).
    assert (i1 <> i2) as Hne.
    { intros ->. assert (v1 = v2) by congruence. subst.
      simpl in Hinc. inversion Hinc as [|? ? _ Hlt]; subst.
      inversion Hlt; subst. lia. }
    rewrite Hat1. cbn. rewrite Hat2. cbn.
    unfold in_range. destruct (Nat.ltb_spec i1 (length vars)); [|lia].
    destruct (Nat.ltb_spec i2 (length vars)); [|lia]. cbn.
    pose proof (square_row _ M i1 Hsq Hlt1) as Hrow1.
    pose proof (square_set_coeff _ M i1 i2 (coeff M i1 i2 + k)%Q Hsq) as Hsq1.
    pose proof (square_row _ _ i2 Hsq1 Hlt2) as Hrow2.
    destruct Hsq as [HlenM Hrows]. destruct Hsq1 as [HlenM1 Hrows1].
    eexists. split; [reflexivity|]. split.
    + split; [apply square_set_coeff; split; assumption|]. split; [assumption|].
      intros a a'. simpl. rewrite !coeff_set_coeff by lia.
      repeat case_decide; try reflexivity; try apply Hsym; lia.
    + intros env. unfold quadratic_value. simpl.
      rewrite bilinear_set_coeff by lia.
      rewrite bilinear_set_coeff by lia.
      rewrite !coeff_set_coeff by lia.
      rewrite (decide_True (P := i1 = i1 /\ i2 = i2)) by tauto.
      rewrite (decide_False (P := i1 = i2 /\ i2 = i1)) by tauto.
      rewrite (Hsym i2 i1).
      rewrite (vcoeff_map_env env vars i1 v1 Hi1), (vcoeff_map_env env vars i2 v2 Hi2).
      ring.
  - (* three variables or more *)
    inversion Hpos as [|? ? Hk1 Hpos']; subst. inversion Hpos' as [|? ? Hk2 Hpos'']; subst.
    inversion Hpos'' as [|? ? Hk3 _]; subst.
    simpl in Hk1, Hk2, Hk3, Hdeg. lia.
Qed.

Lemma DecomposeQuadraticPolynomial_in_Q_fold (poly : Polynomial) :
  Forall (term_ok vars) poly -> (TotalDegree poly <= 2)%nat ->
  forall st, quad_state vars st ->
  exists st',
    foldM (DecomposeQuadraticPolynomial_step_in_Q m (length vars)) poly st = Ok st' /\
    quad_state vars st' /\
    forall env,
      (quadratic_value st'.1.1 st'.1.2 st'.2 (map env vars) ==
       quadratic_value st.1.1 st.1.2 st.2 (map env vars) +
       Polynomial_value env poly)%Q.
Proof.
  induction 1 as [|t poly Ht Hpoly IH]; intros Hdeg st Hst; simpl in *.
  - exists st. split; [reflexivity|]. split; [assumption|]. intros env. ring.
  - destruct (DecomposeQuadraticPolynomial_step_in_Q_correct st t Hst Ht)
      as (st1 & Hstep & Hst1 & Hval1); [lia|].
    destruct (IH ltac:(lia) st1 Hst1) as (st2 & Hfold & Hst2 & Hval2).
    exists st2. rewrite Hstep. simpl. split; [assumption|]. split; [assumption|].
    intros env. rewrite Hval2, Hval1. ring.
Qed.
End Quadratic_facts.

Lemma dot_zero_l (n : nat) (x : list Q) : (dot (Zero_vector n) x == 0)%Q.
Proof.
  revert x. induction n as [|n IH]; intros [|a x]; try reflexivity.
  change (Zero_vector (S n)) with (0%Q :: Zero_vector n).
  rewrite dot_cons, IH. ring.
Qed.

Lemma dot_mat_vec_zero (n k : nat) (y z : list Q) :
  (dot y (mat_vec (repeat (Zero_vector n) k) z) == 0)%Q.
Proof.
  revert y. induction k as [|k IH]; intros [|b y]; try reflexivity.
  change (mat_vec (repeat (Zero_vector n) (S k)) z)
    with (dot (Zero_vector n) z :: mat_vec (repeat (Zero_vector n) k) z).
  rewrite dot_cons, dot_zero_l, IH. ring.
Qed.

Lemma bilinear_zero (n k : nat) (x : list Q) : (bilinear (Zero_matrix k n) x == 0)%Q.
Proof. apply dot_mat_vec_zero. Qed.

(** In exact arithmetic the loop returns a symmetric matrix [Q], a
    vector [b] and a number [c] with [0.5 * x' Q x + b' x + c] equal
    to the value of the polynomial. *)
Lemma DecomposeQuadraticPolynomial_in_Q_correct `{Interpretation}
    (poly : Polynomial) (vars : list variable) (m : gmap N nat) :
  index_of vars m -> size m = length vars ->
  Forall (term_ok vars) poly -> (TotalDegree poly <= 2)%nat ->
  exists (M : list (list Q)) (b : list Q) (c : Q),
    DecomposeQuadraticPolynomial_in_Q poly m (length vars) (length vars) (length vars)
      = Ok (M, b, c) /\
    square (length vars) M /\ length b = length vars /\ symmetric M /\
    forall env,
      (quadratic_value M b c (map env vars) == Polynomial_value env poly)%Q.
Proof.
  intros Hidx Hsize Hpoly Hdeg.
  destruct (DecomposeQuadraticPolynomial_in_Q_fold vars m Hidx poly Hpoly Hdeg
              (Zero_matrix (length vars) (length vars), Zero_vector (length vars), 0%Q))
    as ([[M b] c] & Hfold & (Hsq & Hb & Hsym) & Hval).
  { split; [apply Zero_matrix_square|]. split; [apply repeat_length|].
    apply Zero_matrix_symmetric. }
  exists M, b, c. unfold DecomposeQuadraticPolynomial_in_Q.
  rewrite Hsize, Nat.eqb_refl. simpl. rewrite Hfold.
  split; [reflexivity|]. repeat (split; [assumption|]).
  intros env. rewrite (Hval env). unfold quadratic_value. simpl.
  rewrite bilinear_zero, dot_zero_l. ring.
Qed.

(** ** A reference algebra *)

Lemma Q_parts_inj (c d : Q) : Qnum c = Qnum d -> Qden c = Qden d -> c = d.
Proof. destruct c, d. simpl. congruence. Qed.

Lemma Operator_index_inj (k k' : Operator) :
  Operator_index k = Operator_index k' -> k = k'.
Proof. destruct k, k'; simpl; intros Hk; try reflexivity; discriminate. Qed.

Lemma to_tree_inj (a b : Expression) : to_tree a = to_tree b -> a = b.
Proof.
  revert b.
  induction a as [c|v|c0 ts IH|c fs IH|a1 a2 IH1 IH2|k args IH]
    using Expression_nested_ind; intros b Hab; destruct b; simpl in Hab;
    try discriminate.
  - injection Hab as Hn Hd. f_equal. now apply Q_parts_inj.
  - injection Hab as Hid. f_equal. now apply get_id_inj.
  - injection Hab as Hn Hd Hts. f_equal; [now apply Q_parts_inj|].
    revert terms Hts. induction IH as [|[t q] ts Ht Hts' IHts]; intros [|[t' q'] ts'] Heq;
      simpl in Heq; try discriminate; [reflexivity|].
    injection Heq as Ht' Hqn Hqd Hrest.
    simpl in Ht. apply Ht in Ht'. rewrite (Q_parts_inj q q' Hqn Hqd). subst.
    f_equal. now apply IHts.
  - injection Hab as Hn Hd Hfs. f_equal; [now apply Q_parts_inj|].
    revert factors Hfs.
    induction IH as [|[t q] fs [Ht Hq] Hfs' IHfs]; intros [|[t' q'] fs'] Heq;
      simpl in Heq; try discriminate; [reflexivity|].
    injection Heq as Ht' Hq' Hrest.
    simpl in Ht, Hq. apply Ht in Ht'. apply Hq in Hq'. subst. f_equal. now apply IHfs.
  - injection Hab as H1 H2. f_equal; auto.
  - injection Hab as Hk Hargs. apply Operator_index_inj in Hk. subst. f_equal.
    revert args0 Hargs. induction IH as [|t ts Ht Hts' IHts]; intros [|t' ts'] Heq;
      simpl in Heq; try discriminate; [reflexivity|].
    injection Heq as Ht' Hrest. apply Ht in Ht'. subst. f_equal. now apply IHts.
Qed.

Lemma is_zero_Evaluate `{Interpretation} (env : variable -> Q) (a : Expression) :
  is_zero a = true -> (Evaluate env a == 0)%Q.
Proof. destruct a; simpl; try discriminate. apply Qeq_bool_eq. Qed.

Lemma is_one_Evaluate `{Interpretation} (env : variable -> Q) (a : Expression) :
  is_one a = true -> (Evaluate env a == 1)%Q.
Proof. destruct a; simpl; try discriminate. apply Qeq_bool_eq. Qed.

Lemma Evaluate_reference_eadd `{Interpretation} (env : variable -> Q) (a b : Expression) :
  (Evaluate env (reference_eadd a b) == Evaluate env a + Evaluate env b)%Q.
Proof.
  unfold reference_eadd.
  destruct (is_zero a) eqn:Ha; [rewrite (is_zero_Evaluate env a Ha); ring|].
  destruct (is_zero b) eqn:Hb; [rewrite (is_zero_Evaluate env b Hb); ring|].
  destruct a, b; simpl; ring.
Qed.

Lemma Evaluate_reference_emul `{Interpretation} (env : variable -> Q) (a b : Expression) :
  (Evaluate env (reference_emul a b) == Evaluate env a * Evaluate env b)%Q.
Proof.
  unfold reference_emul.
  destruct (is_one a) eqn:Ha; [rewrite (is_one_Evaluate env a Ha); ring|].
  destruct (is_one b) eqn:Hb; [rewrite (is_one_Evaluate env b Hb); ring|].
  destruct (is_zero a) eqn:Za; [rewrite (is_zero_Evaluate env a Za); simpl; ring|].
  destruct (is_zero b) eqn:Zb; [rewrite (is_zero_Evaluate env b Zb); simpl; ring|].
  assert (Hmul : (Evaluate env (EMul 1 [(a, EConstant 1); (b, EConstant 1)])
                  == Evaluate env a * Evaluate env b)%Q).
  { simpl. rewrite !pow_sem_one by reflexivity. ring. }
  destruct a, b; simpl orb; cbv iota; try exact Hmul; simpl; ring.
Qed.

(** The reference algebra: units are simplified, constants folded, and
    any other sum or product is built as it stands; [Expand] leaves its
    argument as it is. *)
Definition reference_Algebra : @Algebra reference_Interpretation.
Proof.
  refine {| eadd := reference_eadd;
            emul := reference_emul;
            Expand := fun e => e;
            Less := reference_Less |}.
  - apply Evaluate_reference_eadd.
  - apply Evaluate_reference_emul.
  - reflexivity.
  - intros a. apply Pos.ltb_irrefl.
  - intros a b c Hab Hbc. unfold reference_Less in *.
    apply Pos.ltb_lt in Hab, Hbc. apply Pos.ltb_lt. lia.
  - intros a b Hab Hba. unfold reference_Less in *.
    apply Pos.ltb_ge in Hab, Hba. apply to_tree_inj. apply (inj encode). lia.
Defined.

Lemma is_zero_not_one (a : Expression) : is_zero a = true -> is_one a = false.
Proof.
  destruct a; simpl; try discriminate. intros Hz. apply Qeq_bool_eq in Hz.
  apply not_true_is_false. intros Ho. apply Qeq_bool_eq in Ho.
  rewrite Hz in Ho. discriminate.
Qed.

Definition reference_UnitSimplification :
  @UnitSimplification reference_Interpretation reference_Algebra.
Proof.
  constructor; simpl; unfold reference_eadd, reference_emul; intros a b.
  - now intros ->.
  - now intros -> ->.
  - now intros ->.
  - now intros -> ->.
  - intros Ha Hb. rewrite (is_zero_not_one a Ha), Hb, Ha. reflexivity.
  - intros Ha Hb. rewrite Ha, (is_zero_not_one b Hb), Hb, orb_true_r. reflexivity.
Defined.

(** ** The lumped-parameter factoriser keeps values *)

Section Lumped_values.
Context `{Algebra}.

Lemma weighted_sum_cons env (w a : Expression) (W alpha : list Expression) :
  weighted_sum env (w :: W) (a :: alpha) =
    (Evaluate env w * Evaluate env a + weighted_sum env W alpha)%Q.
Proof. reflexivity. Qed.

Lemma weighted_sum_nil_l env (alpha : list Expression) : weighted_sum env [] alpha = 0%Q.
Proof. reflexivity. Qed.

Lemma weighted_sum_nil_r env (W : list Expression) : weighted_sum env W [] = 0%Q.
Proof. unfold weighted_sum. simpl. apply dot_nil_r. Qed.

Lemma weighted_sum_fst_snd env (m : list (Expression * Expression)) :
  (weighted_sum env (map fst m) (map snd m) == map_value env m)%Q.
Proof.
  induction m as [|[k v] m IH]; [reflexivity|].
  cbn [map fst snd map_value fold_right].
  rewrite weighted_sum_cons, IH. reflexivity.
Qed.

Lemma map_value_combine env (W alpha : list Expression) :
  (map_value env (combine W alpha) == weighted_sum env W alpha)%Q.
Proof.
  revert alpha. induction W as [|w W IH]; intros [|a alpha]; try reflexivity.
  cbn [combine map_value fold_right fst snd].
  rewrite weighted_sum_cons. fold (map_value env (combine W alpha)).
  rewrite IH. reflexivity.
Qed.

Lemma weighted_sum_app env (W1 W2 alpha1 alpha2 : list Expression) :
  length W1 = length alpha1 ->
  (weighted_sum env (W1 ++ W2) (alpha1 ++ alpha2) ==
   weighted_sum env W1 alpha1 + weighted_sum env W2 alpha2)%Q.
Proof.
  revert alpha1. induction W1 as [|w W1 IH]; intros [|a alpha1] Hlen;
    simpl in Hlen; try discriminate.
  - cbn [app]. rewrite weighted_sum_nil_l. ring.
  - cbn [app]. rewrite !weighted_sum_cons, IH by lia. ring.
Qed.

Lemma emplace_then_value env (k a : Expression) (m : list (Expression * Expression)) :
  (map_value env (emplace_then Less k (EConstant 0) (fun second => eadd second a) m)
   == map_value env m + Evaluate env k * Evaluate env a)%Q.
Proof.
  induction m as [|[k' v'] r IH]; cbn [emplace_then map_value fold_right fst snd].
  - rewrite Evaluate_eadd. cbn [Evaluate]. ring.
  - destruct (Less k k') eqn:Hlt; cbn [map_value fold_right fst snd].
    + rewrite Evaluate_eadd. cbn [Evaluate]. ring.
    + destruct (Less k' k) eqn:Hgt; cbn [map_value fold_right fst snd].
      * fold (map_value env (emplace_then Less k (EConstant 0)
                               (fun second => eadd second a) r)).
        rewrite IH. fold (map_value env r). ring.
      * rewrite (Less_total k k' Hlt Hgt), Evaluate_eadd.
        fold (map_value env r). ring.
Qed.

Lemma VisitAddition_merge_value env (c : Q) (l m : list (Expression * Expression)) :
  (map_value env
     (fold_left
        (fun w_map wa =>
           emplace_then Less (emul (EConstant c) wa.1) (EConstant 0)
             (fun second => eadd second wa.2) w_map) l m)
   == map_value env m + c * map_value env l)%Q.
Proof.
  revert m. induction l as [|[w a] l IH]; intros m; cbn [fold_left fst snd].
  - cbn [map_value fold_right]. ring.
  - rewrite IH, emplace_then_value, Evaluate_emul.
    cbn [map_value fold_right fst snd Evaluate]. fold (map_value env l). ring.
Qed.

Lemma weighted_sum_scaled env (y b : Expression) (W alpha : list Expression) :
  (weighted_sum env (map (fun x => emul x y) W) (map (fun x => emul x b) alpha) ==
   Evaluate env y * Evaluate env b * weighted_sum env W alpha)%Q.
Proof.
  revert alpha. induction W as [|w W IH]; intros [|a alpha]; cbn [map].
  - rewrite !weighted_sum_nil_l. ring.
  - rewrite !weighted_sum_nil_l. ring.
  - rewrite !weighted_sum_nil_r. ring.
  - rewrite !weighted_sum_cons, IH, !Evaluate_emul. ring.
Qed.

Lemma weighted_sum_outer env (Wa alpha_a Wb alpha_b : list Expression) :
  length Wa = length alpha_a -> length Wb = length alpha_b ->
  (weighted_sum env (outer_product emul Wa Wb) (outer_product emul alpha_a alpha_b) ==
   weighted_sum env Wa alpha_a * weighted_sum env Wb alpha_b)%Q.
Proof.
  intros Ha. revert alpha_b.
  induction Wb as [|y Wb IH]; intros [|b alpha_b] Hb; simpl in Hb; try discriminate.
  - cbn [outer_product flat_map]. rewrite !weighted_sum_nil_l. ring.
  - unfold outer_product in *. cbn [flat_map].
    rewrite weighted_sum_app by (rewrite !length_map; assumption).
    rewrite IH by lia. rewrite weighted_sum_scaled, weighted_sum_cons. ring.
Qed.

Lemma weighted_sum_scale_l env (w0 : Expression) (W alpha : list Expression) :
  (weighted_sum env (map (emul w0) W) alpha ==
   Evaluate env w0 * weighted_sum env W alpha)%Q.
Proof.
  revert alpha. induction W as [|w W IH]; intros [|a alpha]; cbn [map].
  - rewrite !weighted_sum_nil_l. ring.
  - rewrite !weighted_sum_nil_l. ring.
  - rewrite !weighted_sum_nil_r. ring.
  - rewrite !weighted_sum_cons, IH, Evaluate_emul. ring.
Qed.

Lemma length_outer_product (f : Expression -> Expression -> Expression)
    (u u' v v' : list Expression) :
  length u = length u' -> length v = length v' ->
  length (outer_product f u v) = length (outer_product f u' v').
Proof.
  intros Hu. revert v'. unfold outer_product.
  induction v as [|y v IH]; intros [|y' v'] Hv; simpl in *; try discriminate;
    [reflexivity|].
  rewrite !length_app, !length_map, (IH v') by lia. lia.
Qed.

Lemma SimpleMultiplication_paired (a b : LumpedFactorization) :
  paired a -> paired b -> paired (SimpleMultiplication a b).
Proof.
  destruct a as [[Wa alpha_a] w0a], b as [[Wb alpha_b] w0b].
  unfold paired. simpl. intros Ha Hb.
  rewrite !length_app, (length_outer_product emul Wa alpha_a Wb alpha_b) by assumption.
  destruct (is_zero w0a), (is_zero w0b); simpl; rewrite ?length_map; lia.
Qed.

Lemma SimpleMultiplication_value env (a b : LumpedFactorization) :
  paired a -> paired b ->
  (factorization_value env (SimpleMultiplication a b) ==
   factorization_value env a * factorization_value env b)%Q.
Proof.
  destruct a as [[Wa alpha_a] w0a], b as [[Wb alpha_b] w0b].
  unfold paired, factorization_value. cbn [SimpleMultiplication fst snd]. intros Ha Hb.
  rewrite weighted_sum_app
    by (apply (length_outer_product emul Wa alpha_a Wb alpha_b); assumption).
  rewrite weighted_sum_outer, Evaluate_emul by assumption.
  destruct (is_zero w0a) eqn:Za, (is_zero w0b) eqn:Zb; cbn [negb app].
  - rewrite (is_zero_Evaluate env w0a Za), (is_zero_Evaluate env w0b Zb).
    rewrite weighted_sum_nil_l. ring.
  - rewrite (is_zero_Evaluate env w0a Za), weighted_sum_scale_l.
    ring.
  - rewrite !app_nil_r.
    rewrite (is_zero_Evaluate env w0b Zb), weighted_sum_scale_l. ring.
  - rewrite weighted_sum_app by (rewrite length_map; assumption).
    rewrite !weighted_sum_scale_l. ring.
Qed.
End Lumped_values.

(** ** The visitor keeps values *)

Section Visit_values.
Context `{Algebra}.

Lemma factorizes_parameter_term (e : Expression) :
  factorizes e ([EConstant 1], [e], EConstant 0).
Proof.
  split; [reflexivity|]. intros env. unfold factorization_value.
  cbn [fst snd]. rewrite weighted_sum_cons, weighted_sum_nil_l.
  cbn [Evaluate]. ring.
Qed.

Lemma factorizes_state_term (e : Expression) : factorizes e ([], [], e).
Proof.
  split; [reflexivity|]. intros env. unfold factorization_value.
  cbn [fst snd]. rewrite weighted_sum_nil_l. ring.
Qed.

Lemma VisitPow_factorizes (e : Expression) (parameters : variables)
    (f : LumpedFactorization) :
  VisitPow e parameters = Ok f -> factorizes e f.
Proof.
  unfold VisitPow.
  destruct (IsSubsetOf (GetVariables e) parameters);
    [intros [= <-]; apply factorizes_parameter_term|].
  destruct (vars_empty (intersect (GetVariables e) parameters));
    [intros [= <-]; apply factorizes_state_term|].
  destruct (is_constant (get_second_argument e)); discriminate.
Qed.

Lemma VisitNonPolynomialTerm_factorizes (e : Expression) (parameters : variables)
    (f : LumpedFactorization) :
  VisitNonPolynomialTerm e parameters = Ok f -> factorizes e f.
Proof.
  unfold VisitNonPolynomialTerm.
  destruct (IsSubsetOf (GetVariables e) parameters);
    [intros [= <-]; apply factorizes_parameter_term|].
  destruct (vars_empty (intersect (GetVariables e) parameters));
    [intros [= <-]; apply factorizes_state_term|].
  discriminate.
Qed.

Lemma VisitAddition_step_unfold (Visit : Expression -> result LumpedFactorization)
    (w_map : list (Expression * Expression)) (w0 e_i : Expression) (c_i : Q) :
  VisitAddition_step Visit (w_map, w0) (e_i, c_i) =
    match Visit e_i with
    | Ok f =>
        Ok (fold_left
              (fun w_map wa =>
                 emplace_then Less (emul (EConstant c_i) wa.1) (EConstant 0)
                   (fun second => eadd second wa.2) w_map)
              (combine f.1.1 f.1.2) w_map,
            eadd w0 (emul (EConstant c_i) f.2))
    | Err err => Err err
    end.
Proof. unfold VisitAddition_step. now destruct (Visit e_i) as [[[? ?] ?]|]. Qed.

Lemma VisitAddition_fold_value (Visit : Expression -> result LumpedFactorization)
    (ts : list (Expression * Q)) :
  Forall (fun p => forall f, Visit (fst p) = Ok f -> factorizes (fst p) f) ts ->
  forall st st',
    foldM (VisitAddition_step Visit) ts st = Ok st' ->
    forall env,
      (map_value env st'.1 + Evaluate env st'.2 ==
       map_value env st.1 + Evaluate env st.2 + terms_value env ts)%Q.
Proof.
  induction 1 as [|[e_i c_i] ts He Hts IH]; intros [w_map w0] st' Hfold env.
  - cbn [foldM] in Hfold. simplify_eq. cbn [terms_value fold_right]. ring.
  - cbn [foldM] in Hfold. rewrite VisitAddition_step_unfold in Hfold.
    simpl in He. revert Hfold.
    destruct (Visit e_i) as [[[w_i alpha_i] w0_i]|err] eqn:Hvisit;
      simpl; intros Hfold; [|discriminate].
    destruct (He _ eq_refl) as [Hpaired Hvalue].
    rewrite (IH _ _ Hfold env). cbn [fst snd terms_value fold_right].
    fold (terms_value env ts).
    rewrite VisitAddition_merge_value, map_value_combine, Evaluate_eadd, Evaluate_emul.
    rewrite <- (Hvalue env). unfold factorization_value. cbn [fst snd Evaluate]. ring.
Qed.

Lemma VisitMultiplication_step_unfold (Visit : Expression -> result LumpedFactorization)
    (parameters : variables) (f : LumpedFactorization) (p : Expression * Expression) :
  VisitMultiplication_step Visit parameters f p =
    match visit_factor Visit parameters p with
    | Ok t => Ok (SimpleMultiplication f t)
    | Err err => Err err
    end.
Proof.
  destruct p as [b x]. unfold VisitMultiplication_step, visit_factor. cbn [fst snd].
  now destruct (if is_one x then Visit b else VisitPow (pow b x) parameters).
Qed.

Lemma VisitMultiplication_fold_value (Visit : Expression -> result LumpedFactorization)
    (parameters : variables) (fs : list (Expression * Expression)) :
  Forall (fun p => forall f, Visit (fst p) = Ok f -> factorizes (fst p) f) fs ->
  forall f f',
    foldM (VisitMultiplication_step Visit parameters) fs f = Ok f' ->
    paired f ->
    paired f' /\
    forall env,
      (factorization_value env f' == factorization_value env f * factors_value env fs)%Q.
Proof.
  induction 1 as [|[base_i exponent_i] fs Hb Hfs IH]; intros f f' Hfold Hpaired.
  - cbn [foldM] in Hfold. simplify_eq. split; [assumption|]. intros env.
    cbn [factors_value fold_right]. ring.
  - cbn [foldM] in Hfold. rewrite VisitMultiplication_step_unfold in Hfold.
    assert (Hterm : forall t,
              visit_factor Visit parameters (base_i, exponent_i) = Ok t ->
              paired t /\
              forall env, (factorization_value env t ==
                           pow_sem (Evaluate env base_i) (Evaluate env exponent_i))%Q).
    { unfold visit_factor. cbn [fst snd].
      intros t Ht. destruct (is_one exponent_i) eqn:Hone.
      - destruct (Hb t Ht) as [Hp Hv]. split; [assumption|]. intros env.
        rewrite (Hv env). cbn [fst]. symmetry. apply pow_sem_one.
        now apply is_one_Evaluate.
      - destruct (VisitPow_factorizes _ _ _ Ht) as [Hp Hv]. split; [assumption|].
        intros env. rewrite (Hv env). reflexivity. }
    revert Hfold Hterm.
    destruct (visit_factor Visit parameters (base_i, exponent_i)) as [t|err];
      simpl; intros Hfold Hterm; [|discriminate].
    destruct (Hterm t eq_refl) as [Hpt Hvt].
    destruct (IH _ _ Hfold (SimpleMultiplication_paired f t Hpaired Hpt)) as [Hp' Hv'].
    split; [assumption|]. intros env.
    rewrite (Hv' env), SimpleMultiplication_value, (Hvt env) by assumption.
    cbn [factors_value fold_right fst snd]. fold (factors_value env fs). ring.
Qed.

Lemma Visit_factorizes (parameters : variables) (e : Expression) :
  forall f, Visit parameters e = Ok f -> factorizes e f.
Proof.
  induction e as [c|v|c0 ts IH|c fs IH|b x IHb IHx|k args IH]
    using Expression_nested_ind; intros f Hf.
  - injection Hf as <-. apply factorizes_state_term.
  - cbn [Visit] in Hf. unfold VisitVariable in Hf. revert Hf.
    destruct (include parameters (get_variable (EVar v))); intros Hf; injection Hf as <-;
      [apply factorizes_parameter_term|apply factorizes_state_term].
  - cbn [Visit] in Hf. unfold VisitAddition in Hf. revert Hf.
    destruct (foldM (VisitAddition_step (Visit parameters)) ts ([], EConstant c0))
      as [[w_map w0]|err] eqn:Hfold; simpl; intros Hf; [|discriminate].
    injection Hf as <-. split.
    + unfold paired. cbn [fst snd]. now rewrite !length_map.
    + intros env. unfold factorization_value. cbn [fst snd].
      rewrite weighted_sum_fst_snd.
      rewrite (VisitAddition_fold_value _ ts IH _ _ Hfold env).
      cbn [fst snd map_value fold_right Evaluate]. fold (terms_value env ts). ring.
  - cbn [Visit] in Hf. unfold VisitMultiplication in Hf.
    assert (IH' : Forall (fun p => forall f, Visit parameters (fst p) = Ok f ->
                                    factorizes (fst p) f) fs).
    { eapply Forall_impl; [exact IH|]. intros p [Hp _]. exact Hp. }
    destruct (VisitMultiplication_fold_value _ parameters fs IH' _ _ Hf eq_refl)
      as [Hp Hv].
    split; [assumption|]. intros env. rewrite (Hv env).
    unfold factorization_value. cbn [fst snd Evaluate].
    rewrite weighted_sum_nil_l. fold (factors_value env fs). ring.
  - now apply (VisitPow_factorizes _ parameters).
  - now apply (VisitNonPolynomialTerm_factorizes _ parameters).
Qed.

Lemma Decompose_factorizes (e : Expression) (parameters : variables)
    (f : LumpedFactorization) :
  Decompose e parameters = Ok f -> factorizes e f.
Proof.
  unfold Decompose. intros Hf.
  destruct (Visit_factorizes parameters (Expand e) f Hf) as [Hp Hv].
  split; [assumption|]. intros env. rewrite (Hv env). apply Evaluate_Expand.
Qed.

Lemma Evaluate_recompose env (W alpha : list Expression) (w0 : Expression) :
  (Evaluate env (recompose W alpha w0) ==
   weighted_sum env W alpha + Evaluate env w0)%Q.
Proof.
  unfold recompose. rewrite <- map_value_combine.
  induction (combine W alpha) as [|[w a] l IH]; cbn [fold_right map_value fst snd].
  - ring.
  - rewrite Evaluate_eadd, Evaluate_emul, IH. fold (map_value env l). ring.
Qed.
End Visit_values.

(** ** The driver keeps values, row by row *)

Section Driver_values.
Context `{Algebra}.

Lemma Evaluate_nth_add_at env (i r : nat) (w : Expression) (col : list Expression) :
  (i < length col)%nat ->
  (Evaluate env (nth r (add_at i w col) (EConstant 0)) ==
   Evaluate env (nth r col (EConstant 0)) +
   (if decide (r = i) then Evaluate env w else 0))%Q.
Proof.
  intros Hi. unfold add_at. rewrite nth_insert by assumption.
  destruct (decide (i = r)) as [->|Hne].
  - rewrite decide_True by reflexivity. apply Evaluate_eadd.
  - rewrite decide_False by congruence. ring.
Qed.

Lemma Evaluate_nth_zero env (r n : nat) :
  Evaluate env (nth r (repeat (EConstant 0) n) (EConstant 0)) = 0%Q.
Proof.
  destruct (nth_in_or_default r (repeat (EConstant 0) n) (EConstant 0)) as [Hin | ->];
    [|reflexivity].
  apply repeat_spec in Hin. now rewrite Hin.
Qed.

Lemma emplace_then_row_value env (k w : Expression) (i n r : nat)
    (alpha_map : list (Expression * list Expression)) :
  (i < n)%nat -> columns n alpha_map ->
  (row_value env
     (emplace_then Less k (repeat (EConstant 0) n) (add_at i w) alpha_map) r ==
   row_value env alpha_map r +
   (if decide (r = i) then Evaluate env w * Evaluate env k else 0))%Q.
Proof.
  intros Hi. induction 1 as [|[k' col] am Hcol Ham IH];
    cbn [emplace_then row_value fold_right fst snd].
  - rewrite Evaluate_nth_add_at by (rewrite repeat_length; assumption).
    rewrite Evaluate_nth_zero. destruct (decide (r = i)); ring.
  - simpl in Hcol.
    destruct (Less k k') eqn:Hlt; cbn [row_value fold_right fst snd].
    + rewrite Evaluate_nth_add_at by (rewrite repeat_length; assumption).
      rewrite Evaluate_nth_zero. destruct (decide (r = i)); ring.
    + destruct (Less k' k) eqn:Hgt; cbn [row_value fold_right fst snd].
      * fold (row_value env
                (emplace_then Less k (repeat (EConstant 0) n) (add_at i w) am) r).
        rewrite IH. fold (row_value env am r). ring.
      * rewrite (Less_total k k' Hlt Hgt).
        rewrite Evaluate_nth_add_at by lia. fold (row_value env am r).
        destruct (decide (r = i)); ring.
Qed.

Lemma emplace_then_columns (k w : Expression) (i n : nat)
    (alpha_map : list (Expression * list Expression)) :
  columns n alpha_map ->
  columns n (emplace_then Less k (repeat (EConstant 0) n) (add_at i w) alpha_map).
Proof.
  assert (Hlen : forall col, length (add_at i w col) = length col)
    by (intros col; apply length_insert).
  induction 1 as [|[k' col] am Hcol Ham IH]; cbn [emplace_then].
  - constructor; [|constructor]. cbn [snd]. now rewrite Hlen, repeat_length.
  - destruct (Less k k'); [|destruct (Less k' k)].
    + constructor; [|constructor; assumption].
      cbn [snd]. now rewrite Hlen, repeat_length.
    + constructor; assumption.
    + constructor; [|assumption]. cbn [snd] in *. now rewrite Hlen.
Qed.

Lemma merge_row_value env (i n r : nat) (l : list (Expression * Expression)) :
  (i < n)%nat ->
  forall alpha_map, columns n alpha_map ->
  columns n
    (fold_left
       (fun alpha_map wa =>
          emplace_then Less wa.2 (repeat (EConstant 0) n) (add_at i wa.1) alpha_map)
       l alpha_map) /\
  (row_value env
     (fold_left
        (fun alpha_map wa =>
           emplace_then Less wa.2 (repeat (EConstant 0) n) (add_at i wa.1) alpha_map)
        l alpha_map) r ==
   row_value env alpha_map r + (if decide (r = i) then map_value env l else 0))%Q.
Proof.
  intros Hi. induction l as [|[w a] l IH]; intros am Ham; cbn [fold_left fst snd].
  - split; [assumption|]. cbn [map_value fold_right]. destruct (decide (r = i)); ring.
  - destruct (IH _ (emplace_then_columns a w i n am Ham)) as [Hcols Hval].
    split; [assumption|]. rewrite Hval, emplace_then_row_value by assumption.
    cbn [map_value fold_right fst snd]. fold (map_value env l).
    destruct (decide (r = i)); ring.
Qed.

Lemma weighted_sum_row env (alpha_map : list (Expression * list Expression)) (r : nat) :
  (weighted_sum env (map (fun kv => nth r kv.2 (EConstant 0)) alpha_map)
     (map fst alpha_map) == row_value env alpha_map r)%Q.
Proof.
  induction alpha_map as [|[k col] am IH]; [reflexivity|].
  cbn [map fst snd row_value fold_right]. rewrite weighted_sum_cons, IH.
  reflexivity.
Qed.

Lemma DecomposeLumpedParameters_step_unfold (parameters : variables) (n i : nat)
    (am : list (Expression * list Expression)) (w0 : list Expression)
    (f_i : Expression) :
  DecomposeLumpedParameters_step parameters n (i, am, w0) f_i =
    match Decompose f_i parameters with
    | Ok f =>
        Ok (S i,
            fold_left
              (fun alpha_map wa =>
                 emplace_then Less wa.2 (repeat (EConstant 0) n)
                   (add_at i wa.1) alpha_map)
              (combine f.1.1 f.1.2) am,
            <[i := f.2]> w0)
    | Err err => Err err
    end.
Proof.
  unfold DecomposeLumpedParameters_step.
  now destruct (Decompose f_i parameters) as [[[? ?] ?]|].
Qed.

Lemma DecomposeLumpedParameters_fold (parameters : variables) (n : nat)
    (rest : list Expression) :
  forall done st st',
    (length done + length rest = n)%nat ->
    rows_done done n st ->
    foldM (DecomposeLumpedParameters_step parameters n) rest st = Ok st' ->
    rows_done (done ++ rest) n st'.
Proof.
  induction rest as [|f_i rest IH]; intros done [[i am] w0] st' Hn Hdone Hfold.
  - cbn [foldM] in Hfold. simplify_eq. now rewrite app_nil_r.
  - cbn [foldM] in Hfold.
    destruct Hdone as (Hi & Hcols & Hw0 & Hrows & Hzero). cbn [fst snd] in *.
    subst i. cbn [length] in Hn.
    rewrite DecomposeLumpedParameters_step_unfold in Hfold. revert Hfold.
    destruct (Decompose f_i parameters) as [[[w alpha] w0_i]|err] eqn:Hdec;
      simpl; intros Hfold; [|discriminate].
    destruct (Decompose_factorizes _ _ _ Hdec) as [Hpaired Hvalue].
    replace (done ++ f_i :: rest) with ((done ++ [f_i]) ++ rest)
      by now rewrite <- app_assoc.
    refine (IH (done ++ [f_i]) _ st' _ _ Hfold); [rewrite length_app; simpl; lia|].
    split; [cbn [fst snd]; rewrite length_app; simpl; lia|].
    cbn [fst snd].
    split.
    { refine (proj1 (merge_row_value (fun _ => 0%Q) (length done) n 0%nat
                       (combine w alpha) _ am Hcols)). lia. }
    split; [now rewrite length_insert|].
    split.
    + intros r f_r env Hr.
      destruct (merge_row_value env (length done) n r (combine w alpha) ltac:(lia) am Hcols)
        as [_ ->].
      rewrite nth_insert by lia.
      apply lookup_app_Some in Hr as [Hr|[Hge Hr]].
      * assert (r < length done)%nat by now apply lookup_lt_Some in Hr.
        rewrite !decide_False by lia. rewrite <- (Hrows r f_r env Hr). ring.
      * apply list_lookup_singleton_Some in Hr as [Hr ->].
        assert (r = length done) as -> by lia.
        rewrite !decide_True by reflexivity.
        rewrite (Hzero (length done) env) by lia.
        rewrite map_value_combine, <- (Hvalue env).
        unfold factorization_value. cbn [fst snd]. ring.
    + intros r env Hr. rewrite length_app in Hr. simpl in Hr.
      destruct (merge_row_value env (length done) n r (combine w alpha) ltac:(lia) am Hcols)
        as [_ ->].
      rewrite decide_False by lia. rewrite (Hzero r env) by lia. ring.
Qed.
End Driver_values.

(** ** The round trip *)

Section Round_trip.
Context `{Algebra}.

Lemma DecomposeLumpedParameters_unfold (f : list Expression) (parameters : list variable) :
  DecomposeLumpedParameters f parameters =
    match foldM (DecomposeLumpedParameters_step (make_variables parameters) (length f)) f
            (0%nat, [], repeat (EConstant 0) (length f)) with
    | Ok st =>
        Ok (map (fun i => map (fun kv => nth i kv.2 (EConstant 0)) st.1.2)
              (seq 0 (length f)),
            map fst st.1.2, st.2)
    | Err err => Err err
    end.
Proof.
  unfold DecomposeLumpedParameters.
  now destruct (foldM _ f _) as [[[? ?] ?]|].
Qed.

Lemma rows_done_initial (n : nat) :
  rows_done [] n (0%nat, [], repeat (EConstant 0) n).
Proof.
  split; [reflexivity|]. split; [constructor|]. split; [apply repeat_length|].
  split; [intros r f_r env Hr; discriminate|]. reflexivity.
Qed.

(** C1.  Whenever the factoriser succeeds on an expression [e] with
    the triple [(W, alpha, w0)], the weights and the parameter terms
    pair up, and substituting back and expanding
    [sum_i W_i * alpha_i + w0] gives an expression with the value of
    the expansion of [e], under every assignment of the variables and
    every reading of the operators.  Whenever
    [DecomposeLumpedParameters] succeeds on a vector [f], the same
    holds row by row: row [i] of [W_mat * alpha + w0] has the value of
    [f_i]. *)
Theorem DecomposeLumpedParameters_round_trip :
  (forall (e : Expression) (parameters : variables) (W alpha : list Expression)
          (w0 : Expression),
     Decompose e parameters = Ok (W, alpha, w0) ->
     length W = length alpha /\
     forall env,
       (Evaluate env (Expand (recompose W alpha w0)) == Evaluate env (Expand e))%Q) /\
  (forall (f : list Expression) (parameters : list variable)
          (W : list (list Expression)) (alpha w0 : list Expression),
     DecomposeLumpedParameters f parameters = Ok (W, alpha, w0) ->
     length W = length f /\ length w0 = length f /\
     forall i f_i, f !! i = Some f_i ->
       exists row w0_i,
         W !! i = Some row /\ w0 !! i = Some w0_i /\ length row = length alpha /\
         forall env,
           (Evaluate env (Expand (recompose row alpha w0_i)) ==
            Evaluate env (Expand f_i))%Q).
Proof.
  split.
  - intros e parameters W alpha w0 Hdec.
    destruct (Decompose_factorizes _ _ _ Hdec) as [Hpaired Hvalue].
    split; [exact Hpaired|]. intros env.
    rewrite !Evaluate_Expand, Evaluate_recompose. apply (Hvalue env).
  - intros f parameters W alpha w0 Hdec.
    rewrite DecomposeLumpedParameters_unfold in Hdec. revert Hdec.
    destruct (foldM _ f _) as [[[i am] w0']|err] eqn:Hfold; [|discriminate].
    cbn [fst snd]. intros [= <- <- <-].
    pose proof (DecomposeLumpedParameters_fold _ _ f [] _ _ eq_refl
                  (rows_done_initial (length f)) Hfold) as Hdone.
    destruct Hdone as (_ & Hcols & Hw0 & Hrows & _). cbn [fst snd app length] in *.
    split; [now rewrite length_map, length_seq|]. split; [assumption|].
    intros r f_r Hr.
    assert (r < length f)%nat as Hlt by now apply lookup_lt_Some in Hr.
    destruct (lookup_lt_is_Some_2 w0' r) as [w0_r Hw0_r]; [lia|].
    exists (map (fun kv => nth r kv.2 (EConstant 0)) am), w0_r.
    split.
    { rewrite list_lookup_fmap, lookup_seq_lt by assumption. reflexivity. }
    split; [assumption|].
    split; [now rewrite !length_map|].
    intros env. rewrite !Evaluate_Expand, Evaluate_recompose, weighted_sum_row.
    rewrite <- (nth_lookup_Some _ _ (EConstant 0) _ Hw0_r).
    apply (Hrows r f_r env Hr).
Qed.
End Round_trip.

(** The rows [3 + 10 x sin(p) + 2 p + 7 y] and [p q^2 x + 4 p] with the
    parameters [p] and [q]. *)
Lemma DecomposeLumpedParameters_round_trip_witness :
  let x := mkVariable 1 in
  let y := mkVariable 2 in
  let p := mkVariable 3 in
  let q := mkVariable 4 in
  let f :=
    [EAdd 3 [(EMul 2 [(EVar x, EConstant 1); (EOp Sin [EVar p], EConstant 1)], 5%Q);
             (EVar p, 2%Q); (EVar y, 7%Q)];
     EAdd 0 [(EMul 1 [(EVar p, EConstant 1); (EVar q, EConstant 2); (EVar x, EConstant 1)],
              1%Q);
             (EVar p, 4%Q)]] in
  exists (W : list (list Expression)) (alpha w0 : list Expression),
    @DecomposeLumpedParameters _ reference_Algebra f [p; q] = Ok (W, alpha, w0) /\
    length alpha = 3%nat /\
    length W = length f /\ length w0 = length f /\
    forall i f_i, f !! i = Some f_i ->
      exists row w0_i,
        W !! i = Some row /\ w0 !! i = Some w0_i /\ length row = length alpha /\
        forall env,
          (@Evaluate reference_Interpretation env
             (@Expand _ reference_Algebra (@recompose _ reference_Algebra row alpha w0_i)) ==
           @Evaluate reference_Interpretation env (@Expand _ reference_Algebra f_i))%Q.
Proof.
  intros x y p q f.
  destruct (@DecomposeLumpedParameters _ reference_Algebra f [p; q])
    as [[[W alpha] w0]|err] eqn:Hdec; [|vm_compute in Hdec; discriminate].
  exists W, alpha, w0. split; [reflexivity|].
  split; [vm_compute in Hdec; injection Hdec as <- <- <-; reflexivity|].
  exact (proj2 (@DecomposeLumpedParameters_round_trip _ reference_Algebra)
           f [p; q] W alpha w0 Hdec).
Defined.

(** ** When the factoriser fails *)

Section foldM_failure.
Context {A B C : Type} (step : B -> A -> result B) (g : A -> result C).
Hypothesis step_Err : forall st a err, g a = Err err -> step st a = Err err.
Hypothesis step_Ok : forall st a c, g a = Ok c -> exists st', step st a = Ok st'.

Lemma foldM_Err_inv (l : list A) :
  forall st err, foldM step l st = Err err -> exists a, In a l /\ g a = Err err.
Proof.
  induction l as [|a l IH]; intros st err Hfold; cbn [foldM] in Hfold;
    [discriminate|].
  destruct (g a) as [c|err'] eqn:Hg.
  - destruct (step_Ok st a c Hg) as [st' Hst']. rewrite Hst' in Hfold.
    simpl in Hfold. destruct (IH _ _ Hfold) as (a' & Hin & Ha').
    exists a'. split; [now right|assumption].
  - rewrite (step_Err st a err' Hg) in Hfold. simpl in Hfold.
    injection Hfold as <-. exists a. split; [now left|assumption].
Qed.

Lemma foldM_Err_intro (l : list A) (a : A) :
  In a l -> is_Err (g a) -> forall st, is_Err (foldM step l st).
Proof.
  induction l as [|a' l IH]; intros Hin Hga st; [contradiction|].
  cbn [foldM].
  destruct (g a') as [c|err'] eqn:Hg.
  - destruct (step_Ok st a' c Hg) as [st' ->]. simpl.
    destruct Hin as [->|Hin]; [rewrite Hg in Hga; contradiction|].
    now apply IH.
  - now rewrite (step_Err st a' err' Hg).
Qed.
End foldM_failure.

Section Failures.
Context `{Algebra}.

Lemma VisitPow_Err (e : Expression) (parameters : variables) (err : Error) :
  VisitPow e parameters = Err err <->
  mixed parameters e = true /\
  err = (if is_constant (get_second_argument e) then UnsupportedMixedPower e
         else NonSeparablePower e).
Proof.
  unfold VisitPow, mixed.
  destruct (IsSubsetOf (GetVariables e) parameters); simpl;
    [split; [discriminate|intros [? _]; discriminate]|].
  destruct (vars_empty (intersect (GetVariables e) parameters)); simpl;
    [split; [discriminate|intros [? _]; discriminate]|].
  destruct (is_constant (get_second_argument e)); split;
    try (intros [= <-]; auto); intros [_ ->]; reflexivity.
Qed.

Lemma VisitNonPolynomialTerm_Err (e : Expression) (parameters : variables)
    (err : Error) :
  VisitNonPolynomialTerm e parameters = Err err <->
  mixed parameters e = true /\ err = NonSeparableNonlinearTerm e.
Proof.
  unfold VisitNonPolynomialTerm, mixed.
  destruct (IsSubsetOf (GetVariables e) parameters); simpl;
    [split; [discriminate|intros [? _]; discriminate]|].
  destruct (vars_empty (intersect (GetVariables e) parameters)); simpl;
    [split; [discriminate|intros [? _]; discriminate]|].
  split; [intros [= <-]; auto|intros [_ ->]; reflexivity].
Qed.

Lemma VisitAddition_step_Err (Visit : Expression -> result LumpedFactorization)
    (st : list (Expression * Expression) * Expression) (p : Expression * Q)
    (err : Error) :
  Visit p.1 = Err err -> VisitAddition_step Visit st p = Err err.
Proof.
  destruct st, p. rewrite VisitAddition_step_unfold. simpl. now intros ->.
Qed.

Lemma VisitAddition_step_Ok (Visit : Expression -> result LumpedFactorization)
    (st : list (Expression * Expression) * Expression) (p : Expression * Q)
    (f : LumpedFactorization) :
  Visit p.1 = Ok f -> exists st', VisitAddition_step Visit st p = Ok st'.
Proof.
  destruct st, p. rewrite VisitAddition_step_unfold. simpl. intros ->. eauto.
Qed.


Lemma VisitMultiplication_step_Err (Visit : Expression -> result LumpedFactorization)
    (parameters : variables) (f : LumpedFactorization) (p : Expression * Expression)
    (err : Error) :
  visit_factor Visit parameters p = Err err ->
  VisitMultiplication_step Visit parameters f p = Err err.
Proof. rewrite VisitMultiplication_step_unfold. now intros ->. Qed.

Lemma VisitMultiplication_step_Ok (Visit : Expression -> result LumpedFactorization)
    (parameters : variables) (f : LumpedFactorization) (p : Expression * Expression)
    (t : LumpedFactorization) :
  visit_factor Visit parameters p = Ok t ->
  exists f', VisitMultiplication_step Visit parameters f p = Ok f'.
Proof. rewrite VisitMultiplication_step_unfold. intros ->. eauto. Qed.

Lemma VisitAddition_Err (Visit : Expression -> result LumpedFactorization)
    (c0 : Q) (ts : list (Expression * Q)) (err : Error) :
  VisitAddition Visit c0 ts = Err err <->
  foldM (VisitAddition_step Visit) ts ([], EConstant c0) = Err err.
Proof.
  unfold VisitAddition.
  destruct (foldM _ ts _) as [[w_map w0]|err']; simpl;
    [split; discriminate|split; intros [= <-]; reflexivity].
Qed.

Lemma Visit_opaque_Err (parameters : variables) (n : Expression) (err : Error) :
  is_opaque n = true ->
  Visit parameters n = Err err <-> mixed parameters n = true /\ err = blame n.
Proof.
  destruct n; try discriminate; intros _; cbn [Visit blame].
  - apply VisitPow_Err.
  - apply VisitNonPolynomialTerm_Err.
Qed.

Lemma Visit_Err_blames (parameters : variables) (e : Expression) :
  forall err, Visit parameters e = Err err ->
  exists n, visits e n /\ is_opaque n = true /\ mixed parameters n = true /\
            err = blame n.
Proof.
  induction e as [c|v|c0 ts IH|c fs IH|b x IHb IHx|k args IH]
    using Expression_nested_ind; intros err Herr.
  - discriminate.
  - cbn [Visit] in Herr. unfold VisitVariable in Herr.
    destruct (include parameters (get_variable (EVar v))); discriminate.
  - cbn [Visit] in Herr. apply VisitAddition_Err in Herr.
    apply (foldM_Err_inv _ (fun p => Visit parameters p.1)
             (VisitAddition_step_Err _) (VisitAddition_step_Ok _)) in Herr
      as ([t q] & Hin & Ht).
    rewrite Forall_forall in IH.
    destruct (IH (t, q) ltac:(now apply list_elem_of_In) err Ht)
      as (n & Hn & Hop & Hmix & ->).
    exists n. split; [|auto]. now apply (visits_term c0 ts t q).
  - cbn [Visit] in Herr. unfold VisitMultiplication in Herr.
    apply (foldM_Err_inv _ (visit_factor (Visit parameters) parameters)
             (VisitMultiplication_step_Err _ _)
             (VisitMultiplication_step_Ok _ _)) in Herr
      as ([b x] & Hin & Hb).
    unfold visit_factor in Hb. cbn [fst snd] in Hb.
    destruct (is_one x) eqn:Hone.
    + rewrite Forall_forall in IH.
      destruct (IH (b, x) ltac:(now apply list_elem_of_In)) as [IHb _].
      destruct (IHb err Hb) as (n & Hn & Hop & Hmix & ->).
      exists n. split; [|auto]. now apply (visits_base c fs b x).
    + apply VisitPow_Err in Hb as [Hmix ->].
      exists (pow b x). split; [now apply visits_power|]. auto.
  - exists (EPow b x). split; [constructor|]. split; [reflexivity|].
    now apply (Visit_opaque_Err parameters (EPow b x)).
  - exists (EOp k args). split; [constructor|]. split; [reflexivity|].
    now apply (Visit_opaque_Err parameters (EOp k args)).
Qed.

Lemma visits_mixed_Err (parameters : variables) (e n : Expression) :
  visits e n -> is_opaque n = true -> mixed parameters n = true ->
  is_Err (Visit parameters e).
Proof.
  induction 1 as [e|c0 ts t q n Hin Hvis IH|c fs b x n Hin Hone Hvis IH|c fs b x Hin Hone];
    intros Hop Hmix.
  - rewrite (proj2 (Visit_opaque_Err parameters e (blame e) Hop) (conj Hmix eq_refl)).
    exact I.
  - cbn [Visit]. unfold VisitAddition.
    pose proof (foldM_Err_intro _ (fun p => Visit parameters p.1)
                  (VisitAddition_step_Err _) (VisitAddition_step_Ok _)
                  ts (t, q) Hin (IH Hop Hmix) ([], EConstant c0)) as Hfold.
    destruct (foldM _ ts _); [contradiction|exact I].
  - cbn [Visit]. unfold VisitMultiplication.
    apply (foldM_Err_intro _ (visit_factor (Visit parameters) parameters)
             (VisitMultiplication_step_Err _ _)
             (VisitMultiplication_step_Ok _ _) fs (b, x) Hin).
    unfold visit_factor. cbn [fst snd]. rewrite Hone. now apply IH.
  - cbn [Visit]. unfold VisitMultiplication.
    apply (foldM_Err_intro _ (visit_factor (Visit parameters) parameters)
             (VisitMultiplication_step_Err _ _)
             (VisitMultiplication_step_Ok _ _) fs (b, x) Hin).
    unfold visit_factor. cbn [fst snd]. rewrite Hone.
    rewrite (proj2 (VisitPow_Err (pow b x) parameters (blame (pow b x)))
               (conj Hmix eq_refl)).
    exact I.
Qed.

Lemma DecomposeLumpedParameters_step_Err (parameters : variables) (n : nat)
    (st : nat * list (Expression * list Expression) * list Expression)
    (f_i : Expression) (err : Error) :
  Decompose f_i parameters = Err err ->
  DecomposeLumpedParameters_step parameters n st f_i = Err err.
Proof.
  destruct st as [[i am] w0]. unfold DecomposeLumpedParameters_step. now intros ->.
Qed.

Lemma DecomposeLumpedParameters_step_Ok (parameters : variables) (n : nat)
    (st : nat * list (Expression * list Expression) * list Expression)
    (f_i : Expression) (f : LumpedFactorization) :
  Decompose f_i parameters = Ok f ->
  exists st', DecomposeLumpedParameters_step parameters n st f_i = Ok st'.
Proof.
  destruct st as [[i am] w0], f as [[w alpha] w0_i].
  unfold DecomposeLumpedParameters_step. intros ->. simpl. eauto.
Qed.

(** C4.  A power over mixed variables fails with
    [UnsupportedMixedPower] when its exponent is a constant and with
    [NonSeparablePower] otherwise, and an operator node over mixed
    variables fails with [NonSeparableNonlinearTerm], each naming the
    node.  The visitor fails on [e] exactly when it reaches a power or
    an operator node over mixed variables, and the failure is then the
    one of such a node.  The factoriser runs the visitor on the
    expansion of its input, and [DecomposeLumpedParameters] fails,
    returning no part of a result, exactly when the factoriser fails
    on one of the rows. *)
Theorem Visit_fails_on_mixed_nodes_only (parameters : variables) :
  (forall b x,
     mixed parameters (EPow b x) = true ->
     Visit parameters (EPow b x) =
       Err (if is_constant x then UnsupportedMixedPower (EPow b x)
            else NonSeparablePower (EPow b x))) /\
  (forall k args,
     mixed parameters (EOp k args) = true ->
     Visit parameters (EOp k args) = Err (NonSeparableNonlinearTerm (EOp k args))) /\
  (forall e,
     is_Err (Visit parameters e) <->
     exists n, visits e n /\ is_opaque n = true /\ mixed parameters n = true) /\
  (forall e err,
     Visit parameters e = Err err ->
     exists n, visits e n /\ is_opaque n = true /\ mixed parameters n = true /\
               err = blame n) /\
  (forall e, Decompose e parameters = Visit parameters (Expand e)) /\
  (forall (f : list Expression) (params : list variable),
     is_Err (DecomposeLumpedParameters f params) <->
     exists f_i, In f_i f /\ is_Err (Decompose f_i (make_variables params))).
Proof.
  split; [|split; [|split; [|split; [|split]]]].
  - intros b x Hmix.
    now apply (proj2 (VisitPow_Err (EPow b x) parameters _)).
  - intros k args Hmix.
    now apply (proj2 (VisitNonPolynomialTerm_Err (EOp k args) parameters _)).
  - intros e. split.
    + destruct (Visit parameters e) as [f|err] eqn:Hv; [contradiction|]. intros _.
      destruct (Visit_Err_blames parameters e err Hv) as (n & ? & ? & ? & _). eauto.
    + intros (n & Hvis & Hop & Hmix). now apply (visits_mixed_Err parameters e n).
  - apply Visit_Err_blames.
  - reflexivity.
  - intros f params. rewrite DecomposeLumpedParameters_unfold. split.
    + destruct (foldM _ f _) as [st|err] eqn:Hfold; [contradiction|]. intros _.
      apply (foldM_Err_inv _ (fun f_i => Decompose f_i (make_variables params))
               (DecomposeLumpedParameters_step_Err _ _)
               (DecomposeLumpedParameters_step_Ok _ _)) in Hfold as (f_i & Hin & Hf).
      exists f_i. split; [assumption|]. now rewrite Hf.
    + intros (f_i & Hin & Hf).
      pose proof (foldM_Err_intro _ (fun f_i => Decompose f_i (make_variables params))
                    (DecomposeLumpedParameters_step_Err _ (length f))
                    (DecomposeLumpedParameters_step_Ok _ (length f)) f f_i Hin Hf
                    (0%nat, [], repeat (EConstant 0) (length f))) as Hfold.
      destruct (foldM _ f _); [contradiction|exact I].
Qed.
End Failures.

(** ** Keys of ordered maps *)

Section ordered_map_keys.
Context {K V : Type} (less : K -> K -> bool).
Hypothesis less_trans : forall a b c, less a b = true -> less b c = true -> less a c = true.
Hypothesis less_total : forall a b, less a b = false -> less b a = false -> a = b.

Lemma emplace_then_keys (k : K) (v0 : V) (f : V -> V) (m : list (K * V)) (a : K) :
  In a (map fst (emplace_then less k v0 f m)) <-> a = k \/ In a (map fst m).
Proof.
  induction m as [|[k' v'] r IH]; cbn [emplace_then map fst In].
  - intuition congruence.
  - destruct (less k k') eqn:Hlt; [cbn [map fst In]; intuition congruence|].
    destruct (less k' k) eqn:Hgt; cbn [map fst In].
    + rewrite IH. intuition congruence.
    + rewrite (less_total k k' Hlt Hgt). intuition congruence.
Qed.

Lemma emplace_then_sorted (k : K) (v0 : V) (f : V -> V) (m : list (K * V)) :
  StronglySorted (fun a b => less a b = true) (map fst m) ->
  StronglySorted (fun a b => less a b = true) (map fst (emplace_then less k v0 f m)).
Proof.
  induction m as [|[k' v'] r IH]; cbn [emplace_then map fst]; intros Hs.
  - repeat constructor.
  - inversion Hs as [|? ? Hr Hk']; subst.
    destruct (less k k') eqn:Hlt; cbn [map fst].
    + constructor; [assumption|]. constructor; [assumption|].
      eapply Forall_impl; [exact Hk'|]. intros b Hb. now apply (less_trans k k' b).
    + destruct (less k' k) eqn:Hgt; cbn [map fst].
      * constructor; [now apply IH|].
        apply List.Forall_forall. intros b Hb. apply emplace_then_keys in Hb.
        destruct Hb as [->|Hb]; [assumption|].
        rewrite List.Forall_forall in Hk'. now apply Hk'.
      * assumption.
Qed.
End ordered_map_keys.

Lemma sorted_NoDup {K : Type} (less : K -> K -> bool) (l : list K) :
  (forall a, less a a = false) ->
  StronglySorted (fun a b => less a b = true) l -> NoDup l.
Proof.
  intros Hirr. induction 1 as [|a l Hl IH Ha]; constructor; [|assumption].
  intros Hin. rewrite Forall_forall in Ha. specialize (Ha a Hin).
  rewrite Hirr in Ha. discriminate.
Qed.

Section Shared_columns.
Context `{Algebra}.

Lemma merge_keys (i n : nat) (l : list (Expression * Expression)) :
  forall alpha_map,
  StronglySorted (fun a b => Less a b = true) (map fst alpha_map) ->
  let alpha_map' :=
    fold_left
      (fun alpha_map wa =>
         emplace_then Less wa.2 (repeat (EConstant 0) n) (add_at i wa.1) alpha_map)
      l alpha_map in
  StronglySorted (fun a b => Less a b = true) (map fst alpha_map') /\
  forall a, In a (map fst alpha_map') <-> In a (map fst alpha_map) \/ In a (map snd l).
Proof.
  induction l as [|[w a] l IH]; intros am Hs; cbn [fold_left map fst snd In].
  - split; [assumption|]. tauto.
  - destruct (IH (emplace_then Less a (repeat (EConstant 0) n) (add_at i w) am))
      as [Hs' Hin'].
    { apply emplace_then_sorted; [apply Less_trans|apply Less_total|assumption]. }
    split; [assumption|]. intros b. rewrite Hin'.
    rewrite (emplace_then_keys Less Less_total). intuition congruence.
Qed.

Lemma map_snd_combine (w alpha : list Expression) :
  length w = length alpha -> map snd (combine w alpha) = alpha.
Proof.
  revert alpha. induction w as [|x w IH]; intros [|a alpha] Hlen;
    simpl in *; try discriminate; [reflexivity|].
  f_equal. apply IH. lia.
Qed.

Lemma DecomposeLumpedParameters_fold_keys (parameters : variables) (n : nat)
    (rest : list Expression) :
  forall done st st',
    keys_done parameters done st ->
    foldM (DecomposeLumpedParameters_step parameters n) rest st = Ok st' ->
    keys_done parameters (done ++ rest) st'.
Proof.
  induction rest as [|f_i rest IH]; intros done [[i am] w0] st' Hdone Hfold.
  - cbn [foldM] in Hfold. simplify_eq. now rewrite app_nil_r.
  - cbn [foldM] in Hfold.
    rewrite DecomposeLumpedParameters_step_unfold in Hfold. revert Hfold.
    destruct (Decompose f_i parameters) as [[[w alpha] w0_i]|err] eqn:Hdec;
      simpl; intros Hfold; [|discriminate].
    destruct (Decompose_factorizes _ _ _ Hdec) as [Hpaired _].
    replace (done ++ f_i :: rest) with ((done ++ [f_i]) ++ rest)
      by now rewrite <- app_assoc.
    refine (IH (done ++ [f_i]) _ st' _ Hfold).
    destruct Hdone as [Hs Hin]. cbn [fst snd] in *.
    destruct (merge_keys i n (combine w alpha) am Hs) as [Hs' Hin'].
    split; [exact Hs'|]. intros a. cbn [fst snd]. rewrite Hin', Hin.
    rewrite (map_snd_combine w alpha Hpaired). split.
    + intros [(f_j & w' & alpha' & w0' & Hj & Hd & Ha)|Ha].
      * exists f_j, w', alpha', w0'. rewrite in_app_iff. auto.
      * exists f_i, w, alpha, w0_i. rewrite in_app_iff. simpl. auto.
    + intros (f_j & w' & alpha' & w0' & Hj & Hd & Ha).
      apply in_app_iff in Hj as [Hj|[<-|[]]].
      * left. eauto 10.
      * right. rewrite Hdec in Hd. now simplify_eq.
Qed.
End Shared_columns.

(** ** Products of a state term and a parameter *)

Section Products_of_atoms.
Context `{UnitSimplification}.

Lemma include_singleton_same (p : variable) : include (make_variables [p]) p = true.
Proof. unfold include. simpl. now rewrite N.eqb_refl. Qed.

Lemma include_singleton_other (p x : variable) :
  x <> p -> include (make_variables [p]) x = false.
Proof.
  intros Hne. unfold include. simpl. rewrite orb_false_r.
  apply N.eqb_neq. intros Heq. apply Hne. symmetry. now apply get_id_inj.
Qed.

Lemma state_atom_variable (parameters : variables) (x : variable) :
  include parameters x = false -> state_atom parameters (EVar x).
Proof.
  intros Hx. split; [|split; reflexivity].
  cbn [Visit]. unfold VisitVariable. cbn [get_variable]. now rewrite Hx.
Qed.

Ltac simplify_units :=
  repeat match goal with
    | |- context [emul ?x ?y] =>
        first
          [ rewrite (emul_one_l x y) by reflexivity
          | rewrite (emul_one_r x y) by (assumption || reflexivity)
          | rewrite (emul_zero_l x y) by (assumption || reflexivity)
          | rewrite (emul_zero_r x y) by (assumption || reflexivity) ]
    | |- context [eadd ?x ?y] =>
        first
          [ rewrite (eadd_zero_l x y) by reflexivity
          | rewrite (eadd_zero_r x y) by (assumption || reflexivity) ]
    end.

Ltac run_visitor :=
  repeat first
    [ progress cbn
    | rewrite VisitMultiplication_step_unfold; unfold visit_factor
    | rewrite VisitAddition_step_unfold
    | progress simplify_units
    | match goal with
      | |- context [Qeq_bool ?x ?y] =>
          let v := eval vm_compute in (Qeq_bool x y) in
          match v with
          | true => change (Qeq_bool x y) with true
          | false => change (Qeq_bool x y) with false
          end
      | Hv : Visit _ ?e = Ok _ |- context [Visit _ ?e] => rewrite Hv
      | Hi : include ?P ?v = _ |- context [include ?P ?v] => rewrite Hi
      | |- context [VisitVariable _ _] => unfold VisitVariable
      | Hz : is_zero ?e = false |- context [is_zero ?e] => rewrite Hz
      end ].

Lemma Visit_state_times_parameter (parameters : variables) (a : Expression)
    (p : variable) (fs : list (Expression * Expression)) :
  include parameters p = true -> state_atom parameters a ->
  Permutation [(a, EConstant 1); (EVar p, EConstant 1)] fs ->
  Visit parameters (EMul 1 fs) = Ok ([a], [EVar p], EConstant 0).
Proof.
  intros Hp (Ha & Hz & Ho) Hperm.
  assert (Hvp : Visit parameters (EVar p) = Ok ([EConstant 1], [EVar p], EConstant 0)).
  { cbn [Visit]. unfold VisitVariable. cbn [get_variable]. now rewrite Hp. }
  apply Permutation_length_2_inv in Hperm as [-> | ->];
    cbn [Visit]; unfold VisitMultiplication; cbn [foldM];
    run_visitor; reflexivity.
Qed.

Lemma Less_asym (a b : Expression) : Less a b = true -> Less b a = false.
Proof.
  intros Hab. destruct (Less b a) eqn:Hba; [|reflexivity].
  rewrite <- (Less_irrefl a). symmetry. now apply (Less_trans a b a).
Qed.

Lemma Less_cases (a b : Expression) :
  a <> b ->
  (Less a b = true /\ Less b a = false) \/ (Less a b = false /\ Less b a = true).
Proof.
  intros Hne. destruct (Less a b) eqn:Hab.
  - left. split; [reflexivity|]. now apply Less_asym.
  - right. split; [reflexivity|]. destruct (Less b a) eqn:Hba; [reflexivity|].
    exfalso. apply Hne. now apply Less_total.
Qed.

(** C2.  The basis [alpha] returned by [DecomposeLumpedParameters]
    is strictly increasing in the order of expressions, so that no
    parameter term stands in it twice, and it holds exactly the
    parameter terms that the factoriser returns for one of the rows:
    rows with the same parameter term share its column.  In
    particular, for [f = [x1 * p; x2 * p]] with the parameter [p], in
    whatever order the factors of the products are kept, it returns
    [alpha = [p]], [W_mat = [[x1]; [x2]]] and [w0 = [0; 0]]. *)
Theorem DecomposeLumpedParameters_shares_columns :
  (forall (f : list Expression) (parameters : list variable)
          (W : list (list Expression)) (alpha w0 : list Expression),
     DecomposeLumpedParameters f parameters = Ok (W, alpha, w0) ->
     StronglySorted (fun a b => Less a b = true) alpha /\
     NoDup alpha /\
     forall a, In a alpha <->
       exists f_i w alpha_i w0_i,
         In f_i f /\
         Decompose f_i (make_variables parameters) = Ok (w, alpha_i, w0_i) /\
         In a alpha_i) /\
  (forall (x1 x2 p : variable) (fs1 fs2 : list (Expression * Expression)),
     x1 <> p -> x2 <> p ->
     Permutation [(EVar x1, EConstant 1); (EVar p, EConstant 1)] fs1 ->
     Permutation [(EVar x2, EConstant 1); (EVar p, EConstant 1)] fs2 ->
     Expand (EMul 1 fs1) = EMul 1 fs1 ->
     Expand (EMul 1 fs2) = EMul 1 fs2 ->
     DecomposeLumpedParameters [EMul 1 fs1; EMul 1 fs2] [p] =
       Ok ([[EVar x1]; [EVar x2]], [EVar p], [EConstant 0; EConstant 0])).
Proof.
  split.
  - intros f parameters W alpha w0 Hdec.
    rewrite DecomposeLumpedParameters_unfold in Hdec. revert Hdec.
    destruct (foldM _ f _) as [[[i am] w0']|err] eqn:Hfold; [|discriminate].
    cbn [fst snd]. intros [= <- <- <-].
    assert (Hinit : keys_done (make_variables parameters) []
                      (0%nat, [], repeat (EConstant 0) (length f))).
    { split; [constructor|]. cbn [fst snd map In]. split; [contradiction|].
      intros (? & ? & ? & ? & [] & _). }
    destruct (DecomposeLumpedParameters_fold_keys _ _ f [] _ _ Hinit Hfold)
      as [Hsorted Hkeys].
    cbn [fst snd app] in *.
    split; [assumption|]. split; [|assumption].
    apply (sorted_NoDup Less); [apply Less_irrefl|assumption].
  - intros x1 x2 p fs1 fs2 Hx1 Hx2 Hfs1 Hfs2 Hexp1 Hexp2.
    pose proof (include_singleton_same p) as Hp.
    pose proof (state_atom_variable _ _ (include_singleton_other p x1 Hx1)) as Ha1.
    pose proof (state_atom_variable _ _ (include_singleton_other p x2 Hx2)) as Ha2.
    unfold DecomposeLumpedParameters. cbn [foldM length].
    rewrite !DecomposeLumpedParameters_step_unfold. unfold Decompose.
    rewrite Hexp1, (Visit_state_times_parameter _ _ _ _ Hp Ha1 Hfs1).
    cbn [mbind result_bind fst snd combine fold_left emplace_then].
    rewrite DecomposeLumpedParameters_step_unfold. unfold Decompose.
    rewrite Hexp2, (Visit_state_times_parameter _ _ _ _ Hp Ha2 Hfs2).
    cbn [mbind result_bind fst snd combine fold_left emplace_then].
    rewrite Less_irrefl. cbn. simplify_units. reflexivity.
Qed.

(** C3, as amended.  On [a * p1 + b * p1], with [a] and [b] distinct
    state-only terms and [p1] a parameter, the addition step of the
    visitor, keyed by the weight, keeps the two entries [(a, p1)] and
    [(b, p1)] apart; it is [DecomposeLumpedParameters], whose map is
    keyed by the parameter term, that merges them into the single
    weight [a + b] paired with [alpha = [p1]], with [w0 = [0]]. *)
Theorem addition_keeps_weights_apart_and_driver_merges
    (a b : Expression) (p1 : variable)
    (ts : list (Expression * Q)) (fs1 fs2 : list (Expression * Expression)) :
  state_atom (make_variables [p1]) a -> state_atom (make_variables [p1]) b ->
  a <> b ->
  Permutation [(a, EConstant 1); (EVar p1, EConstant 1)] fs1 ->
  Permutation [(b, EConstant 1); (EVar p1, EConstant 1)] fs2 ->
  Permutation [(EMul 1 fs1, 1%Q); (EMul 1 fs2, 1%Q)] ts ->
  Expand (EAdd 0 ts) = EAdd 0 ts ->
  Decompose (EAdd 0 ts) (make_variables [p1]) =
    Ok (if Less a b then [a; b] else [b; a], [EVar p1; EVar p1], EConstant 0) /\
  DecomposeLumpedParameters [EAdd 0 ts] [p1] =
    Ok ([[if Less a b then eadd a b else eadd b a]], [EVar p1], [EConstant 0]).
Proof.
  intros Ha Hb Hne Hfs1 Hfs2 Hts Hexp.
  pose proof (include_singleton_same p1) as Hp.
  pose proof (Visit_state_times_parameter _ _ _ _ Hp Ha Hfs1) as Hv1.
  pose proof (Visit_state_times_parameter _ _ _ _ Hp Hb Hfs2) as Hv2.
  destruct Ha as (_ & Hza & Hoa), Hb as (_ & Hzb & Hob).
  assert (Hdec : Decompose (EAdd 0 ts) (make_variables [p1]) =
            Ok (if Less a b then [a; b] else [b; a], [EVar p1; EVar p1], EConstant 0)).
  { unfold Decompose. rewrite Hexp.
    destruct (Less_cases a b Hne) as [[Hab Hba]|[Hab Hba]];
      apply Permutation_length_2_inv in Hts as [-> | ->];
      cbn [Visit]; unfold VisitAddition; cbn [foldM];
      rewrite !VisitAddition_step_unfold, ?Hv1, ?Hv2;
      cbn [mbind result_bind fst snd combine fold_left emplace_then];
      simplify_units;
      cbn [mbind result_bind fst snd combine fold_left emplace_then];
      rewrite ?VisitAddition_step_unfold, ?Hv1, ?Hv2;
      cbn [mbind result_bind fst snd combine fold_left emplace_then];
      simplify_units; rewrite ?Hab, ?Hba;
      cbn [mbind result_bind fst snd map]; simplify_units; reflexivity. }
  split; [exact Hdec|].
  unfold DecomposeLumpedParameters. cbn [foldM length].
  rewrite DecomposeLumpedParameters_step_unfold, Hdec.
  destruct (Less a b);
    cbn [mbind result_bind fst snd combine fold_left emplace_then];
    rewrite Less_irrefl; cbn; simplify_units; reflexivity.
Qed.
End Products_of_atoms.

(** ** Examples on the reference algebra *)

(** The rows [x1 * p] and [x2 * p] with the parameter [p]. *)
Lemma DecomposeLumpedParameters_shares_columns_witness :
  let x1 := mkVariable 1 in
  let x2 := mkVariable 2 in
  let p := mkVariable 3 in
  @DecomposeLumpedParameters _ reference_Algebra
    [EMul 1 [(EVar x1, EConstant 1); (EVar p, EConstant 1)];
     EMul 1 [(EVar x2, EConstant 1); (EVar p, EConstant 1)]] [p] =
  Ok ([[EVar x1]; [EVar x2]], [EVar p], [EConstant 0; EConstant 0]).
Proof.
  intros x1 x2 p.
  apply (proj2 (@DecomposeLumpedParameters_shares_columns _ _ reference_UnitSimplification)
           x1 x2 p); try discriminate; reflexivity.
Defined.

(** The sum [a * p1 + b * p1] of two state variables times the
    parameter [p1]. *)
Lemma addition_keeps_weights_apart_witness :
  let a := mkVariable 1 in
  let b := mkVariable 2 in
  let p1 := mkVariable 3 in
  let e :=
    EAdd 0 [(EMul 1 [(EVar a, EConstant 1); (EVar p1, EConstant 1)], 1%Q);
            (EMul 1 [(EVar b, EConstant 1); (EVar p1, EConstant 1)], 1%Q)] in
  @Decompose _ reference_Algebra e (make_variables [p1]) =
    Ok ([EVar a; EVar b], [EVar p1; EVar p1], EConstant 0) /\
  @DecomposeLumpedParameters _ reference_Algebra [e] [p1] =
    Ok ([[EAdd 0 [(EVar a, 1%Q); (EVar b, 1%Q)]]], [EVar p1], [EConstant 0]).
Proof.
  intros a b p1 e.
  apply (@addition_keeps_weights_apart_and_driver_merges _ _ reference_UnitSimplification
           (EVar a) (EVar b) p1
           [(EMul 1 [(EVar a, EConstant 1); (EVar p1, EConstant 1)], 1%Q);
            (EMul 1 [(EVar b, EConstant 1); (EVar p1, EConstant 1)], 1%Q)]
           [(EVar a, EConstant 1); (EVar p1, EConstant 1)]
           [(EVar b, EConstant 1); (EVar p1, EConstant 1)]);
    try reflexivity; try discriminate; repeat split.
Defined.

(** On the same sum the visitor does not return a single weight. *)
Lemma addition_does_not_merge :
  let a := mkVariable 1 in
  let b := mkVariable 2 in
  let p1 := mkVariable 3 in
  ~ @addition_merges _ reference_Algebra
      (EAdd 0 [(EMul 1 [(EVar a, EConstant 1); (EVar p1, EConstant 1)], 1%Q);
               (EMul 1 [(EVar b, EConstant 1); (EVar p1, EConstant 1)], 1%Q)]) p1.
Proof.
  intros a b p1 (w & w0 & Hdec). vm_compute in Hdec. discriminate.
Qed.

(** * Further properties *)

(** ** IsAffine, entry by entry *)

Lemma IsAffineVisitor_fold `{PolynomialOps} (variables_ : option variables)
    (l : list Expression) (found : bool) :
  fold_left (IsAffineVisitor_call variables_) l found =
    found || existsb (IsNotAffine variables_) l.
Proof.
  revert found. induction l as [|e l IH]; intros found; simpl.
  - now rewrite orb_false_r.
  - rewrite IH. unfold IsAffineVisitor_call. now rewrite orb_assoc.
Qed.

Lemma IsAffineVisitor_result_true `{PolynomialOps} (variables_ : option variables)
    (m : list (list Expression)) :
  IsAffineVisitor_result variables_ m = true <->
  forall e, e ∈ concat m ->
    is_polynomial e = true /\ (TotalDegree (MakePolynomial e variables_) <= 1)%nat.
Proof.
  unfold IsAffineVisitor_result. rewrite IsAffineVisitor_fold. simpl.
  rewrite negb_true_iff, <- not_true_iff_false, existsb_exists.
  split.
  - intros Hnone e He. apply list_elem_of_In in He.
    destruct (is_polynomial e) eqn:Hpoly.
    + split; [reflexivity|].
      destruct (Nat.ltb_spec 1 (TotalDegree (MakePolynomial e variables_))) as [Hlt|Hle];
        [|assumption].
      exfalso. apply Hnone. exists e. split; [assumption|].
      unfold IsNotAffine. rewrite Hpoly. simpl. now apply Nat.ltb_lt.
    + exfalso. apply Hnone. exists e. split; [assumption|].
      unfold IsNotAffine. now rewrite Hpoly.
  - intros Hall (e & He & Hnot). apply list_elem_of_In in He.
    destruct (Hall e He) as [Hpoly Hdeg].
    unfold IsNotAffine in Hnot. rewrite Hpoly in Hnot. simpl in Hnot.
    apply Nat.ltb_lt in Hnot. lia.
Qed.

(** X1.  [IsAffine(m)] returns true exactly when every entry of [m] is
    a polynomial whose polynomial over all of its variables has total
    degree at most one, and [IsAffine(m, vars)] exactly when every
    entry is a polynomial (in all of its variables) whose polynomial
    over [vars] has total degree at most one; a matrix without entries
    is affine. *)
Theorem IsAffine_iff_every_entry_affine `{PolynomialOps} (m : list (list Expression)) :
  (IsAffine m = true <->
   forall e, e ∈ concat m ->
     is_polynomial e = true /\ (TotalDegree (MakePolynomial e None) <= 1)%nat) /\
  (forall vars : variables,
     IsAffine_in m vars = true <->
     forall e, e ∈ concat m ->
       is_polynomial e = true /\
       (TotalDegree (MakePolynomial e (Some vars)) <= 1)%nat).
Proof.
  assert (Hempty : forall P : Expression -> Prop,
             length (concat m) = 0%nat -> forall e, e ∈ concat m -> P e).
  { intros P Hlen e He. destruct (concat m); [|discriminate].
    now apply elem_of_nil in He. }
  split; [|intros vars]; unfold IsAffine, IsAffine_in;
    (destruct (Nat.eqb_spec (length (concat m)) 0) as [Hlen|Hlen];
     [split; [intros _; now apply Hempty|reflexivity]
     |apply IsAffineVisitor_result_true]).
Qed.

(** ** Loops that may fail *)

Section mapM_facts.
Context {A B : Type} (f : A -> result B).

Lemma mapM_Ok_length (l : list A) :
  forall ys, mapM f l = Ok ys -> length ys = length l.
Proof.
  induction l as [|x l IH]; simpl; intros ys Hys.
  - now injection Hys as <-.
  - destruct (f x) as [y|err]; simpl in Hys; [|discriminate].
    destruct (mapM f l) as [ys'|err]; simpl in Hys; [|discriminate].
    injection Hys as <-. simpl. f_equal. now apply IH.
Qed.

Lemma mapM_Ok_Forall (P : B -> Prop) (l : list A) :
  (forall x y, x ∈ l -> f x = Ok y -> P y) ->
  forall ys, mapM f l = Ok ys -> Forall P ys.
Proof.
  induction l as [|x l IH]; simpl; intros HP ys Hys.
  - injection Hys as <-. constructor.
  - destruct (f x) as [y|err] eqn:Hfx; simpl in Hys; [|discriminate].
    destruct (mapM f l) as [ys'|err]; simpl in Hys; [|discriminate].
    injection Hys as <-. constructor.
    + apply (HP x y); [left|assumption].
    + apply IH; [|reflexivity]. intros a b Ha. apply HP. now right.
Qed.

Lemma mapM_Err_inv (l : list A) :
  forall err, mapM f l = Err err -> exists x, x ∈ l /\ f x = Err err.
Proof.
  induction l as [|x l IH]; simpl; intros err Herr; [discriminate|].
  destruct (f x) as [y|err'] eqn:Hfx; simpl in Herr.
  - destruct (mapM f l) as [ys'|err'] eqn:Hl; simpl in Herr; [discriminate|].
    injection Herr as ->. destruct (IH err eq_refl) as (a & Ha & Hfa).
    exists a. split; [now right|assumption].
  - injection Herr as ->. exists x. split; [left|assumption].
Qed.

End mapM_facts.

(** ** DecomposeLinearExpressions: shape and failures *)

Lemma FindCoefficientAndFill_Err (map : Polynomial) (m : Monomial) (err : Error) :
  FindCoefficientAndFill map m = Err err ->
  exists c, find map m = Some c /\ is_constant c = false /\
            err = NonConstantCoefficient c.
Proof.
  unfold FindCoefficientAndFill. destruct (find map m) as [c|]; [|discriminate].
  destruct (is_constant c) eqn:Hc; simpl; [discriminate|].
  intros [= <-]. eauto.
Qed.

Section Linear_outcomes.
Context `{PolynomialOps}.

Lemma DecomposeLinearExpressions_Ok_inv (expressions : list Expression)
    (vars : list variable) (M_rows M_cols : nat) (M : list (list Q)) :
  DecomposeLinearExpressions expressions vars M_rows M_cols = Ok M ->
  M_rows = length expressions /\ M_cols = length vars /\
  mapM (DecomposeLinearExpressions_row vars) expressions = Ok M.
Proof.
  unfold DecomposeLinearExpressions.
  destruct (Nat.eqb_spec M_rows (length expressions)) as [Hr|Hr]; simpl;
    [|discriminate].
  destruct (Nat.eqb_spec M_cols (length vars)) as [Hc|Hc]; simpl; [|discriminate].
  auto.
Qed.

Lemma DecomposeLinearExpressions_row_Ok_inv (vars : list variable) (e : Expression)
    (row : list Q) :
  DecomposeLinearExpressions_row vars e = Ok row ->
  let p := MakePolynomial e (Some (make_variables vars)) in
  is_polynomial e = true /\ (TotalDegree p <= 1)%nat /\ contains p [] = false /\
  mapM (fun v => FindCoefficientAndFill p [(v, 1%nat)]) vars = Ok row.
Proof.
  unfold DecomposeLinearExpressions_row.
  destruct (is_polynomial e); simpl; [|discriminate].
  destruct (Nat.ltb_spec 1 (TotalDegree (MakePolynomial e (Some (make_variables vars)))));
    [discriminate|].
  destruct (contains _ []); [discriminate|]. auto.
Qed.

(** X2.  When [DecomposeLinearExpressions] returns, [M] had one row
    per expression and one column per variable, and every entry of it
    has been written: the result has [M_rows] rows of [M_cols]
    entries. *)
Theorem DecomposeLinearExpressions_shape (expressions : list Expression)
    (vars : list variable) (M_rows M_cols : nat) (M : list (list Q)) :
  DecomposeLinearExpressions expressions vars M_rows M_cols = Ok M ->
  M_rows = length expressions /\ M_cols = length vars /\
  length M = M_rows /\ Forall (fun row => length row = M_cols) M.
Proof.
  intros HM. apply DecomposeLinearExpressions_Ok_inv in HM as (-> & -> & HM).
  split; [reflexivity|]. split; [reflexivity|].
  split; [now apply (mapM_Ok_length _ _ _ HM)|].
  apply (mapM_Ok_Forall _ _ _ (fun e row _ Hrow =>
           mapM_Ok_length _ _ _ (proj2 (proj2 (proj2
             (DecomposeLinearExpressions_row_Ok_inv vars e row Hrow))))) _ HM).
Qed.

(** X3.  A failure of [DecomposeLinearExpressions] is either the
    demand on the dimensions of [M], or it is raised on one of the
    inputs [e] and tells the truth about it: [e] is not a polynomial;
    or it is one of degree above one in the variables; or, of degree
    at most one, it has a constant monomial; or, without one, the
    coefficient of one of the variables is not a number. *)
Theorem DecomposeLinearExpressions_failure (expressions : list Expression)
    (vars : list variable) (M_rows M_cols : nat) (err : Error) :
  DecomposeLinearExpressions expressions vars M_rows M_cols = Err err ->
  (err = PreconditionFailure /\
   (M_rows <> length expressions \/ M_cols <> length vars)) \/
  exists e, e ∈ expressions /\
    let p := MakePolynomial e (Some (make_variables vars)) in
    (err = InputNotPolynomial e /\ is_polynomial e = false) \/
    (err = DegreeExceeded e /\ is_polynomial e = true /\ (1 < TotalDegree p)%nat) \/
    (err = UnexpectedConstantTerm e /\ is_polynomial e = true /\
     (TotalDegree p <= 1)%nat /\ contains p [] = true) \/
    (exists v c, err = NonConstantCoefficient c /\ is_polynomial e = true /\
       (TotalDegree p <= 1)%nat /\ contains p [] = false /\
       v ∈ vars /\ find p [(v, 1%nat)] = Some c /\ is_constant c = false).
Proof.
  unfold DecomposeLinearExpressions.
  destruct (Nat.eqb_spec M_rows (length expressions)) as [Hr|Hr]; simpl;
    [|intros [= <-]; left; auto].
  destruct (Nat.eqb_spec M_cols (length vars)) as [Hc|Hc]; simpl;
    [|intros [= <-]; left; auto].
  intros Herr. right.
  apply mapM_Err_inv in Herr as (e & He & Herr).
  exists e. split; [assumption|]. cbv zeta.
  unfold DecomposeLinearExpressions_row in Herr.
  destruct (is_polynomial e) eqn:Hpoly; simpl in Herr;
    [|injection Herr as <-; left; auto].
  destruct (Nat.ltb_spec 1 (TotalDegree (MakePolynomial e (Some (make_variables vars)))))
    as [Hdeg|Hdeg]; [injection Herr as <-; right; left; auto|].
  destruct (contains _ []) eqn:Hconst;
    [injection Herr as <-; right; right; left; auto|].
  apply mapM_Err_inv in Herr as (v & Hv & Herr).
  apply FindCoefficientAndFill_Err in Herr as (c & Hfind & Hc' & ->).
  right; right; right. exists v, c. auto 10.
Qed.
End Linear_outcomes.

(** The rows [2 x + 3 y] and [5 y] over [x, y]. *)
Lemma DecomposeLinearExpressions_shape_witness :
  let x := mkVariable 1 in
  let y := mkVariable 2 in
  let expressions := [EAdd 0 [(EVar x, 2%Q); (EVar y, 3%Q)]; EAdd 0 [(EVar y, 5%Q)]] in
  let M := [[2; 3]; [0; 5]]%Q in
  @DecomposeLinearExpressions reference_PolynomialOps expressions [x; y] 2 2 = Ok M /\
  (2%nat = length expressions /\ 2%nat = length [x; y] /\
   length M = 2%nat /\ Forall (fun row => length row = 2%nat) M).
Proof.
  intros x y expressions M.
  assert (HM : @DecomposeLinearExpressions reference_PolynomialOps expressions [x; y] 2 2
               = Ok M) by (vm_compute; reflexivity).
  split; [exact HM|].
  exact (@DecomposeLinearExpressions_shape reference_PolynomialOps expressions [x; y]
           2 2 M HM).
Defined.

(** The row [x^2 + 1] over [x]. *)
Lemma DecomposeLinearExpressions_failure_witness :
  let x := mkVariable 1 in
  let e := EAdd 1 [(EPow (EVar x) (EConstant 2), 1%Q)] in
  @DecomposeLinearExpressions reference_PolynomialOps [e] [x] 1 1 =
    Err (DegreeExceeded e) /\
  ((DegreeExceeded e = PreconditionFailure /\
    (1%nat <> length [e] \/ 1%nat <> length [x])) \/
   exists e', e' ∈ [e] /\
     let p := @MakePolynomial reference_PolynomialOps e' (Some (make_variables [x])) in
     (DegreeExceeded e = InputNotPolynomial e' /\ is_polynomial e' = false) \/
     (DegreeExceeded e = DegreeExceeded e' /\ is_polynomial e' = true /\
      (1 < TotalDegree p)%nat) \/
     (DegreeExceeded e = UnexpectedConstantTerm e' /\ is_polynomial e' = true /\
      (TotalDegree p <= 1)%nat /\ contains p [] = true) \/
     (exists v c, DegreeExceeded e = NonConstantCoefficient c /\
        is_polynomial e' = true /\
        (TotalDegree p <= 1)%nat /\ contains p [] = false /\
        v ∈ [x] /\ find p [(v, 1%nat)] = Some c /\ is_constant c = false)).
Proof.
  intros x e.
  assert (Herr : @DecomposeLinearExpressions reference_PolynomialOps [e] [x] 1 1 =
                 Err (DegreeExceeded e)) by (vm_compute; reflexivity).
  split; [exact Herr|].
  exact (@DecomposeLinearExpressions_failure reference_PolynomialOps [e] [x] 1 1 _ Herr).
Defined.

(** ** DecomposeAffineExpressions *)

Section mapM_map.
Context {A B C : Type} (f : A -> result B) (g : A -> result C) (h : B -> C).

Lemma mapM_Ok_map (l : list A) :
  (forall x y, x ∈ l -> f x = Ok y -> g x = Ok (h y)) ->
  forall ys, mapM f l = Ok ys -> mapM g l = Ok (map h ys).
Proof.
  induction l as [|x l IH]; simpl; intros Hfg ys Hys.
  - now injection Hys as <-.
  - destruct (f x) as [y|err] eqn:Hfx; simpl in Hys; [|discriminate].
    destruct (mapM f l) as [ys'|err]; simpl in Hys; [|discriminate].
    injection Hys as <-. rewrite (Hfg x y) by (left || assumption). simpl.
    rewrite (IH (fun a b Ha => Hfg a b (list_elem_of_further _ _ _ Ha)) ys' eq_refl).
    reflexivity.
Qed.
End mapM_map.

Section Affine_facts.
Context `{PolynomialOps}.

Lemma DecomposeAffineExpressions_row_of_linear (vars : list variable) (e : Expression)
    (row : list Q) :
  DecomposeLinearExpressions_row vars e = Ok row ->
  DecomposeAffineExpressions_row vars e = Ok (row, 0%Q).
Proof.
  intros Hrow.
  apply DecomposeLinearExpressions_row_Ok_inv in Hrow as (Hpoly & Hdeg & Hconst & Hrow).
  unfold DecomposeAffineExpressions_row. rewrite Hpoly. simpl.
  destruct (Nat.ltb_spec 1 (TotalDegree (MakePolynomial e (Some (make_variables vars)))));
    [lia|].
  rewrite Hrow. simpl. unfold FindCoefficientAndFill.
  unfold contains in Hconst. destruct (find _ []); [discriminate|]. reflexivity.
Qed.

(** X4.  Whenever [DecomposeLinearExpressions] returns the matrix [M],
    [DecomposeAffineExpressions] on the same expressions and variables
    returns the same [M], with the vector [v] zero. *)
Theorem DecomposeAffineExpressions_of_linear (expressions : list Expression)
    (vars : list variable) (M_rows M_cols : nat) (M : list (list Q)) :
  DecomposeLinearExpressions expressions vars M_rows M_cols = Ok M ->
  DecomposeAffineExpressions expressions vars M_rows M_cols M_rows =
    Ok (M, Zero_vector M_rows).
Proof.
  intros HM. apply DecomposeLinearExpressions_Ok_inv in HM as (-> & -> & HM).
  unfold DecomposeAffineExpressions. rewrite !Nat.eqb_refl. simpl.
  rewrite (mapM_Ok_map _ _ (fun row => (row, 0%Q)) expressions
             (fun e row _ => DecomposeAffineExpressions_row_of_linear vars e row) M HM).
  simpl. rewrite <- (mapM_Ok_length _ _ _ HM).
  f_equal. f_equal.
  - rewrite map_map. simpl. apply map_id.
  - rewrite map_map. simpl. clear HM.
    induction M as [|row M IH]; simpl; [reflexivity|]. now rewrite IH.
Qed.

Lemma DecomposeAffineExpressions_row_affine (vars : list variable)
    (r : Expression * list Q * Q) :
  affine_row_with_constant vars r ->
  DecomposeAffineExpressions_row vars r.1.1 =
    Ok (read_back r.1.2, if Qeq_bool r.2 0 then 0%Q else r.2).
Proof.
  intros (Hpoly & Hdeg & Hconst & Hlen & Hfind).
  unfold DecomposeAffineExpressions_row. rewrite Hpoly. simpl.
  destruct (Nat.ltb_spec 1 (TotalDegree (MakePolynomial r.1.1 (Some (make_variables vars)))));
    [lia|].
  rewrite (mapM_FindCoefficientAndFill _ vars r.1.2 Hlen Hfind). simpl.
  unfold FindCoefficientAndFill. rewrite Hconst.
  destruct (Qeq_bool r.2 0); reflexivity.
Qed.

(** X5.  On inputs that are all affine with numeric coefficients,
    [e_i = sum_j c_ij * x_j + c_i0], [DecomposeAffineExpressions]
    returns the matrix of the coefficients [c_ij] and the vector of the
    constant terms [c_i0], with [0.0] where a monomial is missing: a
    constant term is read, not rejected. *)
Theorem DecomposeAffineExpressions_affine (vars : list variable)
    (rows : list (Expression * list Q * Q)) :
  Forall (affine_row_with_constant vars) rows ->
  DecomposeAffineExpressions (map (fun r => r.1.1) rows) vars
    (length rows) (length vars) (length rows) =
  Ok (map (fun r => read_back r.1.2) rows,
      map (fun r => if Qeq_bool r.2 0 then 0%Q else r.2) rows).
Proof.
  intros Hrows. unfold DecomposeAffineExpressions.
  rewrite length_map, !Nat.eqb_refl. simpl.
  assert (Hmap : mapM (DecomposeAffineExpressions_row vars) (map (fun r => r.1.1) rows) =
                 Ok (map (fun r => (read_back r.1.2,
                                    if Qeq_bool r.2 0 then 0%Q else r.2)) rows)).
  { induction Hrows as [|r rows Hr Hrows IH]; simpl; [reflexivity|].
    rewrite (DecomposeAffineExpressions_row_affine vars r Hr). simpl.
    now rewrite IH. }
  rewrite Hmap. simpl. now rewrite !map_map.
Qed.
End Affine_facts.

(** The rows [2 x + 3 y] and [5 y] over [x, y]. *)
Lemma DecomposeAffineExpressions_of_linear_witness :
  let x := mkVariable 1 in
  let y := mkVariable 2 in
  let expressions := [EAdd 0 [(EVar x, 2%Q); (EVar y, 3%Q)]; EAdd 0 [(EVar y, 5%Q)]] in
  let M := [[2; 3]; [0; 5]]%Q in
  @DecomposeLinearExpressions reference_PolynomialOps expressions [x; y] 2 2 = Ok M /\
  @DecomposeAffineExpressions reference_PolynomialOps expressions [x; y] 2 2 2 =
    Ok (M, Zero_vector 2).
Proof.
  intros x y expressions M.
  assert (HM : @DecomposeLinearExpressions reference_PolynomialOps expressions [x; y] 2 2
               = Ok M) by (vm_compute; reflexivity).
  split; [exact HM|].
  exact (@DecomposeAffineExpressions_of_linear reference_PolynomialOps expressions [x; y]
           2 2 M HM).
Defined.

(** The rows [2 x + 3 y + 7] and [5 y] over [x, y]. *)
Lemma DecomposeAffineExpressions_affine_witness :
  let x := mkVariable 1 in
  let y := mkVariable 2 in
  let rows :=
    [(EAdd 7 [(EVar x, 2%Q); (EVar y, 3%Q)], [2%Q; 3%Q], 7%Q);
     (EAdd 0 [(EVar y, 5%Q)], [0%Q; 5%Q], 0%Q)] in
  Forall (@affine_row_with_constant reference_PolynomialOps [x; y]) rows /\
  @DecomposeAffineExpressions reference_PolynomialOps
    (map (fun r => r.1.1) rows) [x; y] (length rows) (length [x; y]) (length rows) =
  Ok ([[2; 3]; [0; 5]], [7; 0])%Q.
Proof.
  intros x y rows.
  assert (Hrows : Forall (@affine_row_with_constant reference_PolynomialOps [x; y]) rows).
  { repeat constructor; simpl;
      try (intros [|[|j]] v c Hv Hc; simpl in *; try discriminate;
           injection Hv as <-; injection Hc as <-; reflexivity). }
  split; [exact Hrows|].
  exact (@DecomposeAffineExpressions_affine reference_PolynomialOps [x; y] rows Hrows).
Defined.

(** ** The variable indexer: how its functions compose *)

Lemma first_occurrences_fold_elem (l acc : list variable) (x : variable) :
  x ∈ fold_left (fun acc v => if include acc v then acc else acc ++ [v]) l acc <->
  x ∈ acc \/ x ∈ l.
Proof.
  revert acc. induction l as [|v l IH]; intros acc; simpl.
  - rewrite elem_of_nil. tauto.
  - rewrite IH, elem_of_cons. destruct (include acc v) eqn:Hv.
    + apply include_spec in Hv. split; [tauto|].
      intros [?|[->|?]]; auto.
    + rewrite elem_of_app, list_elem_of_singleton. tauto.
Qed.

Lemma first_occurrences_elem (l : list variable) (x : variable) :
  x ∈ first_occurrences l <-> x ∈ l.
Proof.
  unfold first_occurrences. rewrite first_occurrences_fold_elem, elem_of_nil. tauto.
Qed.

Lemma index_of_NoDup (vars : list variable) (m : gmap N nat) :
  index_of vars m -> NoDup vars.
Proof.
  intros Hidx. apply NoDup_alt. intros i j v Hi Hj.
  assert (m !! get_id v = Some i) as Hmi by (apply Hidx; eauto).
  assert (m !! get_id v = Some j) as Hmj by (apply Hidx; eauto).
  congruence.
Qed.

Lemma index_of_size (vars : list variable) :
  forall m : gmap N nat, index_of vars m -> size m = length vars.
Proof.
  induction vars as [|v vars IH] using rev_ind; intros m Hidx.
  - simpl. apply map_size_empty_iff, map_empty. intros id.
    destruct (m !! id) as [i|] eqn:Hm; [|reflexivity].
    apply Hidx in Hm as (w & Hw & _). discriminate.
  - assert (Hv : m !! get_id v = Some (length vars)).
    { apply Hidx. exists v. split; [|reflexivity].
      rewrite lookup_app_r by lia. now rewrite Nat.sub_diag. }
    assert (Hidx' : index_of vars (delete (get_id v) m)).
    { intros id i. split.
      - intros Hm. apply lookup_delete_Some in Hm as [Hne Hm].
        apply Hidx in Hm as (w & Hw & Hid).
        apply lookup_app_Some in Hw as [Hw|[Hlen Hw]]; [eauto|].
        apply list_lookup_singleton_Some in Hw as [_ ->]. congruence.
      - intros (w & Hw & Hid).
        assert (m !! id = Some i) as Hm.
        { apply Hidx. exists w. split; [|assumption].
          now apply lookup_app_l_Some. }
        apply lookup_delete_Some. split; [|assumption].
        intros Heq. rewrite <- Heq, Hv in Hm. injection Hm as <-.
        apply lookup_lt_Some in Hw. lia. }
    rewrite length_app. simpl. rewrite <- (IH _ Hidx').
    rewrite <- (insert_delete_id m (get_id v) (length vars) Hv) at 1.
    rewrite map_size_insert_None by apply lookup_delete_eq. lia.
Qed.

Lemma index_of_one (x : variable) : index_of [x] (<[get_id x := 0%nat]> ∅).
Proof. apply (index_of_append [] ∅ x index_of_empty). apply lookup_empty. Qed.

Lemma index_of_two (x y : variable) :
  get_id x <> get_id y ->
  index_of [x; y] (<[get_id y := 1%nat]> (<[get_id x := 0%nat]> ∅)).
Proof.
  intros Hne.
  apply (index_of_append [x] (<[get_id x := 0%nat]> ∅) y).
  - apply (index_of_append [] ∅ x index_of_empty). apply lookup_empty.
  - rewrite lookup_insert_ne by congruence. apply lookup_empty.
Qed.

Lemma ExtractAndAppend_demand (e : Expression) (vars : list variable) (m : gmap N nat) :
  size m = length vars ->
  ExtractAndAppendVariablesFromExpression e vars m =
    Ok (fold_left ExtractAndAppend_step (GetVariables e) (vars, m)) /\
  ExtractAndAppendVariablesFromExpression_VectorX e vars m =
    Ok (fold_left ExtractAndAppend_step (GetVariables e) (vars, m)).
Proof.
  intros Hsize.
  unfold ExtractAndAppendVariablesFromExpression,
    ExtractAndAppendVariablesFromExpression_VectorX.
  rewrite Hsize, Nat.eqb_refl. simpl.
  now rewrite (fold_left_ext_eq _ _ _ _ VectorX_step_eq).
Qed.

Lemma ExtractAndAppend_fold_size (e : Expression) (vars : list variable)
    (m : gmap N nat) :
  size m = length vars ->
  size (fold_left ExtractAndAppend_step (GetVariables e) (vars, m)).2 =
  length (fold_left ExtractAndAppend_step (GetVariables e) (vars, m)).1.
Proof.
  intros Hsize.
  destruct (ExtractAndAppend_fold (GetVariables e)
              (increasing_ids_NoDup _ (GetVariables_increasing e)) vars m Hsize)
    as (m' & Hfold & Hsz & _).
  cbv zeta in Hfold, Hsz. now rewrite Hfold.
Qed.

(** X6.  Indexing one expression is appending its variables to the
    empty sequence and the empty map, with either overload of
    [ExtractAndAppendVariablesFromExpression]; indexing a vector of
    expressions is doing so for each expression in turn, none of the
    calls failing. *)
Theorem ExtractVariables_as_appends :
  (forall e : Expression,
     ExtractAndAppendVariablesFromExpression e [] ∅ =
       Ok (ExtractVariablesFromExpression e) /\
     ExtractAndAppendVariablesFromExpression_VectorX e [] ∅ =
       Ok (ExtractVariablesFromExpression e)) /\
  (forall es : list Expression,
     foldM (fun st e_i => ExtractAndAppendVariablesFromExpression e_i st.1 st.2)
       es ([], ∅) = Ok (ExtractVariablesFromExpressions es)).
Proof.
  split.
  - intros e.
    assert (ExtractVariablesFromExpression e =
            fold_left ExtractAndAppend_step (GetVariables e) ([], ∅)) as ->.
    { unfold ExtractVariablesFromExpression.
      rewrite (ExtractVariables_step_fold _
                 (increasing_ids_NoDup _ (GetVariables_increasing e)) [] ∅)
        by (intros v _; apply lookup_empty).
      now destruct (fold_left ExtractAndAppend_step (GetVariables e) ([], ∅)). }
    now apply ExtractAndAppend_demand.
  - intros es. unfold ExtractVariablesFromExpressions.
    assert (Hgen : forall st : list variable * gmap N nat,
              size st.2 = length st.1 ->
              foldM (fun st e_i => ExtractAndAppendVariablesFromExpression e_i st.1 st.2)
                es st =
              Ok (fold_left
                    (fun st e_i => fold_left ExtractVariables_push (GetVariables e_i) st)
                    es st)).
    { induction es as [|e es IH]; intros [vars m] Hsize; simpl in *; [reflexivity|].
      rewrite (proj1 (ExtractAndAppend_demand e vars m Hsize)). simpl.
      rewrite (fold_left_ext_eq _ _ _ _ push_step_eq).
      apply IH. now apply ExtractAndAppend_fold_size. }
    now apply Hgen.
Qed.

(** X7.  A second call of [ExtractAndAppendVariablesFromExpression] on
    the same expression, on the sequence and the map that the first
    call returned, returns them unchanged. *)
Theorem ExtractAndAppend_twice (e : Expression) (vars vars' : list variable)
    (m m' : gmap N nat) :
  ExtractAndAppendVariablesFromExpression e vars m = Ok (vars', m') ->
  ExtractAndAppendVariablesFromExpression e vars' m' = Ok (vars', m').
Proof.
  intros Hfirst.
  assert (Hsize : size m = length vars).
  { unfold ExtractAndAppendVariablesFromExpression in Hfirst.
    destruct (Nat.eqb_spec (size m) (length vars)); [assumption|discriminate]. }
  pose proof (increasing_ids_NoDup _ (GetVariables_increasing e)) as Hnd.
  destruct (ExtractAndAppend_fold (GetVariables e) Hnd vars m Hsize)
    as (m1 & Hfold & Hsz & Hold & Hnew & _).
  cbv zeta in Hfold, Hsz, Hnew.
  rewrite (proj1 (ExtractAndAppend_demand e vars m Hsize)), Hfold in Hfirst.
  injection Hfirst as <- <-.
  destruct (ExtractAndAppend_fold (GetVariables e) Hnd _ m1 Hsz)
    as (m2 & Hfold2 & _ & _ & _ & _ & Hsame).
  cbv zeta in Hfold2, Hsame.
  match type of Hsame with
  | ?new = [] -> _ => assert (Hempty : new = [])
  end.
  { apply elem_of_nil_inv. intros v Hv.
    apply list_elem_of_filter in Hv as [Hnone Hv].
    destruct (m !! get_id v) as [i|] eqn:Hm.
    - rewrite (Hold _ _ Hm) in Hnone. discriminate.
    - assert (v ∈ filter (fun v => m !! get_id v = None) (GetVariables e)) as Hin
        by (apply list_elem_of_filter; auto).
      apply list_elem_of_lookup in Hin as [k Hk].
      rewrite (Hnew k v Hk) in Hnone. discriminate. }
  rewrite (proj1 (ExtractAndAppend_demand e _ m1 Hsz)), Hfold2, Hempty.
  rewrite (Hsame Hempty), app_nil_r. reflexivity.
Qed.

(** The sum [v3 + v1] appended to the sequence [v1]. *)
Lemma ExtractAndAppend_twice_witness :
  let vars := [mkVariable 1] in
  let e := EAdd 0 [(EVar (mkVariable 3), 1%Q); (EVar (mkVariable 1), 1%Q)] in
  let m : gmap N nat := <[1%N := 0%nat]> ∅ in
  exists (vars' : list variable) (m' : gmap N nat),
    ExtractAndAppendVariablesFromExpression e vars m = Ok (vars', m') /\
    vars' = [mkVariable 1; mkVariable 3] /\
    ExtractAndAppendVariablesFromExpression e vars' m' = Ok (vars', m').
Proof.
  intros vars e m.
  destruct (ExtractAndAppendVariablesFromExpression e vars m) as [[vars' m']|err]
    eqn:Hfirst; [|vm_compute in Hfirst; discriminate].
  exists vars', m'. split; [reflexivity|].
  split; [vm_compute in Hfirst; now injection Hfirst as <- _|].
  exact (ExtractAndAppend_twice e vars vars' m m' Hfirst).
Defined.

(** X8.  If the map sends exactly the ids of the variables of the
    sequence to their positions, [ExtractAndAppendVariablesFromExpression]
    (either overload) succeeds and the same holds of the sequence and
    the map it returns; the sequence has no variable twice, and its
    members are those it had and the variables of the expression. *)
Theorem ExtractAndAppend_keeps_index_of (e : Expression) (vars : list variable)
    (m : gmap N nat) :
  index_of vars m ->
  exists (vars' : list variable) (m' : gmap N nat),
    ExtractAndAppendVariablesFromExpression e vars m = Ok (vars', m') /\
    ExtractAndAppendVariablesFromExpression_VectorX e vars m = Ok (vars', m') /\
    index_of vars' m' /\ NoDup vars' /\
    (forall v, v ∈ vars' <-> v ∈ vars \/ v ∈ GetVariables e).
Proof.
  intros Hidx. pose proof (index_of_size vars m Hidx) as Hsize.
  destruct (ExtractAndAppend_fold_index (GetVariables e) vars m Hidx Hsize)
    as (m' & Hfold & Hidx' & _).
  exists (fold_left (fun acc v => if include acc v then acc else acc ++ [v])
            (GetVariables e) vars), m'.
  destruct (ExtractAndAppend_demand e vars m Hsize) as [-> ->]. rewrite Hfold.
  split; [reflexivity|]. split; [reflexivity|]. split; [assumption|].
  split; [now apply (index_of_NoDup _ m')|].
  intros v. apply first_occurrences_fold_elem.
Qed.

(** The sum [v3 + v1] appended to the sequence [v1]. *)
Lemma ExtractAndAppend_keeps_index_of_witness :
  let x := mkVariable 1 in
  let e := EAdd 0 [(EVar (mkVariable 3), 1%Q); (EVar x, 1%Q)] in
  let m : gmap N nat := <[1%N := 0%nat]> ∅ in
  index_of [x] m /\
  exists (vars' : list variable) (m' : gmap N nat),
    ExtractAndAppendVariablesFromExpression e [x] m = Ok (vars', m') /\
    ExtractAndAppendVariablesFromExpression_VectorX e [x] m = Ok (vars', m') /\
    index_of vars' m' /\ NoDup vars' /\
    (forall v, v ∈ vars' <-> v ∈ [x] \/ v ∈ GetVariables e).
Proof.
  intros x e m.
  pose proof (index_of_one x) as Hidx. split; [exact Hidx|].
  exact (ExtractAndAppend_keeps_index_of e [x] m Hidx).
Defined.

(** ** DecomposeAffineExpression *)

Lemma Monomial_ok_degree_one (m : Monomial) :
  Monomial_ok m -> (total_degree m <= 1)%nat ->
  m = [] \/ exists v, m = [(v, 1%nat)].
Proof.
  intros [_ Hexp] Hdeg. destruct m as [|[v k] r]; [now left|]. right.
  inversion Hexp as [|? ? Hk Hr]; subst. simpl in *.
  destruct r as [|[w j] r].
  - exists v. f_equal. f_equal. lia.
  - inversion Hr as [|? ? Hj _]; subst. simpl in *. lia.
Qed.

Lemma TotalDegree_cons (t : Monomial * Expression) (poly : Polynomial) (d : nat) :
  (TotalDegree (t :: poly) <= d)%nat <->
  (total_degree t.1 <= d)%nat /\ (TotalDegree poly <= d)%nat.
Proof. unfold TotalDegree. simpl. lia. Qed.

Lemma vcoeff_Zero_vector (n i : nat) : vcoeff (Zero_vector n) i = 0%Q.
Proof.
  unfold vcoeff, Zero_vector.
  destruct (nth_in_or_default i (repeat 0%Q n) 0%Q) as [Hin|Hd]; [|assumption].
  now apply repeat_spec in Hin.
Qed.

Lemma count_nonzero_Zero_vector (n : nat) : count_nonzero (Zero_vector n) = 0%nat.
Proof. unfold count_nonzero, Zero_vector. induction n; simpl; auto. Qed.

Lemma count_nonzero_insert (l : list Q) (i : nat) (c : Q) :
  (i < length l)%nat -> (vcoeff l i == 0)%Q -> Qeq_bool c 0 = false ->
  count_nonzero (<[i := c]> l) = S (count_nonzero l).
Proof.
  unfold count_nonzero, vcoeff.
  revert i. induction l as [|a l IH]; intros i Hi Hzero Hc; simpl in Hi; [lia|].
  destruct i as [|i]; simpl in *.
  - rewrite Hc. simpl. apply Qeq_bool_iff in Hzero. now rewrite Hzero.
  - destruct (negb (Qeq_bool a 0)); simpl; rewrite (IH i) by (lia || assumption);
      reflexivity.
Qed.

Lemma vcoeff_insert_ne (l : list Q) (i j : nat) (c : Q) :
  i <> j -> vcoeff (<[i := c]> l) j = vcoeff l j.
Proof.
  intros Hij. unfold vcoeff. rewrite !nth_lookup.
  now rewrite list_lookup_insert_ne.
Qed.

Section Affine_expression_facts.
Context `{Interpretation}.
Variables (e : Expression) (vars : list variable) (m : gmap N nat).
Hypothesis Hidx : index_of vars m.

Lemma DecomposeAffineExpression_fold (poly : Polynomial) :
  Forall (term_ok vars) poly -> (TotalDegree poly <= 1)%nat -> NoDup (map fst poly) ->
  forall st, length st.1.1 = length vars -> untouched vars st poly ->
  exists st',
    foldM (DecomposeAffineExpression_step e m (length vars)) poly st = Ok st' /\
    length st'.1.1 = length vars /\
    (forall env,
       (dot st'.1.1 (map env vars) + st'.1.2 ==
        dot st.1.1 (map env vars) + st.1.2 + Polynomial_value env poly)%Q) /\
    (st'.2 + count_nonzero st.1.1 = st.2 + count_nonzero st'.1.1)%nat.
Proof.
  induction 1 as [|t poly Ht Hpoly IH]; intros Hdeg Hnd st Hlen Hun.
  { exists st. split; [reflexivity|]. split; [assumption|].
    split; [intros env; simpl; ring|reflexivity]. }
  apply TotalDegree_cons in Hdeg as [Hdt Hdeg].
  simpl in Hnd. apply NoDup_cons in Hnd as [Hfresh Hnd].
  destruct st as [[coeffs constant_term] num_variable].
  destruct t as [mono ce]. destruct Ht as (Hconst & Hnz & Hmono & Hvars).
  simpl in Hconst, Hnz, Hmono, Hvars, Hdt, Hfresh, Hlen.
  destruct ce as [c| | | | |]; try discriminate. simpl in Hnz.
  destruct Hun as [Hun1 Hun0]. simpl in Hun1, Hun0.
  destruct (Monomial_ok_degree_one mono Hmono Hdt) as [->|[v ->]].
  - (* the constant term *)
    destruct (IH Hdeg Hnd (coeffs, c, num_variable)) as (st' & Hfold & Hlen' & Hval & Hnum).
    { assumption. }
    { split; simpl.
      - intros w i Hw Hi. apply (Hun1 w i); [now right|assumption].
      - intros Hin. contradiction. }
    exists st'. simpl. rewrite Hfold.
    split; [reflexivity|]. split; [assumption|]. split; [|exact Hnum].
    intros env. rewrite (Hval env). simpl.
    rewrite (Hun0 (list_elem_of_here _ _)). ring.
  - (* a linear term *)
    inversion Hvars as [|? ? Hv _]; subst. simpl in Hv.
    destruct (at_index_elem vars m Hidx v Hv) as (i & Hat & Hi & Hlt).
    assert (Hold : (vcoeff coeffs i == 0)%Q)
      by (apply (Hun1 v i); [left|assumption]).
    destruct (IH Hdeg Hnd (<[i := c]> coeffs, constant_term, S num_variable))
      as (st' & Hfold & Hlen' & Hval & Hnum).
    { simpl. now rewrite length_insert. }
    { split; simpl.
      - intros w j Hw Hj.
        assert (i <> j) as Hij.
        { intros <-. rewrite Hi in Hj. injection Hj as <-. contradiction. }
        rewrite (vcoeff_insert_ne _ _ _ _ Hij).
        apply (Hun1 w j); [now right|assumption].
      - intros Hin. apply Hun0. now right. }
    exists st'. simpl. rewrite Hat. simpl.
    unfold in_range. destruct (Nat.ltb_spec i (length vars)) as [_|]; [|lia].
    simpl. rewrite Hnz. simpl. rewrite Hfold.
    split; [reflexivity|]. split; [assumption|]. split.
    + intros env. rewrite (Hval env). simpl.
      rewrite dot_insert_l by lia.
      rewrite (vcoeff_map_env env vars i v Hi), Hold. ring.
    + simpl in Hnum.
      rewrite (count_nonzero_insert coeffs i c) in Hnum by (lia || assumption).
      simpl. lia.
Qed.
End Affine_expression_facts.

(** X9.  For an affine expression [e] whose polynomial is as the
    constructor leaves it, over variables indexed by the map,
    [DecomposeAffineExpression] returns a row [coeffs] and a constant
    with [coeffs * x + constant_term] equal to the value of the
    polynomial under every assignment, and the number it returns is
    the number of nonzero entries of [coeffs]. *)
Theorem DecomposeAffineExpression_correct `{Interpretation} `{PolynomialOps}
    (e : Expression) (vars : list variable) (m : gmap N nat) :
  index_of vars m -> is_polynomial e = true ->
  affine_polynomial vars (MakePolynomial e None) ->
  exists (coeffs : list Q) (constant_term : Q) (num_variable : nat),
    DecomposeAffineExpression e m (length vars) =
      Ok (coeffs, constant_term, num_variable) /\
    length coeffs = length vars /\
    (forall env,
       (dot coeffs (map env vars) + constant_term ==
        Polynomial_value env (MakePolynomial e None))%Q) /\
    num_variable = count_nonzero coeffs.
Proof.
  intros Hidx Hpoly (Hterms & Hdeg & Hnd).
  destruct (DecomposeAffineExpression_fold e vars m Hidx _ Hterms Hdeg Hnd
              (Zero_vector (length vars), 0%Q, 0%nat))
    as ([[coeffs c] k] & Hfold & Hlen & Hval & Hnum).
  { apply repeat_length. }
  { split; simpl; [|reflexivity]. intros v i _ _. now rewrite vcoeff_Zero_vector. }
  exists coeffs, c, k. unfold DecomposeAffineExpression.
  rewrite (index_of_size vars m Hidx), Nat.eqb_refl, Hpoly. simpl. rewrite Hfold.
  split; [reflexivity|]. split; [assumption|]. split.
  - intros env. rewrite (Hval env). simpl. rewrite dot_zero_l. ring.
  - simpl in Hnum. rewrite count_nonzero_Zero_vector in Hnum. lia.
Qed.

(** The expression [3 y + 4] over [x, y]. *)
Lemma DecomposeAffineExpression_correct_witness :
  let x := mkVariable 1 in
  let y := mkVariable 2 in
  let vars := [x; y] in
  let m : gmap N nat := <[2%N := 1%nat]> (<[1%N := 0%nat]> ∅) in
  let e := EAdd 4 [(EVar y, 3%Q)] in
  @DecomposeAffineExpression reference_PolynomialOps e m 2 = Ok ([0; 3], 4, 1%nat)%Q /\
  exists (coeffs : list Q) (constant_term : Q) (num_variable : nat),
    @DecomposeAffineExpression reference_PolynomialOps e m (length vars) =
      Ok (coeffs, constant_term, num_variable) /\
    length coeffs = length vars /\
    (forall env,
       (dot coeffs (map env vars) + constant_term ==
        @Polynomial_value reference_Interpretation env
          (@MakePolynomial reference_PolynomialOps e None))%Q) /\
    num_variable = count_nonzero coeffs.
Proof.
  intros x y vars m e. split; [vm_compute; reflexivity|].
  apply (@DecomposeAffineExpression_correct reference_Interpretation
           reference_PolynomialOps e vars m).
  - apply (index_of_two x y). discriminate.
  - reflexivity.
  - vm_compute. split; [|split; [lia|]].
    + repeat constructor; simpl; try lia; apply list_elem_of_In; simpl; auto.
    + apply NoDup_ListNoDup. repeat constructor; simpl; intuition discriminate.
Defined.

(** ** DecomposeAffineExpression: the degree *)

Section Affine_expression_degree.
Variables (e : Expression) (vars : list variable) (m : gmap N nat).
Hypothesis Hidx : index_of vars m.

Lemma DecomposeAffineExpression_step_Ok (st : list Q * Q * nat)
    (t : Monomial * Expression) :
  term_ok vars t -> (total_degree t.1 <= 1)%nat -> length st.1.1 = length vars ->
  exists st',
    DecomposeAffineExpression_step e m (length vars) st t = Ok st' /\
    length st'.1.1 = length vars.
Proof.
  destruct st as [[coeffs constant_term] num_variable], t as [mono ce].
  intros (Hconst & _ & Hmono & Hvars) Hdeg Hlen. simpl in *.
  unfold DecomposeAffineExpression_step. cbn [fst snd]. rewrite Hconst.
  cbn [demand mbind result_bind].
  destruct (Monomial_ok_degree_one mono Hmono Hdeg) as [->|[v ->]].
  - eexists. split; [reflexivity|assumption].
  - inversion Hvars as [|? ? Hv _]; subst. simpl in Hv.
    destruct (at_index_elem vars m Hidx v Hv) as (i & Hat & Hi & Hlt).
    cbn. rewrite Hat. cbn. unfold in_range.
    destruct (Nat.ltb_spec i (length vars)); [|lia]. cbn.
    eexists. split; [reflexivity|]. cbn. now rewrite length_insert.
Qed.

Lemma DecomposeAffineExpression_step_degree (st : list Q * Q * nat)
    (t : Monomial * Expression) :
  is_constant t.2 = true -> (1 < total_degree t.1)%nat ->
  DecomposeAffineExpression_step e m (length vars) st t = Err (DegreeExceeded e).
Proof.
  destruct st as [[coeffs constant_term] num_variable]. intros Hconst Hdeg.
  unfold DecomposeAffineExpression_step. rewrite Hconst.
  cbn [demand mbind result_bind].
  destruct (Nat.ltb_spec 1 (total_degree t.1)); [reflexivity|lia].
Qed.

Lemma DecomposeAffineExpression_fold_degree (poly : Polynomial) :
  Forall (term_ok vars) poly ->
  forall st, length st.1.1 = length vars ->
  match List.find (fun t => (1 <? total_degree t.1)%nat) poly with
  | Some _ =>
      foldM (DecomposeAffineExpression_step e m (length vars)) poly st =
        Err (DegreeExceeded e)
  | None =>
      exists st', foldM (DecomposeAffineExpression_step e m (length vars)) poly st
                  = Ok st'
  end.
Proof.
  induction 1 as [|t poly Ht Hpoly IH]; intros st Hst; simpl.
  - eauto.
  - destruct (Nat.ltb_spec 1 (total_degree t.1)) as [Hdeg|Hdeg].
    + destruct Ht as (Hc & _).
      now rewrite (DecomposeAffineExpression_step_degree st t Hc Hdeg).
    + destruct (DecomposeAffineExpression_step_Ok st t Ht Hdeg Hst)
        as (st' & Hstep & Hst').
      rewrite Hstep. simpl. apply (IH st' Hst').
Qed.
End Affine_expression_degree.

Lemma find_degree_None (d : nat) (poly : Polynomial) :
  List.find (fun t => (d <? total_degree t.1)%nat) poly = None ->
  (TotalDegree poly <= d)%nat.
Proof.
  induction poly as [|t poly IH]; simpl; intros Hfind.
  - unfold TotalDegree. simpl. lia.
  - destruct (Nat.ltb_spec d (total_degree t.1)); [discriminate|].
    apply TotalDegree_cons. auto.
Qed.

(** X10.  On a polynomial expression whose polynomial has numeric
    coefficients over the indexed variables,
    [DecomposeAffineExpression] fails, naming the expression as
    non-linear, exactly when some monomial has total degree above one;
    otherwise the total degree is at most one and it returns. *)
Theorem DecomposeAffineExpression_degree `{PolynomialOps}
    (e : Expression) (vars : list variable) (m : gmap N nat) :
  index_of vars m -> is_polynomial e = true ->
  Forall (term_ok vars) (MakePolynomial e None) ->
  match List.find (fun t => (1 <? total_degree t.1)%nat) (MakePolynomial e None) with
  | Some _ => DecomposeAffineExpression e m (length vars) = Err (DegreeExceeded e)
  | None =>
      (TotalDegree (MakePolynomial e None) <= 1)%nat /\
      exists (coeffs : list Q) (constant_term : Q) (num_variable : nat),
        DecomposeAffineExpression e m (length vars) =
          Ok (coeffs, constant_term, num_variable)
  end.
Proof.
  intros Hidx Hpoly Hterms.
  pose proof (DecomposeAffineExpression_fold_degree e vars m Hidx _ Hterms
                (Zero_vector (length vars), 0%Q, 0%nat) (repeat_length _ _)) as Hfold.
  unfold DecomposeAffineExpression.
  rewrite (index_of_size vars m Hidx), Nat.eqb_refl, Hpoly. simpl.
  destruct (List.find _ (MakePolynomial e None)) eqn:Hfind; [exact Hfold|].
  split; [now apply find_degree_None|].
  destruct Hfold as ([[coeffs c] k] & Hfold). eauto.
Qed.

(** The expression [x^2 + 1] over [x]. *)
Lemma DecomposeAffineExpression_degree_witness :
  let x := mkVariable 1 in
  let m : gmap N nat := <[1%N := 0%nat]> ∅ in
  let e := EAdd 1 [(EPow (EVar x) (EConstant 2), 1%Q)] in
  index_of [x] m /\
  @DecomposeAffineExpression reference_PolynomialOps e m 1 = Err (DegreeExceeded e).
Proof.
  intros x m e.
  pose proof (index_of_one x) as Hidx. split; [exact Hidx|].
  apply (@DecomposeAffineExpression_degree reference_PolynomialOps e [x] m Hidx).
  - reflexivity.
  - vm_compute. repeat constructor; simpl; try lia; apply list_elem_of_In; simpl; auto.
Defined.

Lemma ExtractVariablesFromExpressions_indexes (es : list Expression) :
  exists m : gmap N nat,
    ExtractVariablesFromExpressions es =
      (first_occurrences (concat (map GetVariables es)), m) /\
    index_of (first_occurrences (concat (map GetVariables es))) m /\
    size m = length (first_occurrences (concat (map GetVariables es))).
Proof.
  destruct (ExtractAndAppend_fold_index (concat (map GetVariables es)) [] ∅
              index_of_empty) as (m & Hfold & Hidx & Hsize); [reflexivity|].
  exists m. unfold ExtractVariablesFromExpressions.
  rewrite (fold_left_map (fun st l => fold_left ExtractVariables_push l st)
             GetVariables es).
  rewrite fold_left_concat.
  rewrite (fold_left_ext_eq _ _ _ _ push_step_eq).
  auto.
Qed.

Lemma term_ok_weaken (vars vars' : list variable) (t : Monomial * Expression) :
  (forall v, v ∈ vars -> v ∈ vars') -> term_ok vars t -> term_ok vars' t.
Proof.
  intros Hsub (Hc & Hz & Hm & Hv). repeat (split; [assumption|]).
  eapply Forall_impl; [exact Hv|]. intros p. apply Hsub.
Qed.

Section mapM_total.
Context {A B : Type} (f : A -> result B) (P : A -> B -> Prop).

Lemma mapM_Ok_intro (l : list A) :
  (forall x, x ∈ l -> exists y, f x = Ok y /\ P x y) ->
  exists ys, mapM f l = Ok ys /\ Forall2 P l ys.
Proof.
  induction l as [|x l IH]; intros Hf; simpl.
  - exists []. split; [reflexivity|constructor].
  - destruct (Hf x) as (y & Hy & HP); [left|].
    destruct IH as (ys & Hys & HF); [intros a Ha; apply Hf; now right|].
    exists (y :: ys). rewrite Hy, Hys. split; [reflexivity|now constructor].
Qed.
End mapM_total.

(** X11.  For a vector [v] of affine expressions whose polynomials are
    as the constructor leaves them, [DecomposeAffineExpressions(v, A,
    b, vars)] returns the variables of [v] in the order of the indexer,
    and [A] and [b] with one row per expression such that row [i] of
    [A * vars + b] has the value of the polynomial of [v_i] under
    every assignment. *)
Theorem DecomposeAffineExpressions_A_b_vars_correct `{Interpretation} `{PolynomialOps}
    (v : list Expression) :
  (forall e_i, e_i ∈ v ->
     is_polynomial e_i = true /\
     affine_polynomial (GetVariables e_i) (MakePolynomial e_i None)) ->
  exists (A : list (list Q)) (b : list Q),
    let vars := first_occurrences (concat (map GetVariables v)) in
    DecomposeAffineExpressions_A_b_vars v = Ok (A, b, vars) /\
    length A = length v /\ length b = length v /\
    forall i e_i, v !! i = Some e_i ->
      exists (A_i : list Q) (b_i : Q),
        A !! i = Some A_i /\ b !! i = Some b_i /\ length A_i = length vars /\
        forall env,
          (dot A_i (map env vars) + b_i ==
           Polynomial_value env (MakePolynomial e_i None))%Q.
Proof.
  intros Hrows.
  destruct (ExtractVariablesFromExpressions_indexes v) as (m & Hextract & Hidx & Hsize).
  set (vars := first_occurrences (concat (map GetVariables v))) in *.
  destruct (mapM_Ok_intro
              (fun e_i => DecomposeAffineExpression e_i m (length vars))
              (fun e_i r =>
                 length r.1.1 = length vars /\
                 forall env,
                   (dot r.1.1 (map env vars) + r.1.2 ==
                    Polynomial_value env (MakePolynomial e_i None))%Q) v)
    as (rows & Hmap & Hall).
  { intros e_i He. destruct (Hrows e_i He) as (Hpoly & Hterms & Hdeg & Hnd).
    assert (Hterms' : Forall (term_ok vars) (MakePolynomial e_i None)).
    { eapply Forall_impl; [exact Hterms|]. intros t. apply term_ok_weaken.
      intros x Hx. apply first_occurrences_elem, list_elem_of_In, in_concat.
      exists (GetVariables e_i). split; [|now apply list_elem_of_In].
      apply in_map. now apply list_elem_of_In. }
    destruct (DecomposeAffineExpression_fold e_i vars m Hidx _ Hterms' Hdeg Hnd
                (Zero_vector (length vars), 0%Q, 0%nat))
      as ([[coeffs c] k] & Hfold & Hlen & Hval & _).
    { apply repeat_length. }
    { split; simpl; [|reflexivity]. intros x i _ _. now rewrite vcoeff_Zero_vector. }
    exists (coeffs, c, k). unfold DecomposeAffineExpression.
    rewrite Hsize, Nat.eqb_refl, Hpoly. simpl. split; [exact Hfold|].
    split; [assumption|]. intros env. rewrite (Hval env). simpl.
    rewrite dot_zero_l. ring. }
  exists (map (fun r => r.1.1) rows), (map (fun r => r.1.2) rows). cbv zeta.
  unfold DecomposeAffineExpressions_A_b_vars. rewrite Hextract, Hmap. simpl.
  split; [reflexivity|].
  pose proof (Forall2_length _ _ _ Hall) as Hlen.
  split; [now rewrite length_map|]. split; [now rewrite length_map|].
  intros i e_i Hi.
  destruct (Forall2_lookup_l _ _ _ _ _ Hall Hi) as (r & Hr & Hlen_r & Hval).
  exists r.1.1, r.1.2. rewrite !list_lookup_fmap, Hr. simpl. auto.
Qed.

(** The rows [3 y + 4] and [2 x + 5 y]: the variables come out as [y, x]. *)
Lemma DecomposeAffineExpressions_A_b_vars_correct_witness :
  let x := mkVariable 1 in
  let y := mkVariable 2 in
  let v := [EAdd 4 [(EVar y, 3%Q)]; EAdd 0 [(EVar x, 2%Q); (EVar y, 5%Q)]] in
  @DecomposeAffineExpressions_A_b_vars reference_PolynomialOps v =
    Ok ([[3; 0]; [5; 2]], [4; 0], [y; x])%Q /\
  exists (A : list (list Q)) (b : list Q),
    let vars := first_occurrences (concat (map GetVariables v)) in
    @DecomposeAffineExpressions_A_b_vars reference_PolynomialOps v = Ok (A, b, vars) /\
    length A = length v /\ length b = length v /\
    forall i e_i, v !! i = Some e_i ->
      exists (A_i : list Q) (b_i : Q),
        A !! i = Some A_i /\ b !! i = Some b_i /\ length A_i = length vars /\
        forall env,
          (dot A_i (map env vars) + b_i ==
           @Polynomial_value reference_Interpretation env
             (@MakePolynomial reference_PolynomialOps e_i None))%Q.
Proof.
  intros x y v. split; [vm_compute; reflexivity|].
  apply (@DecomposeAffineExpressions_A_b_vars_correct reference_Interpretation
           reference_PolynomialOps v).
  intros e_i He.
  apply elem_of_cons in He as [->|He];
    [|apply elem_of_cons in He as [->|He]; [|now apply elem_of_nil in He]].
  - split; [reflexivity|]. vm_compute. split; [|split; [lia|]].
    + repeat constructor; simpl; try lia; apply list_elem_of_In; simpl; auto.
    + apply NoDup_ListNoDup. repeat constructor; simpl; intuition discriminate.
  - split; [reflexivity|]. vm_compute. split; [|split; [lia|]].
    + repeat constructor; simpl; try lia; apply list_elem_of_In; simpl; auto.
    + apply NoDup_ListNoDup. repeat constructor; simpl; intuition discriminate.
Defined.

(** ** DecomposeQuadraticPolynomial in exact arithmetic: the degree *)

Lemma DecomposeQuadraticPolynomial_step_in_Q_degree (m : gmap N nat) (n : nat)
    (st : list (list Q) * list Q * Q) (t : Monomial * Expression) :
  is_constant t.2 = true -> is_zero t.2 = false -> (2 < total_degree t.1)%nat ->
  DecomposeQuadraticPolynomial_step_in_Q m n st t = Err (MonomialDegreeExceeded t.1).
Proof.
  intros Hc Hz Hdeg. destruct st as [[M b] c].
  unfold DecomposeQuadraticPolynomial_step_in_Q. rewrite Hc, Hz. simpl.
  destruct (Nat.ltb_spec 2 (total_degree t.1)); [reflexivity|lia].
Qed.

Lemma DecomposeQuadraticPolynomial_in_Q_fold_degree (vars : list variable) (m : gmap N nat)
    (poly : Polynomial) :
  index_of vars m -> Forall (term_ok vars) poly ->
  forall st, quad_state vars st ->
  match List.find (fun t => (2 <? total_degree t.1)%nat) poly with
  | Some t =>
      foldM (DecomposeQuadraticPolynomial_step_in_Q m (length vars)) poly st =
        Err (MonomialDegreeExceeded t.1)
  | None =>
      exists st', foldM (DecomposeQuadraticPolynomial_step_in_Q m (length vars)) poly st
                  = Ok st'
  end.
Proof.
  intros Hidx. induction 1 as [|t poly Ht Hpoly IH]; intros st Hst; simpl.
  - eauto.
  - destruct (Nat.ltb_spec 2 (total_degree t.1)) as [Hdeg|Hdeg].
    + destruct Ht as (Hc & Hz & _).
      now rewrite (DecomposeQuadraticPolynomial_step_in_Q_degree m _ st t Hc Hz Hdeg).
    + destruct (@DecomposeQuadraticPolynomial_step_in_Q_correct reference_Interpretation
                  vars m Hidx st t Hst Ht Hdeg) as (st' & Hstep & Hst' & _).
      rewrite Hstep. simpl. apply (IH st' Hst').
Qed.

(** In exact arithmetic the loop fails exactly when some monomial has
    total degree above two, and names the first one. *)
Lemma DecomposeQuadraticPolynomial_in_Q_degree (poly : Polynomial)
    (vars : list variable) (m : gmap N nat) :
  index_of vars m -> Forall (term_ok vars) poly ->
  match List.find (fun t => (2 <? total_degree t.1)%nat) poly with
  | Some t =>
      DecomposeQuadraticPolynomial_in_Q poly m (length vars) (length vars) (length vars) =
        Err (MonomialDegreeExceeded t.1)
  | None =>
      (TotalDegree poly <= 2)%nat /\
      exists (M : list (list Q)) (b : list Q) (c : Q),
        DecomposeQuadraticPolynomial_in_Q poly m (length vars) (length vars) (length vars) =
          Ok (M, b, c)
  end.
Proof.
  intros Hidx Hpoly.
  pose proof (DecomposeQuadraticPolynomial_in_Q_fold_degree vars m poly Hidx Hpoly
                (Zero_matrix (length vars) (length vars), Zero_vector (length vars), 0%Q))
    as Hfold.
  unfold DecomposeQuadraticPolynomial_in_Q.
  rewrite (index_of_size vars m Hidx), Nat.eqb_refl. simpl.
  destruct (List.find _ poly) as [t|] eqn:Hfind.
  - apply Hfold. split; [apply Zero_matrix_square|]. split; [apply repeat_length|].
    apply Zero_matrix_symmetric.
  - split.
    + clear Hfold Hpoly. induction poly as [|t poly IH]; simpl in *; [lia|].
      destruct (Nat.ltb_spec 2 (total_degree t.1)); [discriminate|].
      specialize (IH Hfind). unfold TotalDegree in *. simpl. lia.
    + destruct Hfold as ([[M b] c] & Hfold).
      { split; [apply Zero_matrix_square|]. split; [apply repeat_length|].
        apply Zero_matrix_symmetric. }
      exists M, b, c. exact Hfold.
Qed.

(** ** DecomposeQuadraticPolynomial in exact arithmetic: the entries *)

Lemma variable_eqb_eq (v w : variable) : variable_eqb v w = true <-> v = w.
Proof.
  unfold variable_eqb. rewrite N.eqb_eq. split; [apply get_id_inj|now intros ->].
Qed.

Lemma Monomial_eqb_eq (a b : Monomial) : Monomial_eqb a b = true <-> a = b.
Proof.
  revert b. induction a as [|[v k] a IH]; intros [|[w j] b]; simpl;
    try (split; [discriminate|discriminate]); [tauto|].
  rewrite !andb_true_iff, variable_eqb_eq, Nat.eqb_eq, IH.
  split; [intros [[-> ->] ->]; reflexivity|intros [= -> -> ->]; auto].
Qed.

Lemma share_same (mono : Monomial) (c : Expression) :
  share (mono, c) mono = get_constant_value c.
Proof.
  unfold share. simpl. now rewrite (proj2 (Monomial_eqb_eq mono mono) eq_refl).
Qed.

Lemma share_other (mono mono' : Monomial) (c : Expression) :
  mono <> mono' -> share (mono, c) mono' = 0%Q.
Proof.
  intros Hne. unfold share. simpl.
  destruct (Monomial_eqb mono mono') eqn:Heq; [|reflexivity].
  now apply Monomial_eqb_eq in Heq.
Qed.

Lemma vcoeff_insert_eq (l : list Q) (i : nat) (c : Q) :
  (i < length l)%nat -> vcoeff (<[i := c]> l) i = c.
Proof.
  intros Hi. unfold vcoeff. rewrite nth_lookup.
  now rewrite list_lookup_insert_eq.
Qed.

Section Quadratic_entries.
Variables (vars : list variable) (m : gmap N nat).
Hypothesis Hidx : index_of vars m.

Lemma lookup_vars_inj (i j : nat) (v : variable) :
  vars !! i = Some v -> vars !! j = Some v -> i = j.
Proof.
  pose proof (index_of_NoDup vars m Hidx) as Hnd.
  rewrite NoDup_alt in Hnd. apply Hnd.
Qed.

Lemma DecomposeQuadraticPolynomial_step_in_Q_entries
    (st : list (list Q) * list Q * Q) (t : Monomial * Expression) :
  quad_state vars st -> term_ok vars t -> (total_degree t.1 <= 2)%nat ->
  exists st',
    DecomposeQuadraticPolynomial_step_in_Q m (length vars) st t = Ok st' /\
    entries_step vars (share t) st st'.
Proof.
  destruct st as [[M b] c], t as [mono ce].
  intros (Hsq & Hb & Hsym) (Hconst & Hnz & [Hinc Hpos] & Hin) Hdeg. simpl in *.
  destruct ce as [k| | | | |]; try discriminate.
  unfold DecomposeQuadraticPolynomial_step_in_Q.
  cbn [fst snd is_constant demand mbind result_bind].
  rewrite Hnz. cbn [negb demand mbind result_bind get_constant_value].
  destruct (Nat.ltb_spec 2 (total_degree mono)); [lia|].
  destruct mono as [|[v1 k1] [|[v2 k2] [|p3 rest]]].
  - (* constant term *)
    eexists. split; [reflexivity|]. split; [|split]; cbn [fst snd].
    + rewrite share_same. reflexivity.
    + intros i v Hi. rewrite !share_other by discriminate. split; ring.
    + intros i j vi vj Hi Hj Hlt. rewrite share_other by discriminate. ring.
  - (* one variable *)
    inversion Hpos as [|? ? Hk1 _]; subst. inversion Hin as [|? ? Hv1 _]; subst.
    simpl in Hk1, Hv1, Hdeg.
    destruct (at_index_elem vars m Hidx v1 Hv1) as (i1 & Hat & Hi1 & Hlt1).
    rewrite Hat.
    assert (k1 = 1 \/ k1 = 2)%nat as [-> | ->] by lia.
    + cbn. unfold in_range. destruct (Nat.ltb_spec i1 (length vars)); [|lia]. cbn.
      eexists. split; [reflexivity|]. split; [|split]; cbn [fst snd].
      * rewrite share_other by discriminate. ring.
      * intros i v Hi. rewrite (share_other _ [(v, 2%nat)]) by congruence.
        split; [|ring].
        destruct (decide (i1 = i)) as [<-|Hne].
        -- assert (v = v1) as -> by congruence.
           rewrite vcoeff_insert_eq by lia. rewrite share_same. reflexivity.
        -- rewrite vcoeff_insert_ne by assumption.
           rewrite share_other; [ring|].
           intros [= ->]. apply Hne. now apply (lookup_vars_inj _ _ v).
      * intros i j vi vj Hi Hj Hlt. rewrite share_other by discriminate. ring.
    + cbn. unfold in_range. destruct (Nat.ltb_spec i1 (length vars)); [|lia]. cbn.
      pose proof (square_row _ M i1 Hsq Hlt1) as Hrow.
      destruct Hsq as [HlenM Hrows].
      eexists. split; [reflexivity|]. split; [|split]; cbn [fst snd].
      * rewrite share_other by discriminate. ring.
      * intros i v Hi. rewrite (share_other _ [(v, 1%nat)]) by congruence.
        split; [ring|].
        rewrite coeff_set_coeff by lia.
        destruct (decide (i1 = i)) as [<-|Hne].
        -- assert (v = v1) as -> by congruence.
           rewrite decide_True by tauto. rewrite share_same. reflexivity.
        -- rewrite decide_False by tauto.
           rewrite share_other; [ring|].
           intros [= ->]. apply Hne. now apply (lookup_vars_inj _ _ v).
      * intros i j vi vj Hi Hj Hlt. rewrite share_other by discriminate.
        rewrite coeff_set_coeff by lia.
        rewrite decide_False; [ring|].
        intros [<- <-]. assert (vi = vj) by congruence. subst. lia.
  - (* two variables *)
    inversion Hpos as [|? ? Hk1 Hpos']; subst. inversion Hpos' as [|? ? Hk2 _]; subst.
    inversion Hin as [|? ? Hv1 Hin']; subst. inversion Hin' as [|? ? Hv2 _]; subst.
    simpl in Hk1, Hk2, Hv1, Hv2, Hdeg.
    assert (k1 = 1)%nat as -> by lia. assert (k2 = 1)%nat as -> by lia.
    destruct (at_index_elem vars m Hidx v1 Hv1) as (i1 & Hat1 & Hi1 & Hlt1).
    destruct (at_index_elem vars m Hidx v2 Hv2) as (i2 & Hat2 & Hi2 & Hlt2).
    assert (get_id v1 < get_id v2)%N as Hids.
    { simpl in Hinc. inversion Hinc as [|? ? _ Hlt]; subst.
      now inversion Hlt; subst. }
    assert (i1 <> i2) as Hne.
    { intros ->. assert (v1 = v2) by congruence. subst. lia. }
    rewrite Hat1. cbn. rewrite Hat2. cbn.
    unfold in_range. destruct (Nat.ltb_spec i1 (length vars)); [|lia].
    destruct (Nat.ltb_spec i2 (length vars)); [|lia]. cbn.
    pose proof (square_row _ M i1 Hsq Hlt1) as Hrow1.
    pose proof (square_set_coeff _ M i1 i2 (coeff M i1 i2 + k)%Q Hsq) as Hsq1.
    pose proof (square_row _ _ i2 Hsq1 Hlt2) as Hrow2.
    destruct Hsq as [HlenM Hrows]. destruct Hsq1 as [HlenM1 Hrows1].
    eexists. split; [reflexivity|]. split; [|split]; cbn [fst snd].
    + rewrite share_other by discriminate. ring.
    + intros i v Hi. rewrite !share_other by discriminate.
      split; [ring|].
      rewrite !coeff_set_coeff by lia.
      rewrite (decide_False (P := i2 = i /\ i1 = i)) by lia.
      rewrite (decide_False (P := i1 = i /\ i2 = i)) by lia. ring.
    + intros i j vi vj Hi Hj Hlt.
      rewrite !coeff_set_coeff by lia.
      rewrite (decide_True (P := i1 = i1 /\ i2 = i2)) by tauto.
      destruct (decide (i2 = i /\ i1 = j)) as [[<- <-]|Hne1].
      { assert (vi = v2) by congruence. assert (vj = v1) by congruence. subst. lia. }
      destruct (decide (i1 = i /\ i2 = j)) as [[<- <-]|Hne2].
      * assert (vi = v1) by congruence. assert (vj = v2) by congruence. subst.
        rewrite share_same. reflexivity.
      * rewrite share_other; [ring|].
        intros [= -> ->]. apply Hne2.
        split; [now apply (lookup_vars_inj _ _ vi)|now apply (lookup_vars_inj _ _ vj)].
  - (* three variables or more *)
    inversion Hpos as [|? ? Hk1 Hpos']; subst. inversion Hpos' as [|? ? Hk2 Hpos'']; subst.
    inversion Hpos'' as [|? ? Hk3 _]; subst.
    simpl in Hk1, Hk2, Hk3, Hdeg. lia.
Qed.
End Quadratic_entries.


Lemma entries_step_refl (vars : list variable) (st : list (list Q) * list Q * Q) :
  entries_step vars (fun _ => 0%Q) st st.
Proof.
  split; [ring|]. split; [intros i v _; split; ring|intros; ring].
Qed.

Lemma entries_step_trans (vars : list variable) (add1 add2 : Monomial -> Q)
    (st st1 st2 : list (list Q) * list Q * Q) :
  entries_step vars add1 st st1 -> entries_step vars add2 st1 st2 ->
  entries_step vars (fun mono => (add1 mono + add2 mono)%Q) st st2.
Proof.
  intros (Hc1 & Hd1 & Ho1) (Hc2 & Hd2 & Ho2). split; [|split].
  - rewrite Hc2, Hc1. ring.
  - intros i v Hi. destruct (Hd1 i v Hi) as [Hb1 Hm1], (Hd2 i v Hi) as [Hb2 Hm2].
    split; [rewrite Hb2, Hb1|rewrite Hm2, Hm1]; ring.
  - intros i j vi vj Hi Hj Hlt.
    rewrite (Ho2 i j vi vj Hi Hj Hlt), (Ho1 i j vi vj Hi Hj Hlt). ring.
Qed.

Lemma DecomposeQuadraticPolynomial_in_Q_fold_entries (vars : list variable) (m : gmap N nat)
    (poly : Polynomial) :
  index_of vars m -> Forall (term_ok vars) poly -> (TotalDegree poly <= 2)%nat ->
  forall st, quad_state vars st ->
  exists st',
    foldM (DecomposeQuadraticPolynomial_step_in_Q m (length vars)) poly st = Ok st' /\
    quad_state vars st' /\
    entries_step vars (share_sum poly) st st'.
Proof.
  intros Hidx. induction 1 as [|t poly Ht Hpoly IH]; intros Hdeg st Hst.
  - exists st. split; [reflexivity|]. split; [assumption|]. apply entries_step_refl.
  - apply TotalDegree_cons in Hdeg as [Hdt Hdeg].
    destruct (@DecomposeQuadraticPolynomial_step_in_Q_correct reference_Interpretation
                vars m Hidx st t Hst Ht Hdt) as (st1 & Hstep & Hst1 & _).
    destruct (DecomposeQuadraticPolynomial_step_in_Q_entries vars m Hidx st t Hst Ht Hdt)
      as (st1' & Hstep' & Hent1).
    rewrite Hstep in Hstep'. injection Hstep' as <-.
    destruct (IH Hdeg st1 Hst1) as (st2 & Hfold & Hst2 & Hent2).
    exists st2. cbn [foldM]. rewrite Hstep. cbn [mbind result_bind].
    split; [exact Hfold|]. split; [assumption|].
    exact (entries_step_trans vars _ _ st st1 st2 Hent1 Hent2).
Qed.

Lemma share_sum_coefficient (poly : Polynomial) (mono : Monomial) :
  NoDup (map fst poly) -> (share_sum poly mono == coefficient poly mono)%Q.
Proof.
  induction poly as [|[k c] poly IH]; intros Hnd; [reflexivity|].
  simpl in Hnd. apply NoDup_cons in Hnd as [Hk Hnd].
  unfold coefficient. cbn [share_sum fold_right find].
  fold (share_sum poly mono).
  destruct (Monomial_eqb k mono) eqn:Heq.
  - apply Monomial_eqb_eq in Heq as ->. rewrite share_same.
    assert (Hzero : (share_sum poly mono == 0)%Q).
    { clear IH Hnd. induction poly as [|[k' c'] poly IH]; [reflexivity|].
      cbn [share_sum fold_right]. fold (share_sum poly mono).
      rewrite share_other, IH; [ring| |].
      - intros Hin. apply Hk. simpl. now right.
      - intros ->. apply Hk. simpl. left. }
    rewrite Hzero. simpl. ring.
  - rewrite share_other by (intros ->; rewrite (proj2 (Monomial_eqb_eq _ _) eq_refl) in Heq;
                            discriminate).
    rewrite (IH Hnd). unfold coefficient. ring.
Qed.

(** In exact arithmetic the loop returns the coefficients of the
    polynomial, each at its place, when the monomials are distinct. *)
Lemma DecomposeQuadraticPolynomial_in_Q_entries (poly : Polynomial)
    (vars : list variable) (m : gmap N nat) :
  index_of vars m -> Forall (term_ok vars) poly -> (TotalDegree poly <= 2)%nat ->
  NoDup (map fst poly) ->
  exists (M : list (list Q)) (b : list Q) (c : Q),
    DecomposeQuadraticPolynomial_in_Q poly m (length vars) (length vars) (length vars)
      = Ok (M, b, c) /\
    (c == coefficient poly [])%Q /\
    (forall i v, vars !! i = Some v ->
       (vcoeff b i == coefficient poly [(v, 1%nat)])%Q /\
       (coeff M i i == 2 * coefficient poly [(v, 2%nat)])%Q) /\
    (forall i j vi vj, vars !! i = Some vi -> vars !! j = Some vj ->
       (get_id vi < get_id vj)%N ->
       (coeff M i j == coefficient poly [(vi, 1%nat); (vj, 1%nat)])%Q /\
       (coeff M j i == coefficient poly [(vi, 1%nat); (vj, 1%nat)])%Q).
Proof.
  intros Hidx Hpoly Hdeg Hnd.
  destruct (DecomposeQuadraticPolynomial_in_Q_fold_entries vars m poly Hidx Hpoly Hdeg
              (Zero_matrix (length vars) (length vars), Zero_vector (length vars), 0%Q))
    as ([[M b] c] & Hfold & (_ & _ & Hsym) & Hc & Hdiag & Hoff).
  { split; [apply Zero_matrix_square|]. split; [apply repeat_length|].
    apply Zero_matrix_symmetric. }
  cbn [fst snd] in Hc, Hdiag, Hoff, Hsym.
  assert (Hzero : forall i j, coeff (Zero_matrix (length vars) (length vars)) i j = 0%Q).
  { intros i j. unfold coeff, Zero_matrix.
    destruct (nth_in_or_default i (repeat (Zero_vector (length vars)) (length vars)) [])
      as [Hin | ->]; [|now destruct j].
    apply repeat_spec in Hin. rewrite Hin. apply vcoeff_Zero_vector. }
  exists M, b, c. unfold DecomposeQuadraticPolynomial_in_Q.
  rewrite (index_of_size vars m Hidx), Nat.eqb_refl. simpl.
  split; [exact Hfold|]. split; [|split].
  - rewrite Hc, share_sum_coefficient by assumption. ring.
  - intros i v Hi. destruct (Hdiag i v Hi) as [Hb HM].
    rewrite Hb, HM, vcoeff_Zero_vector, Hzero, !share_sum_coefficient by assumption.
    split; ring.
  - intros i j vi vj Hi Hj Hlt.
    rewrite (Hsym j i), (Hoff i j vi vj Hi Hj Hlt), Hzero,
      share_sum_coefficient by assumption.
    split; ring.
Qed.

(** ** SimpleMultiplication *)

Lemma length_outer_product_mul (f : Expression -> Expression -> Expression)
    (u v : list Expression) :
  length (outer_product f u v) = (length u * length v)%nat.
Proof.
  unfold outer_product. induction v as [|y v IH]; simpl; [lia|].
  rewrite length_app, length_map, IH. lia.
Qed.

(** X14.  When [w_b] has at most one entry, [SimpleMultiplication(a, b)]
    returns [N = |w_a| * |w_b| + (|w_b| if w0_a is not zero) + (|w_a|
    if w0_b is not zero)] weights and as many parameter terms, and its
    value, [sum_i w_i * alpha_i + w0], is the product of the values of
    [a] and [b]. *)
Theorem SimpleMultiplication_size_and_value `{Algebra} (a b : LumpedFactorization) :
  paired a -> paired b -> (length b.1.1 <= 1)%nat ->
  let N :=
    (length a.1.1 * length b.1.1
     + (if is_zero a.2 then 0 else length b.1.1)
     + (if is_zero b.2 then 0 else length a.1.1))%nat in
  length (SimpleMultiplication a b).1.1 = N /\
  length (SimpleMultiplication a b).1.2 = N /\
  forall env,
    (factorization_value env (SimpleMultiplication a b) ==
     factorization_value env a * factorization_value env b)%Q.
Proof.
  intros Ha Hb _ N.
  pose proof (SimpleMultiplication_paired a b Ha Hb) as Hpaired.
  assert (HN : length (SimpleMultiplication a b).1.1 = N).
  { subst N. destruct a as [[w_a alpha_a] w0_a], b as [[w_b alpha_b] w0_b]. simpl.
    rewrite !length_app, length_outer_product_mul.
    destruct (is_zero w0_a), (is_zero w0_b); simpl; rewrite ?length_map; lia. }
  split; [exact HN|]. split; [unfold paired in Hpaired; congruence|].
  intros env. now apply SimpleMultiplication_value.
Qed.

(** The product of [x * p + y] and [1 * q + 0]. *)
Lemma SimpleMultiplication_size_and_value_witness :
  let x := mkVariable 1 in
  let y := mkVariable 2 in
  let p := mkVariable 3 in
  let q := mkVariable 4 in
  let a : LumpedFactorization := ([EVar x], [EVar p], EVar y) in
  let b : LumpedFactorization := ([EConstant 1], [EVar q], EConstant 0) in
  paired a /\ paired b /\ (length b.1.1 <= 1)%nat /\
  @SimpleMultiplication _ reference_Algebra a b =
    ([EVar x; EVar y],
     [EMul 1 [(EVar p, EConstant 1); (EVar q, EConstant 1)]; EVar q],
     EConstant 0) /\
  length (@SimpleMultiplication _ reference_Algebra a b).1.1 = 2%nat /\
  length (@SimpleMultiplication _ reference_Algebra a b).1.2 = 2%nat /\
  forall env,
    (@factorization_value reference_Interpretation env
       (@SimpleMultiplication _ reference_Algebra a b) ==
     @factorization_value reference_Interpretation env a *
     @factorization_value reference_Interpretation env b)%Q.
Proof.
  intros x y p q a b.
  split; [reflexivity|]. split; [reflexivity|]. split; [simpl; lia|].
  split; [vm_compute; reflexivity|].
  exact (@SimpleMultiplication_size_and_value _ reference_Algebra a b eq_refl eq_refl
           (le_n 1)).
Defined.

(** ** Sums whose terms share a weight *)

Section Lumping.
Context `{UnitSimplification}.

Ltac units :=
  repeat match goal with
    | |- context [emul ?x ?y] =>
        first
          [ rewrite (emul_one_l x y) by reflexivity
          | rewrite (emul_one_r x y) by (assumption || reflexivity)
          | rewrite (emul_zero_l x y) by (assumption || reflexivity)
          | rewrite (emul_zero_r x y) by (assumption || reflexivity) ]
    | |- context [eadd ?x ?y] =>
        first
          [ rewrite (eadd_zero_l x y) by reflexivity
          | rewrite (eadd_zero_r x y) by (assumption || reflexivity) ]
    end.

(** X15.  On [a * p1 + a * p2], with [a] a state-only term and [p1],
    [p2] parameters, the two terms carry the same weight [a] and the
    addition step, keyed by the weight, lumps their parameters: the
    factoriser returns the single weight [a] paired with the parameter
    term [p1 + p2], and so does [DecomposeLumpedParameters], with
    [w0 = [0]]. *)
Theorem addition_lumps_parameters_of_equal_weight
    (parameters : list variable) (a : Expression) (p1 p2 : variable)
    (fs1 fs2 : list (Expression * Expression)) :
  let e := EAdd 0 [(EMul 1 fs1, 1%Q); (EMul 1 fs2, 1%Q)] in
  include (make_variables parameters) p1 = true ->
  include (make_variables parameters) p2 = true ->
  state_atom (make_variables parameters) a ->
  Permutation [(a, EConstant 1); (EVar p1, EConstant 1)] fs1 ->
  Permutation [(a, EConstant 1); (EVar p2, EConstant 1)] fs2 ->
  Expand e = e ->
  Decompose e (make_variables parameters) =
    Ok ([a], [eadd (EVar p1) (EVar p2)], EConstant 0) /\
  DecomposeLumpedParameters [e] parameters =
    Ok ([[a]], [eadd (EVar p1) (EVar p2)], [EConstant 0]).
Proof.
  intros e Hp1 Hp2 Ha Hfs1 Hfs2 Hexp.
  pose proof (Visit_state_times_parameter _ _ _ _ Hp1 Ha Hfs1) as Hv1.
  pose proof (Visit_state_times_parameter _ _ _ _ Hp2 Ha Hfs2) as Hv2.
  destruct Ha as (_ & Hza & Hoa).
  assert (Hdec : Decompose e (make_variables parameters) =
            Ok ([a], [eadd (EVar p1) (EVar p2)], EConstant 0)).
  { unfold Decompose. rewrite Hexp. subst e.
    cbn [Visit]. unfold VisitAddition. cbn [foldM].
    rewrite !VisitAddition_step_unfold, Hv1.
    cbn [mbind result_bind fst snd combine fold_left emplace_then]. units.
    rewrite VisitAddition_step_unfold, Hv2.
    cbn [mbind result_bind fst snd combine fold_left emplace_then]. units.
    rewrite Less_irrefl. cbn [mbind result_bind fst snd map]. reflexivity. }
  split; [exact Hdec|].
  unfold DecomposeLumpedParameters. cbn [foldM length].
  rewrite DecomposeLumpedParameters_step_unfold, Hdec.
  cbn [mbind result_bind fst snd combine fold_left emplace_then].
  cbn. units. reflexivity.
Qed.
End Lumping.

(** The sum [x * p1 + x * p2] with the parameters [p1] and [p2]. *)
Lemma addition_lumps_parameters_of_equal_weight_witness :
  let x := mkVariable 1 in
  let p1 := mkVariable 2 in
  let p2 := mkVariable 3 in
  let e :=
    EAdd 0 [(EMul 1 [(EVar x, EConstant 1); (EVar p1, EConstant 1)], 1%Q);
            (EMul 1 [(EVar x, EConstant 1); (EVar p2, EConstant 1)], 1%Q)] in
  @Decompose _ reference_Algebra e (make_variables [p1; p2]) =
    Ok ([EVar x], [EAdd 0 [(EVar p1, 1%Q); (EVar p2, 1%Q)]], EConstant 0) /\
  @DecomposeLumpedParameters _ reference_Algebra [e] [p1; p2] =
    Ok ([[EVar x]], [EAdd 0 [(EVar p1, 1%Q); (EVar p2, 1%Q)]], [EConstant 0]).
Proof.
  intros x p1 p2 e.
  apply (@addition_lumps_parameters_of_equal_weight _ _ reference_UnitSimplification
           [p1; p2] (EVar x) p1 p2
           [(EVar x, EConstant 1); (EVar p1, EConstant 1)]
           [(EVar x, EConstant 1); (EVar p2, EConstant 1)]);
    try reflexivity.
  apply (@state_atom_variable _ reference_Algebra). reflexivity.
Defined.

(** ** Expressions without parameters *)

Lemma without_parameters_spec (parameters : variables) (e : Expression) :
  without_parameters parameters e = true <->
  forall v, v ∈ GetVariables e -> include parameters v = false.
Proof.
  unfold without_parameters, intersect.
  induction (GetVariables e) as [|w s IH]; simpl.
  - split; [intros _ v Hv; now apply elem_of_nil in Hv|reflexivity].
  - destruct (include parameters w) eqn:Hw; simpl.
    + split; [discriminate|]. intros Hall.
      rewrite (Hall w) in Hw by left. discriminate.
    + rewrite IH. split.
      * intros Hall v Hv. apply elem_of_cons in Hv as [->|Hv]; auto.
      * intros Hall v Hv. apply Hall. now right.
Qed.

Lemma without_parameters_sub (parameters : variables) (e e' : Expression) :
  (forall v, v ∈ scan e' -> v ∈ scan e) ->
  without_parameters parameters e = true -> without_parameters parameters e' = true.
Proof.
  rewrite !without_parameters_spec. intros Hsub Hall v Hv.
  apply Hall, GetVariables_scan, Hsub, GetVariables_scan, Hv.
Qed.

Lemma opaque_without_parameters (parameters : variables) (e : Expression) :
  without_parameters parameters e = true ->
  vars_empty (GetVariables e) = false ->
  IsSubsetOf (GetVariables e) parameters = false /\
  vars_empty (intersect (GetVariables e) parameters) = true.
Proof.
  intros Hwo Hne. split; [|exact Hwo].
  rewrite without_parameters_spec in Hwo. unfold IsSubsetOf.
  destruct (GetVariables e) as [|v s]; [discriminate|]. simpl.
  now rewrite (Hwo v) by left.
Qed.

Section State_only.
Context `{Algebra}.

Lemma VisitPow_without_parameters (parameters : variables) (e : Expression) :
  without_parameters parameters e = true ->
  vars_empty (GetVariables e) = false ->
  VisitPow e parameters = Ok ([], [], e).
Proof.
  intros Hwo Hne. destruct (opaque_without_parameters _ _ Hwo Hne) as [Hsub Hint].
  unfold VisitPow. now rewrite Hsub, Hint.
Qed.

Lemma VisitNonPolynomialTerm_without_parameters (parameters : variables)
    (e : Expression) :
  without_parameters parameters e = true ->
  vars_empty (GetVariables e) = false ->
  VisitNonPolynomialTerm e parameters = Ok ([], [], e).
Proof.
  intros Hwo Hne. destruct (opaque_without_parameters _ _ Hwo Hne) as [Hsub Hint].
  unfold VisitNonPolynomialTerm. now rewrite Hsub, Hint.
Qed.

Lemma SimpleMultiplication_empty (w0_a w0_b : Expression) :
  SimpleMultiplication ([], [], w0_a) ([], [], w0_b) = ([], [], emul w0_a w0_b).
Proof.
  unfold SimpleMultiplication. simpl.
  destruct (is_zero w0_a), (is_zero w0_b); reflexivity.
Qed.

Lemma Visit_without_parameters (parameters : variables) (e : Expression) :
  without_parameters parameters e = true ->
  opaque_nodes_have_variables e = true ->
  exists w0, Visit parameters e = Ok ([], [], w0).
Proof.
  induction e as [c|v|c0 ts IH|c fs IH|b x _ _|k args _]
    using Expression_nested_ind; intros Hwo Hop.
  - eexists. reflexivity.
  - exists (EVar v). cbn [Visit]. unfold VisitVariable. cbn [get_variable].
    rewrite without_parameters_spec in Hwo. now rewrite (Hwo v) by left.
  - cbn [Visit]. unfold VisitAddition.
    assert (Hfold : forall w0, exists w0',
              foldM (VisitAddition_step (Visit parameters)) ts ([], w0) = Ok ([], w0')).
    { assert (Hsub : forall t c, In (t, c) ts ->
                without_parameters parameters t = true).
      { intros t c Hin. apply (without_parameters_sub parameters (EAdd c0 ts)); [|exact Hwo].
        intros v Hv. simpl. apply list_elem_of_In, in_flat_map.
        exists (t, c). split; [assumption|now apply list_elem_of_In]. }
      clear Hwo. simpl in Hop. induction IH as [|[t c] ts Ht Hts IHts]; intros w0.
      - eexists. reflexivity.
      - simpl in Hop. apply andb_true_iff in Hop as [Hop1 Hop2].
        destruct (Ht (Hsub t c (or_introl eq_refl)) Hop1) as [w0_t Hvt].
        cbn [foldM]. rewrite VisitAddition_step_unfold. simpl in Hvt. rewrite Hvt.
        cbn [mbind result_bind fst snd combine fold_left].
        apply IHts; [assumption|]. intros t' c' Hin. apply (Hsub t' c'). now right. }
    destruct (Hfold (EConstant c0)) as [w0' Hw0']. rewrite Hw0'.
    eexists. reflexivity.
  - cbn [Visit]. unfold VisitMultiplication.
    assert (Hfold : forall w0, exists w0',
              foldM (VisitMultiplication_step (Visit parameters) parameters) fs
                ([], [], w0) = Ok ([], [], w0')).
    { assert (Hsub : forall b x, In (b, x) fs ->
                without_parameters parameters b = true /\
                without_parameters parameters (pow b x) = true).
      { intros b x Hin.
        split; apply (without_parameters_sub parameters (EMul c fs)); try exact Hwo;
          intros v Hv; simpl; apply list_elem_of_In, in_flat_map;
          exists (b, x); (split; [assumption|]); apply list_elem_of_In; simpl.
        - apply elem_of_app. now left.
        - exact Hv. }
      clear Hwo. simpl in Hop. induction IH as [|[b x] fs [Hb _] Hfs IHfs]; intros w0.
      - eexists. reflexivity.
      - simpl in Hop. apply andb_true_iff in Hop as [Hop1 Hop2].
        destruct (Hsub b x (or_introl eq_refl)) as [Hwb Hwp].
        cbn [foldM]. rewrite VisitMultiplication_step_unfold. unfold visit_factor.
        simpl in Hop1, Hb. cbn [fst snd].
        destruct (is_one x).
        + destruct (Hb Hwb Hop1) as [w0_b Hvb]. rewrite Hvb.
          cbn [mbind result_bind]. rewrite SimpleMultiplication_empty.
          apply IHfs; [assumption|]. intros b' x' Hin. apply (Hsub b' x'). now right.
        + rewrite (VisitPow_without_parameters parameters (pow b x) Hwp)
            by now apply negb_true_iff.
          cbn [mbind result_bind]. rewrite SimpleMultiplication_empty.
          apply IHfs; [assumption|]. intros b' x' Hin. apply (Hsub b' x'). now right. }
    apply Hfold.
  - exists (EPow b x). cbn [Visit].
    apply VisitPow_without_parameters; [assumption|].
    simpl in Hop. now apply negb_true_iff.
  - exists (EOp k args). cbn [Visit].
    apply VisitNonPolynomialTerm_without_parameters; [assumption|].
    simpl in Hop. now apply negb_true_iff.
Qed.

Lemma DecomposeLumpedParameters_fold_empty (parameters : variables) (n : nat)
    (rest : list Expression) :
  (forall f_i, f_i ∈ rest -> exists w0_i, Decompose f_i parameters = Ok ([], [], w0_i)) ->
  forall i w0, exists i' w0',
    foldM (DecomposeLumpedParameters_step parameters n) rest (i, [], w0) =
      Ok (i', [], w0').
Proof.
  induction rest as [|f_i rest IH]; intros Hrows i w0.
  - do 2 eexists. reflexivity.
  - destruct (Hrows f_i) as [w0_i Hdec]; [left|].
    cbn [foldM]. rewrite DecomposeLumpedParameters_step_unfold, Hdec.
    cbn [mbind result_bind fst snd combine fold_left].
    apply IH. intros f_j Hj. apply Hrows. now right.
Qed.

(** X16.  If no variable of the expanded rows of [f] is a parameter
    (and every power or operator node the visitor dispatches on has a
    variable), [DecomposeLumpedParameters] returns a [W] without
    columns, an empty [alpha], and a [w0] whose entry [i] has the value
    of [f_i] under every assignment. *)
Theorem DecomposeLumpedParameters_without_parameters (f : list Expression)
    (parameters : list variable) :
  (forall f_i, f_i ∈ f ->
     without_parameters (make_variables parameters) (Expand f_i) = true /\
     opaque_nodes_have_variables (Expand f_i) = true) ->
  exists w0 : list Expression,
    DecomposeLumpedParameters f parameters = Ok (repeat [] (length f), [], w0) /\
    length w0 = length f /\
    forall i f_i, f !! i = Some f_i ->
      exists w0_i, w0 !! i = Some w0_i /\
        forall env, (Evaluate env w0_i == Evaluate env f_i)%Q.
Proof.
  intros Hrows.
  destruct (DecomposeLumpedParameters_fold_empty (make_variables parameters) (length f) f)
    with (i := 0%nat) (w0 := repeat (EConstant 0) (length f)) as (i' & w0 & Hfold).
  { intros f_i Hf. destruct (Hrows f_i Hf) as [Hwo Hop].
    unfold Decompose. now apply Visit_without_parameters. }
  pose proof (DecomposeLumpedParameters_fold _ _ f [] _ _ eq_refl
                (rows_done_initial (length f)) Hfold) as (_ & _ & Hlen & Hval & _).
  cbn [fst snd app] in Hlen, Hval.
  exists w0. rewrite DecomposeLumpedParameters_unfold, Hfold. cbn [fst snd map].
  split.
  { f_equal. f_equal. f_equal. clear.
    generalize 0%nat. induction (length f) as [|n IH]; intros s; simpl; [reflexivity|].
    now rewrite IH. }
  split; [assumption|].
  intros r f_r Hr.
  destruct (lookup_lt_is_Some_2 w0 r) as [w0_r Hw0_r];
    [apply lookup_lt_Some in Hr; lia|].
  exists w0_r. split; [assumption|]. intros env.
  rewrite <- (Hval r f_r env Hr), (nth_lookup_Some _ _ (EConstant 0) _ Hw0_r).
  simpl. ring.
Qed.
End State_only.

(** The rows [x + 2 sin(y)] and [3 x y^2] with the parameter [p]. *)
Lemma DecomposeLumpedParameters_without_parameters_witness :
  let x := mkVariable 1 in
  let y := mkVariable 2 in
  let p := mkVariable 3 in
  let f :=
    [EAdd 0 [(EVar x, 1%Q); (EOp Sin [EVar y], 2%Q)];
     EMul 3 [(EVar x, EConstant 1); (EVar y, EConstant 2)]] in
  exists w0 : list Expression,
    @DecomposeLumpedParameters _ reference_Algebra f [p] = Ok ([[]; []], [], w0) /\
    length w0 = length f /\
    forall i f_i, f !! i = Some f_i ->
      exists w0_i, w0 !! i = Some w0_i /\
        forall env, (@Evaluate reference_Interpretation env w0_i ==
                     @Evaluate reference_Interpretation env f_i)%Q.
Proof.
  intros x y p f.
  apply (@DecomposeLumpedParameters_without_parameters _ reference_Algebra f [p]).
  intros f_i Hf. apply list_elem_of_In in Hf. simpl in Hf.
  destruct Hf as [<-|[<-|[]]]; split; reflexivity.
Defined.

(** ** Products of parameters *)

Section Products_of_parameters.
Context `{UnitSimplification}.

Lemma Visit_parameter (parameters : variables) (q : variable) :
  include parameters q = true ->
  Visit parameters (EVar q) = Ok ([EConstant 1], [EVar q], EConstant 0).
Proof.
  intros Hq. cbn [Visit]. unfold VisitVariable. cbn [get_variable]. now rewrite Hq.
Qed.

Lemma SimpleMultiplication_parameter (w alpha q : Expression) :
  emul w (EConstant 1) = w ->
  SimpleMultiplication ([w], [alpha], EConstant 0) ([EConstant 1], [q], EConstant 0) =
    ([w], [emul alpha q], EConstant 0).
Proof.
  intros Hw. unfold SimpleMultiplication. cbn. rewrite Hw.
  now rewrite (emul_zero_l (EConstant 0) (EConstant 0)) by reflexivity.
Qed.

Lemma VisitMultiplication_parameters (parameters : variables) (ps : list variable) :
  (forall q, q ∈ ps -> include parameters q = true) ->
  forall w alpha, emul w (EConstant 1) = w ->
  foldM (VisitMultiplication_step (Visit parameters) parameters)
    (map (fun q => (EVar q, EConstant 1)) ps) ([w], [alpha], EConstant 0) =
  Ok ([w], [fold_left emul (map EVar ps) alpha], EConstant 0).
Proof.
  induction ps as [|q ps IH]; intros Hps w alpha Hw; [reflexivity|].
  cbn [map foldM]. rewrite VisitMultiplication_step_unfold. unfold visit_factor.
  cbn [fst snd]. change (is_one (EConstant 1)) with true. cbv iota.
  rewrite (Visit_parameter parameters q) by (apply Hps; left).
  cbn [mbind result_bind]. rewrite SimpleMultiplication_parameter by assumption.
  cbn [fold_left]. apply IH; [|assumption]. intros q' Hq'. apply Hps. now right.
Qed.

(** X17.  A product [c * p * p_1 * ... * p_k] of parameters, with [c]
    not zero, is lumped into one parameter term: the factoriser
    returns the single weight [c] (as the algebra simplifies [c * 1])
    paired with the product [p * p_1 * ... * p_k], and the remainder
    zero. *)
Theorem product_of_parameters_is_lumped (parameters : variables) (c : Q)
    (p : variable) (ps : list variable) :
  let e := EMul c (map (fun q => (EVar q, EConstant 1)) (p :: ps)) in
  Qeq_bool c 0 = false ->
  (forall q, q ∈ p :: ps -> include parameters q = true) ->
  Expand e = e ->
  Decompose e parameters =
    Ok ([if Qeq_bool c 1 then EConstant 1 else EConstant c],
        [fold_left emul (map EVar ps) (EVar p)], EConstant 0).
Proof.
  intros e Hc Hps Hexp. unfold Decompose. rewrite Hexp. subst e.
  cbn [Visit]. unfold VisitMultiplication. cbn [map foldM].
  rewrite VisitMultiplication_step_unfold. unfold visit_factor.
  cbn [fst snd]. change (is_one (EConstant 1)) with true. cbv iota.
  rewrite (Visit_parameter parameters p) by (apply Hps; left).
  cbn [mbind result_bind].
  assert (Hfirst :
    SimpleMultiplication ([], [], EConstant c) ([EConstant 1], [EVar p], EConstant 0) =
    ([if Qeq_bool c 1 then EConstant 1 else EConstant c], [EVar p], EConstant 0)).
  { unfold SimpleMultiplication. cbn. rewrite Hc. cbn.
    destruct (Qeq_bool c 1) eqn:Hone.
    - now rewrite !(emul_one_l (EConstant c)) by exact Hone.
    - rewrite (emul_one_r (EConstant c) (EConstant 1)) by (exact Hone || reflexivity).
      now rewrite (emul_zero_r (EConstant c) (EConstant 0)) by (exact Hone || reflexivity). }
  rewrite Hfirst.
  apply VisitMultiplication_parameters.
  - intros q Hq. apply Hps. now right.
  - destruct (Qeq_bool c 1) eqn:Hone.
    + now rewrite emul_one_l by reflexivity.
    + now rewrite emul_one_r by (exact Hone || reflexivity).
Qed.
End Products_of_parameters.

(** The product [5 p q r] of three parameters. *)
Lemma product_of_parameters_is_lumped_witness :
  let p := mkVariable 1 in
  let q := mkVariable 2 in
  let r := mkVariable 3 in
  let e := EMul 5 [(EVar p, EConstant 1); (EVar q, EConstant 1); (EVar r, EConstant 1)] in
  @Decompose _ reference_Algebra e (make_variables [p; q; r]) =
    Ok ([EConstant 5],
        [@emul _ reference_Algebra (@emul _ reference_Algebra (EVar p) (EVar q)) (EVar r)],
        EConstant 0).
Proof.
  intros p q r e.
  apply (@product_of_parameters_is_lumped _ _ reference_UnitSimplification
           (make_variables [p; q; r]) 5 p [q; r]).
  - reflexivity.
  - intros v Hv. apply list_elem_of_In in Hv. simpl in Hv.
    destruct Hv as [<-|[<-|[<-|[]]]]; reflexivity.
  - reflexivity.
Defined.

(** * Properties of the computations on doubles *)

(** ** Doubles and the rationals they hold *)

Lemma finite_as_Qeq (d : double) (q q' : Q) :
  finite_as d q -> (q == q')%Q -> finite_as d q'.
Proof.
  destruct d as [a| | |]; simpl; try contradiction.
  intros Ha Hq. now rewrite Ha.
Qed.

Lemma exactly_finite_as (d : double) (q : Q) : exactly d q = true -> finite_as d q.
Proof.
  destruct d as [a| | |]; simpl; try discriminate. apply Qeq_bool_iff.
Qed.

Lemma finite_as_dvcoeff (bd : list double) (b : list Q) (i : nat) :
  Forall2 finite_as bd b -> finite_as (dvcoeff bd i) (vcoeff b i).
Proof.
  intros Hb. revert i. unfold dvcoeff, vcoeff.
  induction Hb as [|d q bd b Hd Hb IH]; intros [|i]; simpl; try reflexivity; auto.
Qed.

Lemma finite_as_rows (Md : list (list double)) (M : list (list Q)) (i : nat) :
  Forall2 (Forall2 finite_as) Md M -> Forall2 finite_as (nth i Md []) (nth i M []).
Proof.
  intros HM. revert i.
  induction HM as [|rd r Md M Hr HM IH]; intros [|i]; simpl; try constructor; auto.
Qed.

Lemma finite_as_dcoeff (Md : list (list double)) (M : list (list Q)) (i j : nat) :
  Forall2 (Forall2 finite_as) Md M -> finite_as (dcoeff Md i j) (coeff M i j).
Proof.
  intros HM. unfold dcoeff, coeff. now apply finite_as_dvcoeff, finite_as_rows.
Qed.

Lemma finite_as_set_coeff (Md : list (list double)) (M : list (list Q)) (i j : nat)
    (d : double) (q : Q) :
  Forall2 (Forall2 finite_as) Md M -> finite_as d q ->
  Forall2 (Forall2 finite_as) (dset_coeff Md i j d) (set_coeff M i j q).
Proof.
  intros HM Hd. unfold dset_coeff, set_coeff.
  apply Forall2_insert; [assumption|].
  apply Forall2_insert; [now apply finite_as_rows|assumption].
Qed.

Lemma Forall2_repeat {A B : Type} (R : A -> B -> Prop) (a : A) (b : B) (n : nat) :
  R a b -> Forall2 R (repeat a n) (repeat b n).
Proof. intros Hab. induction n; simpl; constructor; auto. Qed.

Lemma represents_zero (n : nat) :
  represents (dZero_matrix n n, dZero_vector n, Finite 0)
    (Zero_matrix n n, Zero_vector n, 0%Q).
Proof.
  split; [|split]; cbn [fst snd].
  - apply Forall2_repeat, Forall2_repeat. reflexivity.
  - apply Forall2_repeat. reflexivity.
  - reflexivity.
Qed.

(** An addition into a zero entry gives what the addition into the
    zero double gives. *)
Lemma dadd_into_zero `{Rounding} (d x : double) (q c : Q) :
  finite_as d q -> (q == 0)%Q -> exactly (dadd (Finite 0) x) c = true ->
  finite_as (dadd d x) (q + c).
Proof.
  destruct d as [a| | |]; simpl; try contradiction. intros Ha Hq.
  destruct x as [y| | |]; simpl; try discriminate.
  intros Hx. apply exactly_finite_as in Hx.
  rewrite (round_compat (a + y) (0 + y)) by (rewrite Ha, Hq; reflexivity).
  apply (finite_as_Qeq _ c); [assumption|]. rewrite Hq. ring.
Qed.

Lemma dge_zero (x : double) : dge x (Finite 0) = true <-> ~ negative_or_NaN x.
Proof.
  unfold dge, negative_or_NaN. destruct x as [q| | |]; simpl.
  - rewrite Qle_bool_iff. split.
    + intros Hq [Hneg|Hnan]; [|discriminate]. now apply (Qlt_not_le _ _ Hneg).
    + intros Hq. destruct (Qlt_le_dec q 0) as [Hlt|Hle]; [|assumption].
      exfalso. apply Hq. now left.
  - split; [intros _ [[]|Hnan]; discriminate|reflexivity].
  - split; [discriminate|]. intros Hq. exfalso. apply Hq. now left.
  - split; [discriminate|]. intros Hq. exfalso. apply Hq. now right.
Qed.

(** ** The loop on doubles ends as the exact loop does *)

Lemma same_outcome_Ok {A B : Type} (x : result A) (y : result B) (b : B) :
  same_outcome x y -> y = Ok b -> exists a, x = Ok a.
Proof. intros Hxy ->. destruct x; [eauto|contradiction]. Qed.

Lemma same_outcome_Err {A B : Type} (x : result A) (y : result B) (err : Error) :
  same_outcome x y -> y = Err err -> x = Err err.
Proof. intros Hxy ->. destruct x; [contradiction|]. simpl in Hxy. now subst. Qed.

Lemma foldM_same_outcome {A B B' : Type} (f : B -> A -> result B)
    (g : B' -> A -> result B') (l : list A) :
  (forall b b' a, same_outcome (f b a) (g b' a)) ->
  forall b b', same_outcome (foldM f l b) (foldM g l b').
Proof.
  intros Hfg. induction l as [|a l IH]; intros b b'; simpl; [exact I|].
  specialize (Hfg b b' a).
  destruct (f b a) as [b1|e], (g b' a) as [b1'|e']; simpl in *;
    try contradiction; [apply IH|assumption].
Qed.

Lemma DecomposeQuadraticPolynomial_step_outcome `{Rounding} (m : gmap N nat) (n : nat)
    (std : list (list double) * list double * double)
    (st : list (list Q) * list Q * Q) (t : Monomial * Expression) :
  same_outcome (DecomposeQuadraticPolynomial_step m n std t)
    (DecomposeQuadraticPolynomial_step_in_Q m n st t).
Proof.
  destruct std as [[Md bd] cd], st as [[M b] c].
  unfold DecomposeQuadraticPolynomial_step, DecomposeQuadraticPolynomial_step_in_Q,
    demand, at_index, in_range.
  repeat
    (cbn [mbind result_bind same_outcome negb];
     match goal with
     | |- context [if ?c then _ else _] => destruct c
     | |- context [match ?l with [] => _ | _ :: _ => _ end] => destruct l
     | |- context [match ?p with (_, _) => _ end] => destruct p
     | |- context [match ?o with Some _ => _ | None => _ end] => destruct o
     end);
    cbn [mbind result_bind same_outcome]; auto.
Qed.

Lemma DecomposeQuadraticPolynomial_outcome `{Rounding} (poly : Polynomial)
    (m : gmap N nat) (r c k : nat) :
  same_outcome (DecomposeQuadraticPolynomial poly m r c k)
    (DecomposeQuadraticPolynomial_in_Q poly m r c k).
Proof.
  unfold DecomposeQuadraticPolynomial, DecomposeQuadraticPolynomial_in_Q, demand.
  destruct (r =? size m)%nat; cbn [mbind result_bind same_outcome]; [|reflexivity].
  destruct (c =? size m)%nat; cbn [mbind result_bind same_outcome]; [|reflexivity].
  destruct (k =? size m)%nat; cbn [mbind result_bind same_outcome]; [|reflexivity].
  apply foldM_same_outcome. intros. apply DecomposeQuadraticPolynomial_step_outcome.
Qed.

(** ** The loop on doubles follows the exact loop *)

Lemma coeff_Zero_matrix (n i j : nat) : coeff (Zero_matrix n n) i j = 0%Q.
Proof.
  unfold coeff, Zero_matrix.
  destruct (nth_in_or_default i (repeat (Zero_vector n) n) []) as [Hin | ->];
    [|now destruct j].
  apply repeat_spec in Hin. rewrite Hin. apply vcoeff_Zero_vector.
Qed.

Lemma unwritten_zero (vars : list variable) (n : nat) (mono : Monomial) :
  unwritten vars (Zero_matrix n n, Zero_vector n, 0%Q) mono.
Proof.
  split; [|split]; cbn [fst snd].
  - reflexivity.
  - intros i v _. rewrite vcoeff_Zero_vector, coeff_Zero_matrix. split; reflexivity.
  - intros i j vi vj _ _ _ _. rewrite coeff_Zero_matrix. reflexivity.
Qed.

(** A step of the loop leaves the entries of the other monomials as
    they are. *)
Lemma unwritten_step (vars : list variable) (t : Monomial * Expression)
    (st st' : list (list Q) * list Q * Q) (mono : Monomial) :
  entries_step vars (share t) st st' -> unwritten vars st mono -> t.1 <> mono ->
  unwritten vars st' mono.
Proof.
  destruct t as [key ce]. cbn [fst].
  intros (Hc & Hd & Ho) (Hu0 & Hu1 & Hu2) Hne. split; [|split].
  - intros ->. rewrite Hc, (Hu0 eq_refl), share_other by assumption. ring.
  - intros i v Hi. destruct (Hd i v Hi) as [Hb HM], (Hu1 i v Hi) as [Hub HuM].
    split; intros ->.
    + rewrite Hb, (Hub eq_refl), share_other by assumption. ring.
    + rewrite HM, (HuM eq_refl), share_other by assumption. ring.
  - intros i j vi vj Hi Hj Hlt ->.
    rewrite (Ho i j vi vj Hi Hj Hlt), (Hu2 i j vi vj Hi Hj Hlt eq_refl),
      share_other by assumption.
    ring.
Qed.

Section Quadratic_simulation.
Context `{Rounding}.
Variables (vars : list variable) (m : gmap N nat).
Hypothesis Hidx : index_of vars m.

Lemma DecomposeQuadraticPolynomial_step_simulation
    (std : list (list double) * list double * double)
    (st : list (list Q) * list Q * Q) (t : Monomial * Expression) :
  quad_state vars st -> represents std st -> term_ok vars t ->
  (total_degree t.1 <= 2)%nat -> exact_term t = true -> unwritten vars st t.1 ->
  exists std' st',
    DecomposeQuadraticPolynomial_step m (length vars) std t = Ok std' /\
    DecomposeQuadraticPolynomial_step_in_Q m (length vars) st t = Ok st' /\
    represents std' st'.
Proof.
  destruct std as [[Md bd] cd], st as [[M b] c], t as [mono ce].
  intros (Hsq & Hb & Hsym) (HM & Hbd & Hcd) (Hconst & Hnz & [Hinc Hpos] & Hin)
    Hdeg Hexact (Hu0 & Hu1 & Hu2).
  cbn [fst snd] in *.
  destruct ce as [k| | | | |]; try discriminate.
  unfold DecomposeQuadraticPolynomial_step, DecomposeQuadraticPolynomial_step_in_Q.
  cbn [fst snd is_constant demand mbind result_bind].
  rewrite Hnz. cbn [negb demand mbind result_bind get_constant_value].
  destruct (Nat.ltb_spec 2 (total_degree mono)); [lia|].
  unfold exact_term in Hexact. cbn [fst snd get_constant_value] in Hexact.
  destruct mono as [|[v1 k1] [|[v2 k2] [|p3 rest]]].
  - (* constant term *)
    do 2 eexists. split; [reflexivity|]. split; [reflexivity|].
    split; [exact HM|]. split; [exact Hbd|]. cbn [fst snd].
    apply dadd_into_zero; [exact Hcd|now apply Hu0|exact Hexact].
  - (* one variable *)
    inversion Hpos as [|? ? Hk1 _]; subst. inversion Hin as [|? ? Hv1 _]; subst.
    simpl in Hk1, Hv1, Hdeg.
    destruct (at_index_elem vars m Hidx v1 Hv1) as (i & Hat & Hi & Hlt).
    rewrite !Hat.
    assert (k1 = 1 \/ k1 = 2)%nat as [-> | ->] by lia.
    + cbn. unfold in_range. destruct (Nat.ltb_spec i (length vars)); [|lia]. cbn.
      do 2 eexists. split; [reflexivity|]. split; [reflexivity|].
      split; [exact HM|]. split; [|exact Hcd]. cbn [fst snd].
      apply Forall2_insert; [exact Hbd|].
      apply dadd_into_zero;
        [now apply finite_as_dvcoeff|now apply (Hu1 i v1 Hi)|exact Hexact].
    + cbn. unfold in_range. destruct (Nat.ltb_spec i (length vars)); [|lia]. cbn.
      do 2 eexists. split; [reflexivity|]. split; [reflexivity|].
      split; [|split; [exact Hbd|exact Hcd]]. cbn [fst snd].
      apply finite_as_set_coeff; [exact HM|].
      apply dadd_into_zero;
        [now apply finite_as_dcoeff|now apply (Hu1 i v1 Hi)|exact Hexact].
  - (* two variables *)
    inversion Hpos as [|? ? Hk1 Hpos']; subst. inversion Hpos' as [|? ? Hk2 _]; subst.
    inversion Hin as [|? ? Hv1 Hin']; subst. inversion Hin' as [|? ? Hv2 _]; subst.
    simpl in Hk1, Hk2, Hv1, Hv2, Hdeg.
    assert (k1 = 1)%nat as -> by lia. assert (k2 = 1)%nat as -> by lia.
    destruct (at_index_elem vars m Hidx v1 Hv1) as (i1 & Hat1 & Hi1 & Hlt1).
    destruct (at_index_elem vars m Hidx v2 Hv2) as (i2 & Hat2 & Hi2 & Hlt2).
    assert (get_id v1 < get_id v2)%N as Hids.
    { simpl in Hinc. inversion Hinc as [|? ? _ Hlt]; subst.
      now inversion Hlt; subst. }
    rewrite !Hat1. cbn. rewrite !Hat2. cbn.
    unfold in_range. destruct (Nat.ltb_spec i1 (length vars)); [|lia].
    destruct (Nat.ltb_spec i2 (length vars)); [|lia]. cbn.
    assert (HM1 : Forall2 (Forall2 finite_as)
                    (dset_coeff Md i1 i2 (dadd (dcoeff Md i1 i2) (Finite k)))
                    (set_coeff M i1 i2 (coeff M i1 i2 + k)%Q)).
    { apply finite_as_set_coeff; [exact HM|].
      apply dadd_into_zero;
        [now apply finite_as_dcoeff|now apply (Hu2 i1 i2 v1 v2 Hi1 Hi2 Hids)
        |exact Hexact]. }
    do 2 eexists. split; [reflexivity|]. split; [reflexivity|].
    split; [|split; [exact Hbd|exact Hcd]]. cbn [fst snd].
    apply finite_as_set_coeff; [exact HM1|]. now apply finite_as_dcoeff.
  - (* three variables or more *)
    inversion Hpos as [|? ? Hk1 Hpos']; subst. inversion Hpos' as [|? ? Hk2 Hpos'']; subst.
    inversion Hpos'' as [|? ? Hk3 _]; subst.
    simpl in Hk1, Hk2, Hk3, Hdeg. lia.
Qed.

Lemma DecomposeQuadraticPolynomial_fold_simulation (poly : Polynomial) :
  Forall (term_ok vars) poly -> (TotalDegree poly <= 2)%nat ->
  NoDup (map fst poly) -> forallb exact_term poly = true ->
  forall std st, quad_state vars st -> represents std st ->
  Forall (unwritten vars st) (map fst poly) ->
  exists std' st',
    foldM (DecomposeQuadraticPolynomial_step m (length vars)) poly std = Ok std' /\
    foldM (DecomposeQuadraticPolynomial_step_in_Q m (length vars)) poly st = Ok st' /\
    represents std' st'.
Proof.
  induction 1 as [|t poly Ht Hpoly IH]; intros Hdeg Hnd Hex std st Hst Hrep Hun.
  - exists std, st. auto.
  - apply TotalDegree_cons in Hdeg as [Hdt Hdeg].
    cbn [map] in Hnd, Hun. apply NoDup_cons in Hnd as [Hk Hnd].
    apply Forall_cons in Hun as [Hut Hun].
    cbn [forallb] in Hex. apply andb_true_iff in Hex as [Hext Hex].
    destruct (DecomposeQuadraticPolynomial_step_simulation std st t Hst Hrep Ht Hdt
                Hext Hut) as (std1 & st1 & Hstep & Hstep_in_Q & Hrep1).
    destruct (@DecomposeQuadraticPolynomial_step_in_Q_correct reference_Interpretation
                vars m Hidx st t Hst Ht Hdt) as (st1' & Hstep' & Hst1 & _).
    rewrite Hstep_in_Q in Hstep'. injection Hstep' as <-.
    destruct (DecomposeQuadraticPolynomial_step_in_Q_entries vars m Hidx st t Hst Ht Hdt)
      as (st1' & Hstep' & Hent).
    rewrite Hstep_in_Q in Hstep'. injection Hstep' as <-.
    destruct (IH Hdeg Hnd Hex std1 st1 Hst1 Hrep1) as (std2 & st2 & Hf & Hf_in_Q & Hrep2).
    { rewrite Forall_forall in Hun |- *. intros key Hkey.
      apply (unwritten_step vars t st st1 key Hent (Hun key Hkey)).
      intros <-. contradiction. }
    exists std2, st2. cbn [foldM]. rewrite Hstep, Hstep_in_Q.
    cbn [mbind result_bind]. auto.
Qed.
End Quadratic_simulation.

(** On distinct monomials whose coefficients enter without rounding,
    the program returns what the exact loop returns. *)
Lemma DecomposeQuadraticPolynomial_simulation `{Rounding} (poly : Polynomial)
    (vars : list variable) (m : gmap N nat) :
  index_of vars m -> Forall (term_ok vars) poly -> (TotalDegree poly <= 2)%nat ->
  NoDup (map fst poly) -> forallb exact_term poly = true ->
  exists std st,
    DecomposeQuadraticPolynomial poly m (length vars) (length vars) (length vars)
      = Ok std /\
    DecomposeQuadraticPolynomial_in_Q poly m (length vars) (length vars) (length vars)
      = Ok st /\
    represents std st.
Proof.
  intros Hidx Hpoly Hdeg Hnd Hex.
  destruct (DecomposeQuadraticPolynomial_fold_simulation vars m Hidx poly Hpoly Hdeg
              Hnd Hex
              (dZero_matrix (length vars) (length vars), dZero_vector (length vars),
               Finite 0)
              (Zero_matrix (length vars) (length vars), Zero_vector (length vars), 0%Q))
    as (std & st & Hf & Hf_in_Q & Hrep).
  - split; [apply Zero_matrix_square|]. split; [apply repeat_length|].
    apply Zero_matrix_symmetric.
  - apply represents_zero.
  - apply Forall_forall. intros key _. apply unwritten_zero.
  - exists std, st.
    unfold DecomposeQuadraticPolynomial, DecomposeQuadraticPolynomial_in_Q.
    rewrite (index_of_size vars m Hidx), Nat.eqb_refl. simpl. auto.
Qed.

(** ** A reference rounding *)

Definition reference_Rounding : Rounding.
Proof.
  refine {| round := binary64_round |}.
  intros a b Hab. unfold binary64_round. now rewrite (Qred_complete a b Hab).
Defined.

(** ** DecomposeQuadraticPolynomial *)

(** C5, as amended.  For every polynomial of total degree at most two
    whose coefficients are nonzero numbers on pairwise distinct
    monomials over the [n] variables indexed by a map of size [n], and
    whose coefficients enter [Q], [b] and [c] without rounding or
    overflow (the doubled coefficient of a square included),
    [DecomposeQuadraticPolynomial] returns a symmetric [n] by [n]
    matrix [Q], a vector [b] of length [n] and a number [c], all
    finite, with [0.5 * x' Q x + b' x + c], in the indexed order of
    the variables, equal to the value of the polynomial under every
    assignment. *)
Theorem DecomposeQuadraticPolynomial_correct `{Interpretation} `{Rounding}
    (poly : Polynomial) (vars : list variable) (m : gmap N nat) :
  index_of vars m -> size m = length vars ->
  Forall (term_ok vars) poly -> (TotalDegree poly <= 2)%nat ->
  NoDup (map fst poly) -> forallb exact_term poly = true ->
  reproduces_polynomial poly vars m.
Proof.
  intros Hidx Hsize Hpoly Hdeg Hnd Hex.
  destruct (DecomposeQuadraticPolynomial_simulation poly vars m Hidx Hpoly Hdeg Hnd Hex)
    as ([[Md bd] cd] & st & Hrun & Hrun_in_Q & Hrep).
  destruct (DecomposeQuadraticPolynomial_in_Q_correct poly vars m Hidx Hsize Hpoly Hdeg)
    as (M & b & c & Hrun' & Hsq & Hb & Hsym & Hval).
  rewrite Hrun_in_Q in Hrun'. injection Hrun' as ->.
  exists Md, bd, cd, M, b, c. auto 10.
Qed.

(** The polynomial [x^2 + 2 x y + 3 y + 4] over [x, y]. *)
Lemma DecomposeQuadraticPolynomial_correct_witness :
  let x := mkVariable 1 in
  let y := mkVariable 2 in
  let vars := [x; y] in
  let m : gmap N nat := <[2%N := 1%nat]> (<[1%N := 0%nat]> ∅) in
  let poly : Polynomial :=
    [([(x, 2%nat)], EConstant 1); ([(x, 1%nat); (y, 1%nat)], EConstant 2);
     ([(y, 1%nat)], EConstant 3); ([], EConstant 4)] in
  @DecomposeQuadraticPolynomial reference_Rounding poly m 2 2 2 =
    Ok ([[Finite 2; Finite 2]; [Finite 2; Finite 0]], [Finite 0; Finite 3], Finite 4) /\
  @reproduces_polynomial reference_Interpretation reference_Rounding poly vars m.
Proof.
  intros x y vars m poly. split; [vm_compute; reflexivity|].
  apply (@DecomposeQuadraticPolynomial_correct reference_Interpretation
           reference_Rounding poly vars m).
  - apply (index_of_two x y). discriminate.
  - reflexivity.
  - repeat constructor; simpl; try lia; apply list_elem_of_In; simpl; auto.
  - simpl. lia.
  - apply NoDup_ListNoDup. repeat constructor; simpl; intuition discriminate.
  - vm_compute. reflexivity.
Defined.

(** C5, as worded, fails on the polynomial [2^1023 * x^2]: twice its
    coefficient is beyond the largest double, and [Q] is returned with
    an infinite entry. *)
Lemma DecomposeQuadraticPolynomial_overflow_counterexample :
  let x := mkVariable 1 in
  let vars := [x] in
  let m : gmap N nat := <[1%N := 0%nat]> ∅ in
  let poly : Polynomial := [([(x, 2%nat)], EConstant (inject_Z (2 ^ 1023)))] in
  (index_of vars m /\ size m = length vars /\
   Forall (term_ok vars) poly /\ (TotalDegree poly <= 2)%nat) /\
  @DecomposeQuadraticPolynomial reference_Rounding poly m 1 1 1 =
    Ok ([[PlusInfinity]], [Finite 0], Finite 0) /\
  ~ @reproduces_polynomial reference_Interpretation reference_Rounding poly vars m.
Proof.
  intros x vars m poly.
  assert (Hrun : @DecomposeQuadraticPolynomial reference_Rounding poly m 1 1 1 =
                 Ok ([[PlusInfinity]], [Finite 0], Finite 0))
    by (vm_compute; reflexivity).
  split; [|split; [exact Hrun|]].
  - split; [apply (index_of_one x)|]. split; [reflexivity|]. split.
    + repeat constructor; simpl; try lia; apply list_elem_of_In; simpl; auto.
    + simpl. lia.
  - intros (Md & bd & cd & M & b & c & Hrun' & (HM & _) & _).
    change (length vars) with 1%nat in Hrun'. rewrite Hrun in Hrun'.
    injection Hrun' as <- <- <-. cbn [fst snd] in HM.
    inversion HM as [|rd r Md' M' Hrow _]; subst.
    inversion Hrow as [|d q rd' r' Hd _]; subst.
    exact Hd.
Qed.

(** X12.  On a polynomial with nonzero numeric coefficients over the
    indexed variables, [DecomposeQuadraticPolynomial] fails exactly
    when some monomial has total degree above two, and the failure
    names the first such monomial of the map; otherwise the total
    degree is at most two and it returns. *)
Theorem DecomposeQuadraticPolynomial_degree `{Rounding} (poly : Polynomial)
    (vars : list variable) (m : gmap N nat) :
  index_of vars m -> Forall (term_ok vars) poly ->
  match List.find (fun t => (2 <? total_degree t.1)%nat) poly with
  | Some t =>
      DecomposeQuadraticPolynomial poly m (length vars) (length vars) (length vars) =
        Err (MonomialDegreeExceeded t.1)
  | None =>
      (TotalDegree poly <= 2)%nat /\
      exists (M : list (list double)) (b : list double) (c : double),
        DecomposeQuadraticPolynomial poly m (length vars) (length vars) (length vars) =
          Ok (M, b, c)
  end.
Proof.
  intros Hidx Hpoly.
  pose proof (DecomposeQuadraticPolynomial_in_Q_degree poly vars m Hidx Hpoly) as Hexact.
  pose proof (DecomposeQuadraticPolynomial_outcome poly m (length vars) (length vars)
                (length vars)) as Hsame.
  destruct (List.find _ poly) as [t|].
  - exact (same_outcome_Err _ _ _ Hsame Hexact).
  - destruct Hexact as (Hdeg & M & b & c & Hexact). split; [exact Hdeg|].
    destruct (same_outcome_Ok _ _ _ Hsame Hexact) as ([[Md bd] cd] & Hrun).
    exists Md, bd, cd. exact Hrun.
Qed.

(** The polynomial [x + 2 x^3] over [x]. *)
Lemma DecomposeQuadraticPolynomial_degree_witness :
  let x := mkVariable 1 in
  let m : gmap N nat := <[1%N := 0%nat]> ∅ in
  let poly : Polynomial := [([(x, 1%nat)], EConstant 1); ([(x, 3%nat)], EConstant 2)] in
  index_of [x] m /\
  @DecomposeQuadraticPolynomial reference_Rounding poly m 1 1 1 =
    Err (MonomialDegreeExceeded [(x, 3%nat)]).
Proof.
  intros x m poly.
  pose proof (index_of_one x) as Hidx. split; [exact Hidx|].
  apply (@DecomposeQuadraticPolynomial_degree reference_Rounding poly [x] m Hidx).
  repeat constructor; simpl; try lia; apply list_elem_of_In; simpl; auto.
Defined.

(** X13.  On a polynomial of total degree at most two with nonzero
    numeric coefficients on pairwise distinct monomials over the
    indexed variables, whose coefficients enter without rounding or
    overflow (the doubled coefficient of a square included),
    [DecomposeQuadraticPolynomial] returns finite entries: [c] is the
    coefficient of the constant monomial, [b(i)] that of [x_i],
    [Q(i, i)] twice that of [x_i^2], and [Q(i, j) = Q(j, i)] that of
    [x_i * x_j], a missing monomial counting for zero. *)
Theorem DecomposeQuadraticPolynomial_entries `{Rounding} (poly : Polynomial)
    (vars : list variable) (m : gmap N nat) :
  index_of vars m -> Forall (term_ok vars) poly -> (TotalDegree poly <= 2)%nat ->
  NoDup (map fst poly) -> forallb exact_term poly = true ->
  exists (M : list (list double)) (b : list double) (c : double),
    DecomposeQuadraticPolynomial poly m (length vars) (length vars) (length vars)
      = Ok (M, b, c) /\
    finite_as c (coefficient poly []) /\
    (forall i v, vars !! i = Some v ->
       finite_as (dvcoeff b i) (coefficient poly [(v, 1%nat)]) /\
       finite_as (dcoeff M i i) (2 * coefficient poly [(v, 2%nat)])) /\
    (forall i j vi vj, vars !! i = Some vi -> vars !! j = Some vj ->
       (get_id vi < get_id vj)%N ->
       finite_as (dcoeff M i j) (coefficient poly [(vi, 1%nat); (vj, 1%nat)]) /\
       finite_as (dcoeff M j i) (coefficient poly [(vi, 1%nat); (vj, 1%nat)])).
Proof.
  intros Hidx Hpoly Hdeg Hnd Hex.
  destruct (DecomposeQuadraticPolynomial_simulation poly vars m Hidx Hpoly Hdeg Hnd Hex)
    as ([[Md bd] cd] & st & Hrun & Hrun_in_Q & Hrep).
  destruct (DecomposeQuadraticPolynomial_in_Q_entries poly vars m Hidx Hpoly Hdeg Hnd)
    as (M & b & c & Hrun' & Hc & Hdiag & Hoff).
  rewrite Hrun_in_Q in Hrun'. injection Hrun' as ->.
  destruct Hrep as (HM & Hb & Hcd). cbn [fst snd] in HM, Hb, Hcd.
  exists Md, bd, cd. split; [exact Hrun|]. split; [|split].
  - exact (finite_as_Qeq _ _ _ Hcd Hc).
  - intros i v Hi. destruct (Hdiag i v Hi) as [Hbi HMi]. split.
    + exact (finite_as_Qeq _ _ _ (finite_as_dvcoeff bd b i Hb) Hbi).
    + exact (finite_as_Qeq _ _ _ (finite_as_dcoeff Md M i i HM) HMi).
  - intros i j vi vj Hi Hj Hlt. destruct (Hoff i j vi vj Hi Hj Hlt) as [Hij Hji]. split.
    + exact (finite_as_Qeq _ _ _ (finite_as_dcoeff Md M i j HM) Hij).
    + exact (finite_as_Qeq _ _ _ (finite_as_dcoeff Md M j i HM) Hji).
Qed.

(** The polynomial [x^2 + 0.1 x y + 3 y + 4] over [x, y], with the
    double nearest to [0.1]. *)
Lemma DecomposeQuadraticPolynomial_entries_witness :
  let x := mkVariable 1 in
  let y := mkVariable 2 in
  let vars := [x; y] in
  let m : gmap N nat := <[2%N := 1%nat]> (<[1%N := 0%nat]> ∅) in
  let tenth := (3602879701896397 # 36028797018963968)%Q in
  let poly : Polynomial :=
    [([(x, 2%nat)], EConstant 1); ([(x, 1%nat); (y, 1%nat)], EConstant tenth);
     ([(y, 1%nat)], EConstant 3); ([], EConstant 4)] in
  @DecomposeQuadraticPolynomial reference_Rounding poly m 2 2 2 =
    Ok ([[Finite 2; Finite tenth]; [Finite tenth; Finite 0]], [Finite 0; Finite 3],
        Finite 4) /\
  exists (M : list (list double)) (b : list double) (c : double),
    @DecomposeQuadraticPolynomial reference_Rounding poly m (length vars) (length vars)
      (length vars) = Ok (M, b, c) /\
    finite_as c (coefficient poly []) /\
    (forall i v, vars !! i = Some v ->
       finite_as (dvcoeff b i) (coefficient poly [(v, 1%nat)]) /\
       finite_as (dcoeff M i i) (2 * coefficient poly [(v, 2%nat)])) /\
    (forall i j vi vj, vars !! i = Some vi -> vars !! j = Some vj ->
       (get_id vi < get_id vj)%N ->
       finite_as (dcoeff M i j) (coefficient poly [(vi, 1%nat); (vj, 1%nat)]) /\
       finite_as (dcoeff M j i) (coefficient poly [(vi, 1%nat); (vj, 1%nat)])).
Proof.
  intros x y vars m tenth poly. split; [vm_compute; reflexivity|].
  apply (@DecomposeQuadraticPolynomial_entries reference_Rounding poly vars m).
  - apply (index_of_two x y). discriminate.
  - repeat constructor; simpl; try lia;
      apply list_elem_of_In; simpl; auto.
  - simpl. lia.
  - apply NoDup_ListNoDup. repeat constructor; simpl; intuition discriminate.
  - vm_compute. reflexivity.
Defined.

(** ** DecomposeL2NormExpression *)

Section L2Norm_facts.
Context `{Rounding} `{PolynomialOps} `{LinearAlgebra}.

Ltac returns_false := do 4 eexists; split; [reflexivity|discriminate].

(** C8, as amended.  [DecomposeL2NormExpression] fails if and only if
    [psd_tol] or [coefficient_tol] is negative or a NaN, that is, does
    not pass the test [tol >= 0].  With both tolerances passing it, it
    returns a result, whose first component is [true] only when every
    check has passed: the top operator is a square root, its operand
    is a polynomial of total degree exactly two, the factorisation of
    [0.5 * Q] is not empty, and neither the residual of
    [A' * b = 0.5 * r] nor the constant term [s - b' * b], as computed
    on doubles, is above [coefficient_tol]; any other input gives
    [false].  The polynomial of a degree-two operand is taken to be
    normalised over the variables of the expression, as the
    constructor leaves it. *)
Theorem DecomposeL2NormExpression_fails_on_negative_or_NaN_tolerance_only
    (e : Expression) (psd_tol coefficient_tol : double) :
  (get_kind e = Op Sqrt -> is_polynomial (get_argument e) = true ->
   TotalDegree (MakePolynomial (get_argument e) None) = 2%nat ->
   Forall (term_ok (GetVariables e)) (MakePolynomial (get_argument e) None)) ->
  (is_Err (DecomposeL2NormExpression e psd_tol coefficient_tol) <->
   negative_or_NaN psd_tol \/ negative_or_NaN coefficient_tol) /\
  (~ negative_or_NaN psd_tol -> ~ negative_or_NaN coefficient_tol ->
   exists (flag : bool) (A : list (list double)) (b : list double)
          (vars : list variable),
     DecomposeL2NormExpression e psd_tol coefficient_tol = Ok (flag, A, b, vars) /\
     (flag = true -> l2_matched e psd_tol coefficient_tol A b)).
Proof.
  intros Hnormal.
  assert (Hok : ~ negative_or_NaN psd_tol -> ~ negative_or_NaN coefficient_tol ->
    exists (flag : bool) (A : list (list double)) (b : list double)
           (vars : list variable),
      DecomposeL2NormExpression e psd_tol coefficient_tol = Ok (flag, A, b, vars) /\
      (flag = true -> l2_matched e psd_tol coefficient_tol A b)).
  { intros Hpsd Hcoef. unfold DecomposeL2NormExpression.
    apply dge_zero in Hpsd, Hcoef. rewrite Hpsd, Hcoef.
    cbn [demand mbind result_bind].
    case_bool_decide as Hkind; cbn [negb]; [|returns_false].
    destruct (is_polynomial (get_argument e)) eqn:Hpoly; cbn [negb]; [|returns_false].
    destruct (Nat.eqb_spec (TotalDegree (MakePolynomial (get_argument e) None)) 2)
      as [Hdeg|Hdeg]; cbn [negb]; [|returns_false].
    destruct (ExtractVariablesFromExpression_indexes e) as (m & Hextract & Hidx & Hsize).
    rewrite Hextract. cbn [fst snd].
    destruct (@DecomposeQuadraticPolynomial_in_Q_correct reference_Interpretation
                (MakePolynomial (get_argument e) None) (GetVariables e) m Hidx Hsize
                (Hnormal Hkind eq_refl Hdeg) ltac:(lia))
      as (M' & r' & s' & Hexact & _).
    destruct (same_outcome_Ok _ _ _
                (DecomposeQuadraticPolynomial_outcome
                   (MakePolynomial (get_argument e) None) m
                   (length (GetVariables e)) (length (GetVariables e))
                   (length (GetVariables e)))
                Hexact) as ([[M r] s] & Hquad).
    rewrite Hquad. cbn [mbind result_bind].
    destruct (Nat.eqb_spec
                (length (DecomposePSDmatrixIntoXtransposeTimesX
                           (map (map (fun q => dmul q (Finite (1 # 2)))) M)
                           psd_tol true)) 0)
      as [Hempty|Hfull]; [returns_false|].
    cbv zeta.
    match goal with
    | |- context [dgt (maxCoeff ?res) coefficient_tol] =>
        destruct (dgt (maxCoeff res) coefficient_tol) eqn:Hres
    end; [returns_false|].
    match goal with
    | |- context [dgt (dabs ?d) coefficient_tol] =>
        destruct (dgt (dabs d) coefficient_tol) eqn:Hs
    end; [returns_false|].
    do 4 eexists. split; [reflexivity|]. intros _.
    unfold l2_matched. rewrite Hextract. cbn [snd].
    split; [assumption|]. split; [assumption|]. split; [assumption|].
    exists M, r, s. split; [exact Hquad|]. split; [reflexivity|].
    split; [assumption|]. split; [reflexivity|].
    split; assumption. }
  split; [|exact Hok]. split.
  - intros Herr.
    destruct (dge psd_tol (Finite 0)) eqn:Hpsd.
    + destruct (dge coefficient_tol (Finite 0)) eqn:Hcoef.
      * apply dge_zero in Hpsd, Hcoef.
        destruct (Hok Hpsd Hcoef) as (flag & A & b & vars & Heq & _).
        rewrite Heq in Herr. contradiction.
      * right. destruct coefficient_tol as [q| | |]; unfold negative_or_NaN; simpl;
          try discriminate; auto.
        left. unfold dge, dle in Hcoef.
        destruct (Qlt_le_dec q 0) as [Hlt|Hle]; [assumption|].
        apply Qle_bool_iff in Hle. congruence.
    + left. destruct psd_tol as [q| | |]; unfold negative_or_NaN; simpl;
        try discriminate; auto.
      left. unfold dge, dle in Hpsd.
      destruct (Qlt_le_dec q 0) as [Hlt|Hle]; [assumption|].
      apply Qle_bool_iff in Hle. congruence.
  - intros Hbad. unfold DecomposeL2NormExpression.
    destruct (dge psd_tol (Finite 0)) eqn:Hpsd; [|exact I].
    destruct (dge coefficient_tol (Finite 0)) eqn:Hcoef; [|exact I].
    apply dge_zero in Hpsd, Hcoef. tauto.
Qed.
End L2Norm_facts.

(** The norm [sqrt(x^2 + 0.2 x + 0.1 * 0.1)] with both tolerances
    zero; the constants are the doubles nearest to [0.2] and to the
    square of the double nearest to [0.1]. *)
Lemma DecomposeL2NormExpression_witness :
  let x := mkVariable 1 in
  let tenth := (3602879701896397 # 36028797018963968)%Q in
  let e :=
    EOp Sqrt [EAdd (1441151880758559 # 144115188075855872)
                [(EPow (EVar x) (EConstant 2), 1%Q); (EVar x, (2 * tenth)%Q)]] in
  let run :=
    @DecomposeL2NormExpression reference_Rounding reference_PolynomialOps
      (@reference_LinearAlgebra reference_Rounding) e (Finite 0) (Finite 0) in
  run = Ok (true, [[Finite 1]], [Finite tenth], [x]) /\
  (is_Err run <-> negative_or_NaN (Finite 0) \/ negative_or_NaN (Finite 0)) /\
  (~ negative_or_NaN (Finite 0) -> ~ negative_or_NaN (Finite 0) ->
   exists (flag : bool) (A : list (list double)) (b : list double)
          (vars : list variable),
     run = Ok (flag, A, b, vars) /\
     (flag = true ->
      @l2_matched reference_Rounding reference_PolynomialOps
        (@reference_LinearAlgebra reference_Rounding) e (Finite 0) (Finite 0) A b)).
Proof.
  intros x tenth e run. split; [vm_compute; reflexivity|].
  apply (@DecomposeL2NormExpression_fails_on_negative_or_NaN_tolerance_only
           reference_Rounding reference_PolynomialOps
           (@reference_LinearAlgebra reference_Rounding) e (Finite 0) (Finite 0)).
  intros _ _ _. vm_compute.
  repeat constructor; simpl; try lia; try discriminate;
    apply list_elem_of_In; simpl; auto.
Defined.

(** C8, as worded, fails at a NaN tolerance: the test [psd_tol >= 0]
    fails on it and the function throws, though the tolerance is not
    negative. *)
Lemma DecomposeL2NormExpression_NaN_tolerance_counterexample :
  let e := EOp Sqrt [EVar (mkVariable 1)] in
  let run :=
    @DecomposeL2NormExpression reference_Rounding reference_PolynomialOps
      (@reference_LinearAlgebra reference_Rounding) e NaN (Finite 0) in
  run = Err PreconditionFailure /\
  ~ (negative NaN \/ negative (Finite 0)) /\
  ~ @fails_on_negative_tolerance_only reference_Rounding reference_PolynomialOps
      (@reference_LinearAlgebra reference_Rounding) e NaN (Finite 0).
Proof.
  intros e run.
  assert (Hnot : ~ (negative NaN \/ negative (Finite 0))).
  { intros [[]|Hneg]. revert Hneg. simpl. apply Qlt_irrefl. }
  split; [reflexivity|]. split; [exact Hnot|].
  intros Hiff. apply Hnot, Hiff. exact I.
Qed.
